(** * LoopLens: the analysis engine of [VideoAnalyzer.startAnalysis]

    A shallow embedding of the signal-processing core of the video analyzer
    component (fusion, scene cuts, detrending, smoothing, peak detection,
    atomic loops, reps/sets assembly and the sampling loop that feeds them),
    followed by the properties the specification states about it.

    Number model.  The source computes with JavaScript numbers.  They are
    embedded as exact rationals [Q]: comparisons, [Math.min], [Math.max],
    [Math.floor], [Math.ceil] and [Math.round] are the exact ones, and no
    rounding error, infinity or NaN is represented.  A quotient by zero is
    [0] in [Q].  The source divides by zero only in these places: the means
    [sum / length || 1] of an empty sequence, where the NaN is falsy and
    replaced by 1 just as the [0] is; the other means of an empty sequence,
    whose value is then never used; a moving average over a negative
    half-width and [1 / fps] at a zero sampling rate, both outside the
    configuration surface ([validConfig]); and [60 / loopDuration] for two
    peaks at the same instant, which the sampling loop never produces.
    Indices and counters that the source uses as array positions are [nat]
    or [Z].

    Rounding.  Because [Q] has no rounding error, the properties stated of
    the component are those that rounding does not disturb: comparisons
    between values the code itself computes, equalities between the code's
    own expressions, and bounds by exactly representable constants.  Closed
    forms that hold in exact arithmetic only (the i-th instant as
    i / samplingRate, the mean of a constant window, a variance that is
    never negative) appear in auxiliary lemmas about the embedding, not in
    the properties.

    Browser side.  Seeking, drawing and decoding are taken as given: the
    record [Env] holds what they return, and the callbacks of the component
    ([setAppState], [addLog], [onProgress], ...) are recorded as a list of
    events in call order.  Template strings are kept as structured values
    ([LoopId], [Label], [Message]). *)

From Stdlib Require Import QArith Qround Qminmax Qabs Lqa ZArith Lia List Bool Sorted Permutation.
From Stdlib Require String.
Import ListNotations.
Open Scope Q_scope.

(** ** Numbers *)

(** [x < y] as the boolean the source branches on. *)
Definition Qltb (x y : Q) : bool := negb (Qle_bool y x).

(** JavaScript's [x || d] on numbers: [d] when [x] is falsy (zero). *)
Definition orElse (x d : Q) : Q := if Qeq_bool x 0 then d else x.

(** [Math.round]: the nearest integer, halves rounded up. *)
Definition round (x : Q) : Z := Qfloor (x + (1 # 2)).

Definition ofNat (n : nat) : Q := inject_Z (Z.of_nat n).

(** [arr.reduce((acc, d) => acc + f(d), 0)]. *)
Definition sumBy {A : Type} (f : A -> Q) (l : list A) : Q :=
  fold_left (fun acc d => acc + f d) l 0.

(** ** Data model (types.ts and the object literals of startAnalysis) *)

Inductive DetectionMode : Type := reps | sets.

Record AnalysisConfig : Type := {
  sensitivity : Q;
  minLoopDuration : Q;
  maxLoopDuration : Q;
  samplingRate : Q;
  smoothingWindow : Z;
  detectionMode : DetectionMode;
  detectSceneChanges : bool;
  ignoreSteadyMotion : bool;
  audioWeight : Q
}.

(** The temporary [_raw] attachment [{ v: cleanVScore, a: audioScore }]. *)
Module Raw.
Record t : Type := mk { v : Q; a : Q }.
End Raw.

(** One element of [combinedData] and of the sequences derived from it. *)
Record Sample : Type := {
  time : Q;
  value : Q;
  isSceneCut : bool;
  _raw : Raw.t
}.

Definition withValue (d : Sample) (x : Q) : Sample :=
  {| time := time d; value := x; isSceneCut := isSceneCut d; _raw := _raw d |}.

Definition withSceneCut (d : Sample) (b : bool) : Sample :=
  {| time := time d; value := value d; isSceneCut := b; _raw := _raw d |}.

(** ** Post processing and fusion *)

Section Fusion.
Variable config : AnalysisConfig.
Variable combinedData : list Sample.

Definition avgV : Q :=
  orElse (sumBy (fun d => Raw.v (_raw d)) combinedData / ofNat (length combinedData)) 1.
Definition avgA : Q :=
  orElse (sumBy (fun d => Raw.a (_raw d)) combinedData / ofNat (length combinedData)) 1.

Definition normV (raw : Raw.t) : Q := Qmin 1 (Raw.v raw / (avgV * 2)).
Definition normA (raw : Raw.t) : Q := Qmin 1 (Raw.a raw / (avgA * 2)).

Definition wA : Q := audioWeight config / 100.
Definition wV : Q := 1 - wA.

Definition fusedValue (raw : Raw.t) : Q := normV raw * wV + normA raw * wA.

Definition processedData : list Sample :=
  map (fun d => withValue d (fusedValue (_raw d) * 255)) combinedData.
End Fusion.

(** ** Exceptions

    Reading a property of [undefined] (an array position that does not
    exist) raises a TypeError, which the [try]/[catch] of startAnalysis
    turns into a failed run. *)

Inductive result (A : Type) : Type :=
| Ok (x : A)
| Throw.
Arguments Ok {A} x.
Arguments Throw {A}.

Definition bind {A B : Type} (c : result A) (k : A -> result B) : result B :=
  match c with
  | Ok x => k x
  | Throw => Throw
  end.

Notation "x <- c ;; k" := (bind c (fun x => k))
  (at level 61, c at next level, right associativity).

(** [arr[k]] followed by a property access. *)
Definition lookup {A : Type} (arr : list A) (k : nat) : result A :=
  match nth_error arr k with
  | Some x => Ok x
  | None => Throw
  end.

Definition lookupZ {A : Type} (arr : list A) (k : Z) : result A :=
  if (k <? 0)%Z then Throw else lookup arr (Z.to_nat k).

(** [arr.map((d, i) => f(i, d))]. *)
Fixpoint mapiFrom {A B : Type} (f : nat -> A -> B) (i : nat) (l : list A) : list B :=
  match l with
  | [] => []
  | x :: rest => f i x :: mapiFrom f (S i) rest
  end.

Definition mapi {A B : Type} (f : nat -> A -> B) (l : list A) : list B :=
  mapiFrom f 0 l.

(** ** Moving averages

    Both filters run
    [for (j = Math.max(0, i - w); j <= Math.min(arr.length - 1, i + w); j++)]
    accumulating [sum += arr[j].value; count++].  The bounds are clamped to
    valid positions, so the loop visits exactly the slice [window arr i w]. *)

Definition window (arr : list Sample) (i : nat) (w : Z) : list Sample :=
  let lo := Z.max 0 (Z.of_nat i - w) in
  let hi := Z.min (Z.of_nat (length arr) - 1) (Z.of_nat i + w) in
  firstn (Z.to_nat (hi - lo + 1)) (skipn (Z.to_nat lo) arr).

Definition windowMean (arr : list Sample) (i : nat) (w : Z) : Q :=
  let win := window arr i w in
  sumBy value win / ofNat (length win).

(** ** Peaks and loops *)

(** [{ ...smoothedData[i], index: i }]. *)
Record Peak : Type := {
  sample : Sample;
  index : nat
}.

Inductive LoopId : Type :=
| AtomId (i : nat)                     (* `atom-${i}` *)
| RepId (stamp : Z) (i : nat)          (* `rep-${Date.now()}-${i}` *)
| SetId (stamp : Z) (start : Q).       (* `set-${Date.now()}-${first.startTime}` *)

Inductive Label : Type :=
| Repetition (n : nat)                 (* `Repetition ${i+1}` *)
| SetOfReps (n : nat).                 (* `Set of ${loops.length} Reps` *)

Record DetectedLoop : Type := {
  id : LoopId;
  startTime : Q;
  endTime : Q;
  duration : Q;
  bpm : Z;
  confidence : Q;
  repCount : nat;
  thumbnail : option String.string;
  label : option Label
}.

Section Stages.
Variable config : AnalysisConfig.

(** *** 1.1 Scene cuts *)

Definition sceneThreshold (combinedData : list Sample) : Q :=
  let visualRunningSum := sumBy (fun d => Raw.v (_raw d)) combinedData in
  let vAvg := visualRunningSum / ofNat (length combinedData) in
  vAvg * 6.

Definition markSceneCuts (combinedData processed : list Sample) : list Sample :=
  if detectSceneChanges config then
    map (fun d => if Qltb (sceneThreshold combinedData) (Raw.v (_raw d))
                  then withSceneCut d true else d) processed
  else processed.

(** *** 1.2 Detrending *)

Definition trendWindow : Z := Qfloor (samplingRate config * (3 # 2)).

Definition detrend (processed : list Sample) : list Sample :=
  if ignoreSteadyMotion config then
    mapi (fun i d =>
            let trend := windowMean processed i trendWindow in
            withValue d (Qmax 0 (value d - trend))) processed
  else processed.

(** *** 2. Peak detection *)

Definition windowSize : Z :=
  if (smoothingWindow config =? 0)%Z then 2%Z else smoothingWindow config.

Definition smooth (detrendedData : list Sample) : list Sample :=
  mapi (fun i d => withValue d (windowMean detrendedData i windowSize)) detrendedData.

Definition avgEnergy (smoothedData : list Sample) : Q :=
  sumBy value smoothedData / ofNat (length smoothedData).

Definition peakThreshold (smoothedData : list Sample) : Q :=
  avgEnergy smoothedData * (1 + sensitivity config / 50).

(** The scan of [for (i = 1; i < smoothedData.length - 1; i++)]: the list
    starts at position [i - 1]. *)
Fixpoint peakScan (threshold : Q) (i : nat) (l : list Sample) : list Peak :=
  match l with
  | prev :: rest =>
      match rest with
      | curr :: next :: _ =>
          let here :=
            if Qltb (value prev) (value curr) && Qltb (value next) (value curr)
               && Qltb threshold (value curr)
            then [ {| sample := curr; index := i |} ] else [] in
          here ++ peakScan threshold (S i) rest
      | _ => []
      end
  | [] => []
  end.

Definition findPeaks (smoothedData : list Sample) : list Peak :=
  peakScan (peakThreshold smoothedData) 1 smoothedData.

(** *** 3. Atomic loop generation *)

(** [for (k = startPeak.index; k < endPeak.index; k++)
      if (detrendedData[k].isSceneCut) { hasCut = true; break; }],
    with [n] the number of positions left to visit. *)
Fixpoint cutScan (detrendedData : list Sample) (k n : nat) : result bool :=
  match n with
  | O => Ok false
  | S n' =>
      d <- lookup detrendedData k ;;
      if isSceneCut d then Ok true else cutScan detrendedData (S k) n'
  end.

Definition hasCut (detrendedData : list Sample) (startPeak endPeak : Peak) : result bool :=
  if detectSceneChanges config
  then cutScan detrendedData (index startPeak) (index endPeak - index startPeak)
  else Ok false.

Definition loopDuration (startPeak endPeak : Peak) : Q :=
  time (sample endPeak) - time (sample startPeak).

Definition inBounds (d : Q) : bool :=
  Qle_bool (minLoopDuration config) d && Qle_bool d (maxLoopDuration config).

Definition atomicLoop (i : nat) (startPeak endPeak : Peak) : DetectedLoop :=
  {| id := AtomId i;
     startTime := time (sample startPeak);
     endTime := time (sample endPeak);
     duration := loopDuration startPeak endPeak;
     bpm := round (60 / loopDuration startPeak endPeak);
     confidence :=
       Qmin 1 ((value (sample startPeak) + value (sample endPeak)) / (2 * 255) * 5);
     repCount := 1;
     thumbnail := None;
     label := None |}.

(** The body of the loop over consecutive peaks: what it pushes, if
    anything. *)
Definition candidate (detrendedData : list Sample) (i : nat) (startPeak endPeak : Peak)
  : result (option DetectedLoop) :=
  cut <- hasCut detrendedData startPeak endPeak ;;
  Ok (if negb cut && inBounds (loopDuration startPeak endPeak)
      then Some (atomicLoop i startPeak endPeak) else None).

Fixpoint atomicFrom (detrendedData : list Sample) (i : nat) (peaks : list Peak)
  : result (list DetectedLoop) :=
  match peaks with
  | startPeak :: rest =>
      match rest with
      | endPeak :: _ =>
          c <- candidate detrendedData i startPeak endPeak ;;
          more <- atomicFrom detrendedData (S i) rest ;;
          Ok (match c with Some l => l :: more | None => more end)
      | [] => Ok []
      end
  | [] => Ok []
  end.

Definition atomicLoops (detrendedData : list Sample) (peaks : list Peak)
  : result (list DetectedLoop) :=
  atomicFrom detrendedData 0 peaks.
End Stages.

(** ** 4. Final processing *)

(** [mergeSet], a helper of the component.  [stamp] is the value of
    [Date.now()] at the call. *)
Definition mergeSet (stamp : Z) (loops : list DetectedLoop) : result DetectedLoop :=
  first <- lookup loops 0 ;;
  last <- lookup loops (length loops - 1) ;;
  let totalDuration := endTime last - startTime first in
  let avgBpm := sumBy (fun l => inject_Z (bpm l)) loops / ofNat (length loops) in
  let avgConf := sumBy confidence loops / ofNat (length loops) in
  Ok {| id := SetId stamp (startTime first);
        startTime := startTime first;
        endTime := endTime last;
        duration := totalDuration;
        bpm := round avgBpm;
        confidence := avgConf;
        repCount := length loops;
        thumbnail := None;
        label := Some (SetOfReps (length loops)) |}.

Section Final.
Variable config : AnalysisConfig.
(** The value returned by the [k]-th call of [Date.now()] in this stage. *)
Variable now : nat -> Z.
Variable detrendedData : list Sample.

Definition repsStage (atomic : list DetectedLoop) : list DetectedLoop :=
  mapi (fun i l =>
          {| id := RepId (now i) i;
             startTime := startTime l;
             endTime := endTime l;
             duration := duration l;
             bpm := bpm l;
             confidence := confidence l;
             repCount := repCount l;
             thumbnail := thumbnail l;
             label := Some (Repetition (i + 1)) |}) atomic.

(** [for (k = startIndex; k < endIndex && k < detrendedData.length; k++)
      if (detrendedData[k].isSceneCut) gapHasCut = true;]
    with [n] the number of positions left to visit. *)
Fixpoint gapScan (k : Z) (n : nat) (found : bool) : result bool :=
  match n with
  | O => Ok found
  | S n' =>
      d <- lookupZ detrendedData k ;;
      gapScan (k + 1) n' (found || isSceneCut d)
  end.

Definition gapHasCut (prev curr : DetectedLoop) : result bool :=
  if detectSceneChanges config then
    let fps := samplingRate config in
    let startIndex := Qfloor (endTime prev * fps) in
    let endIndex := Qceiling (startTime curr * fps) in
    let stop := Z.min endIndex (Z.of_nat (length detrendedData)) in
    gapScan startIndex (Z.to_nat (stop - startIndex)) false
  else Ok false.

(** The walk [for (i = 1; i < atomicLoops.length; i++)] over the loops
    still to visit, and the [finalLoops.push(mergeSet(currentSet))] that
    follows it. *)
Fixpoint setsWalk (rest currentSet finalLoops : list DetectedLoop)
  : result (list DetectedLoop) :=
  match rest with
  | [] =>
      m <- mergeSet (now (length finalLoops)) currentSet ;;
      Ok (finalLoops ++ [m])
  | curr :: rest' =>
      prev <- lookup currentSet (length currentSet - 1) ;;
      let gap := startTime curr - endTime prev in
      let maxGap := Qmax 2 (duration prev * 3) in
      cut <- gapHasCut prev curr ;;
      if Qltb gap maxGap && negb cut
      then setsWalk rest' (currentSet ++ [curr]) finalLoops
      else
        m <- mergeSet (now (length finalLoops)) currentSet ;;
        setsWalk rest' [curr] (finalLoops ++ [m])
  end.

Definition setsStage (atomic : list DetectedLoop) : result (list DetectedLoop) :=
  match atomic with
  | [] => Ok []
  | first :: rest => setsWalk rest [first] []
  end.

Definition finalProcessing (atomic : list DetectedLoop) : result (list DetectedLoop) :=
  match detectionMode config with
  | reps => Ok (repsStage atomic)
  | sets => setsStage atomic
  end.
End Final.

(** ** The run *)

Inductive AppState : Type := IDLE | LOADING_VIDEO | ANALYZING | READY.

Inductive Level : Type := info | success | warn | error.

Inductive Message : Type :=
| MsgStarting (videoPct audioPct fps : Q)
| MsgCanvasFailed
| MsgDecodingAudio
| MsgAudioDecoded
| MsgAudioFailed
| MsgHighPass
| MsgComplete (found : nat)
| MsgAnalysisFailed.

(** What the run does to its callbacks, in order. *)
Inductive Event : Type :=
| SetAppState (s : AppState)
| AddLog (level : Level) (message : Message)
| OnProgress (progress : Q)
| OnMotionDataUpdate (data : list Sample)
| OnLoopsDetected (loops : list DetectedLoop).

Record AudioBuffer : Type := {
  sampleRate : Q;
  channelData : list Q
}.

(** The browser side of one run.  [decodeAudio] is [None] when
    [file.arrayBuffer()] or [decodeAudioData] rejects; [captureFrame t] is
    the [{vScore, variance}] pair the seek to [t] resolves with;
    [captureThumb t] the data URL drawn after the seek to [t]. *)
Record Env : Type := {
  hasVideo : bool;
  hasCanvas : bool;
  hasFile : bool;
  hasContext : bool;
  decodeAudio : option AudioBuffer;
  videoDuration : Q;
  captureFrame : Q -> Q * Q;
  captureThumb : Q -> String.string;
  dateNow : nat -> Z
}.

Section Run.
(** [Math.sqrt], which has no exact counterpart on [Q]. *)
Variable sqrt : Q -> Q.
Variable env : Env.
Variable config : AnalysisConfig.

Definition audioSetup : option AudioBuffer * list Event :=
  if Qltb 0 (audioWeight config) then
    match decodeAudio env with
    | Some buffer => (Some buffer, [AddLog info MsgDecodingAudio; AddLog success MsgAudioDecoded])
    | None => (None, [AddLog info MsgDecodingAudio; AddLog warn MsgAudioFailed])
    end
  else (None, []).

Definition fps : Q := samplingRate config.
Definition interval : Q := 1 / fps.

(** The samples [startSample <= i < endSample], [i < channelData.length]
    (for [t >= 0], as in every call of the run). *)
Definition getAudioRMS (audioBuffer : option AudioBuffer) (t w : Q) : Q :=
  match audioBuffer with
  | None => 0
  | Some buffer =>
      let startSample := Qfloor (t * sampleRate buffer) in
      let endSample := Qfloor ((t + w) * sampleRate buffer) in
      let stop := Z.min endSample (Z.of_nat (length (channelData buffer))) in
      let visited := firstn (Z.to_nat (stop - startSample))
                       (skipn (Z.to_nat startSample) (channelData buffer)) in
      let sumSq := sumBy (fun x => x * x) visited in
      let count := length visited in
      if Nat.eqb count 0 then 0 else sqrt (sumSq / ofNat count) * 1000
  end.

(** One iteration of the extraction loop: the pushed sample and the value
    passed to [onProgress]. *)
Definition sampleAt (audioBuffer : option AudioBuffer) (t : Q) : Sample * Q :=
  let (vScore, variance) := captureFrame env t in
  let audioScore := getAudioRMS audioBuffer t interval in
  let cleanVScore := if Qltb variance 10 then 0 else vScore in
  ({| time := t; value := 0; isSceneCut := false;
      _raw := Raw.mk cleanVScore audioScore |},
   t / videoDuration env * 100).

(** [for (let t = 0; t < duration; t += interval)].  [None]: the loop is
    still running when the fuel is spent. *)
Fixpoint sampleLoop (fuel : nat) (audioBuffer : option AudioBuffer) (t : Q)
  : option (list (Sample * Q)) :=
  match fuel with
  | O => None
  | S fuel' =>
      if Qltb t (videoDuration env) then
        match sampleLoop fuel' audioBuffer (t + interval) with
        | Some more => Some (sampleAt audioBuffer t :: more)
        | None => None
        end
      else Some []
  end.

Definition fuse (combinedData : list Sample) : list Sample :=
  markSceneCuts config combinedData (processedData config combinedData).

Definition peaksOf (detrendedData : list Sample) : list Peak :=
  findPeaks config (smooth config detrendedData).

Definition loopsOf (detrendedData : list Sample) : result (list DetectedLoop) :=
  atomic <- atomicLoops config detrendedData (peaksOf detrendedData) ;;
  finalProcessing config (dateNow env) detrendedData atomic.

Definition withThumbs (finalLoops : list DetectedLoop) : list DetectedLoop :=
  map (fun loop =>
         let thumbTime := startTime loop + duration loop * (1 # 2) in
         {| id := id loop;
            startTime := startTime loop;
            endTime := endTime loop;
            duration := duration loop;
            bpm := bpm loop;
            confidence := confidence loop;
            repCount := repCount loop;
            thumbnail := Some (captureThumb env thumbTime);
            label := label loop |}) finalLoops.

(** Everything after the extraction loop, inside the [try]. *)
Definition postProcessing (combinedData : list Sample) : list Event :=
  let detrendedData := detrend config (fuse combinedData) in
  (if ignoreSteadyMotion config then [AddLog info MsgHighPass] else [])
  ++ [OnMotionDataUpdate detrendedData]
  ++ match loopsOf detrendedData with
     | Ok finalLoops =>
         let resultLoopsWithThumbs := withThumbs finalLoops in
         [OnLoopsDetected resultLoopsWithThumbs;
          AddLog success (MsgComplete (length resultLoopsWithThumbs));
          SetAppState READY]
     | Throw => [AddLog error MsgAnalysisFailed; SetAppState READY]
     end.

Definition startAnalysis (fuel : nat) : option (list Event) :=
  if negb (hasVideo env) || negb (hasCanvas env) || negb (hasFile env) then Some []
  else
    let started :=
      [SetAppState ANALYZING;
       AddLog info (MsgStarting (100 - audioWeight config) (audioWeight config)
                                (samplingRate config))] in
    if negb (hasContext env)
    then Some (started ++ [AddLog error MsgCanvasFailed; SetAppState READY])
    else
      let (audioBuffer, audioLog) := audioSetup in
      match sampleLoop fuel audioBuffer 0 with
      | None => None
      | Some ticks =>
          Some (started ++ audioLog
                ++ map (fun tick => OnProgress (snd tick)) ticks
                ++ postProcessing (map fst ticks))
      end.
End Run.

(** ** Scoring one frame (the [seeked] handler of captureFrame)

    [frame.data] is the RGBA byte array of the canvas, four entries per
    pixel; the previous frame comes from the same canvas and has the same
    length. *)

(** [0.299*r + 0.587*g + 0.114*b]. *)
Definition gray (r g b : Z) : Q :=
  (299 # 1000) * inject_Z r + (587 # 1000) * inject_Z g + (114 # 1000) * inject_Z b.

Record FrameSums : Type := {
  diffScore : Q;
  pxSum : Q;
  pxSumSq : Q
}.

Section Frame.
Variable sqrt : Q -> Q.

(** [for (let i = 0; i < frame.data.length; i += 4)], with the previous
    frame advanced by the same four entries. *)
Fixpoint scanPixels (data : list Z) (prevFrameData : option (list Z))
         (acc : FrameSums) : FrameSums :=
  match data with
  | r :: g :: b :: _ :: rest =>
      let gray_ := gray r g b in
      scanPixels rest (option_map (skipn 4) prevFrameData)
        {| diffScore :=
             match prevFrameData with
             | Some (prevR :: prevG :: prevB :: _) =>
                 let prevGray := gray prevR prevG prevB in
                 let diff := Qabs (gray_ - prevGray) in
                 diffScore acc + sqrt diff
             | _ => diffScore acc
             end;
           pxSum := pxSum acc + gray_;
           pxSumSq := pxSumSq acc + gray_ * gray_ |}
  | _ => acc
  end.

(** The resolved [{vScore, variance}]. *)
Definition scoreFrame (prevFrameData : option (list Z)) (data : list Z) : Q * Q :=
  let pixelCount := ofNat (length data) / 4 in
  let sums := scanPixels data prevFrameData
                {| diffScore := 0; pxSum := 0; pxSumSq := 0 |} in
  let mean := pxSum sums / pixelCount in
  let variance := pxSumSq sums / pixelCount - mean * mean in
  (diffScore sums / pixelCount, variance).

(** The scores of consecutive seeks: [prevFrameData = frame.data] after
    each one. *)
Fixpoint captureFrames (prevFrameData : option (list Z)) (frames : list (list Z))
  : list (Q * Q) :=
  match frames with
  | [] => []
  | data :: rest => scoreFrame prevFrameData data :: captureFrames (Some data) rest
  end.
End Frame.

(** The luminance of each pixel of a frame. *)
Fixpoint grays (data : list Z) : list Q :=
  match data with
  | r :: g :: b :: _ :: rest => gray r g b :: grays rest
  | _ => []
  end.

(** A frame of [n] pixels of one colour. *)
Definition solidFrame (r g b a : Z) (n : nat) : list Z :=
  concat (repeat [r; g; b; a] n).

(** ** The result list of the application (App.tsx) *)

(** [type SortOption = 'startTime' | 'repCount' | 'duration' | 'confidence' | 'bpm']. *)
Inductive SortOption : Type :=
| SortStartTime | SortRepCount | SortDuration | SortConfidence | SortBpm.

(** [a[sortBy]]: every sortable field is a number. *)
Definition sortField (sortBy : SortOption) (a : DetectedLoop) : Q :=
  match sortBy with
  | SortStartTime => startTime a
  | SortRepCount => ofNat (repCount a)
  | SortDuration => duration a
  | SortConfidence => confidence a
  | SortBpm => inject_Z (bpm a)
  end.

(** The comparator of [sortedLoops]. *)
Definition compareLoops (sortBy : SortOption) (sortAsc : bool) (a b : DetectedLoop) : Z :=
  let valA := sortField sortBy a in
  let valB := sortField sortBy b in
  if Qltb valA valB then (if sortAsc then -1 else 1)%Z
  else if Qltb valB valA then (if sortAsc then 1 else -1)%Z
  else 0%Z.

(** [Array.prototype.sort] with a comparator.  The language fixes its
    result for a consistent comparator: the stable sort, which keeps elements
    that compare equal in their original order.  It is embedded as the
    stable insertion sort. *)
Fixpoint sortInsert {A : Type} (cmp : A -> A -> Z) (x : A) (l : list A) : list A :=
  match l with
  | [] => [x]
  | y :: rest => if (cmp x y <=? 0)%Z then x :: y :: rest else y :: sortInsert cmp x rest
  end.

Definition jsSort {A : Type} (cmp : A -> A -> Z) (l : list A) : list A :=
  fold_right (sortInsert cmp) [] l.

(** [[...loops].sort(...)] of the [useMemo]. *)
Definition sortedLoops (loops : list DetectedLoop) (sortBy : SortOption) (sortAsc : bool)
  : list DetectedLoop :=
  jsSort (compareLoops sortBy sortAsc) loops.

(** Equality of the strings the three id templates produce: the same
    template filled with the same numbers. *)
Definition idEqb (a b : LoopId) : bool :=
  match a, b with
  | AtomId i, AtomId j => Nat.eqb i j
  | RepId s i, RepId s' j => Z.eqb s s' && Nat.eqb i j
  | SetId s x, SetId s' y => Z.eqb s s' && Qeq_bool x y
  | _, _ => false
  end.

(** The part of the application state the result list lives in. *)
Record ResultState : Type := {
  loops : list DetectedLoop;
  selectedLoopId : option LoopId;
  sortBy : SortOption;
  sortAsc : bool
}.

(** [handleRemoveLoop]: [setLoops(prev => prev.filter(l => l.id !== id))] and
    [if (selectedLoopId === id) setSelectedLoopId(null)]. *)
Definition handleRemoveLoop (st : ResultState) (removed : LoopId) : ResultState :=
  {| loops := filter (fun l => negb (idEqb (id l) removed)) (loops st);
     selectedLoopId :=
       match selectedLoopId st with
       | Some sel => if idEqb sel removed then None else Some sel
       | None => None
       end;
     sortBy := sortBy st;
     sortAsc := sortAsc st |}.

(** [toggleSort]. *)
Definition toggleSort (st : ResultState) (field : SortOption) : ResultState :=
  if match sortBy st, field with
     | SortStartTime, SortStartTime | SortRepCount, SortRepCount
     | SortDuration, SortDuration | SortConfidence, SortConfidence
     | SortBpm, SortBpm => true
     | _, _ => false
     end
  then {| loops := loops st; selectedLoopId := selectedLoopId st;
          sortBy := sortBy st; sortAsc := negb (sortAsc st) |}
  else {| loops := loops st; selectedLoopId := selectedLoopId st;
          sortBy := field; sortAsc := true |}.

(** The list the cards, the export script and the CSV are built from. *)
Definition displayed (st : ResultState) : list DetectedLoop :=
  sortedLoops (loops st) (sortBy st) (sortAsc st).

(** ** Predicates used in the statements *)

(** Raw scores are non-negative: a mean of square roots, or zero, for the
    visual score; a scaled root mean square, or zero, for the audio score. *)
Definition rawNonneg (d : Sample) : Prop :=
  0 <= Raw.v (_raw d) /\ 0 <= Raw.a (_raw d).

(** The configuration surface: a positive sampling rate, a non-negative
    smoothing half-width, an audio weight between 0 and 100. *)
Definition validConfig (config : AnalysisConfig) : Prop :=
  0 < samplingRate config /\ (0 <= smoothingWindow config)%Z /\
  0 <= audioWeight config <= 100.

Definition withSensitivity (config : AnalysisConfig) (s : Q) : AnalysisConfig :=
  {| sensitivity := s;
     minLoopDuration := minLoopDuration config;
     maxLoopDuration := maxLoopDuration config;
     samplingRate := samplingRate config;
     smoothingWindow := smoothingWindow config;
     detectionMode := detectionMode config;
     detectSceneChanges := detectSceneChanges config;
     ignoreSteadyMotion := ignoreSteadyMotion config;
     audioWeight := audioWeight config |}.

Definition withSmoothingWindow (config : AnalysisConfig) (w : Z) : AnalysisConfig :=
  {| sensitivity := sensitivity config;
     minLoopDuration := minLoopDuration config;
     maxLoopDuration := maxLoopDuration config;
     samplingRate := samplingRate config;
     smoothingWindow := w;
     detectionMode := detectionMode config;
     detectSceneChanges := detectSceneChanges config;
     ignoreSteadyMotion := ignoreSteadyMotion config;
     audioWeight := audioWeight config |}.

(** The three guards of the scan, as a proposition. *)
Definition peakShape (threshold : Q) (prev curr next : Sample) : Prop :=
  value prev < value curr /\ value next < value curr /\ threshold < value curr.

(** Some flagged sample sits at a position [k] with [lo <= k < hi]. *)
Definition flaggedIn (data : list Sample) (lo hi : nat) : Prop :=
  exists k d, (lo <= k < hi)%nat /\ nth_error data k = Some d /\ isSceneCut d = true.

(** The scene-cut test of a peak pair as the specification words it: a
    flagged sample strictly between the two peak indices. *)
Definition flaggedStrictlyBetween (data : list Sample) (p q : Peak) : bool :=
  existsb isSceneCut (firstn (index q - index p - 1) (skipn (S (index p)) data)).

(** What generation guarantees of an atomic loop: one repetition, ending at
    a sampled (hence non-negative) instant. *)
Definition atomicWf (l : DetectedLoop) : Prop :=
  repCount l = 1%nat /\ 0 <= endTime l.

(** [u] is what [mergeSet] makes of the group [g]. *)
Definition mergedFrom (g : list DetectedLoop) (u : DetectedLoop) : Prop :=
  exists stamp, mergeSet stamp g = Ok u.

(** The values passed to [onProgress], in order. *)
Definition progressOf (events : list Event) : list Q :=
  flat_map (fun e => match e with OnProgress p => [p] | _ => [] end) events.

(** The callbacks of a run that gets through every stage, in order: the
    start, the audio set-up log, one progress report per sample, the
    optional filter log, the motion data, the loops, the success log and the
    return to [READY]. *)
Definition completedRun (env : Env) (config : AnalysisConfig)
           (ticks : list (Sample * Q)) (finalLoops : list DetectedLoop) : list Event :=
  [SetAppState ANALYZING;
   AddLog info (MsgStarting (100 - audioWeight config) (audioWeight config)
                            (samplingRate config))]
  ++ snd (audioSetup env config)
  ++ map (fun tick => OnProgress (snd tick)) ticks
  ++ (if ignoreSteadyMotion config then [AddLog info MsgHighPass] else [])
  ++ [OnMotionDataUpdate (detrend config (fuse config (map fst ticks)));
      OnLoopsDetected (withThumbs env finalLoops);
      AddLog success (MsgComplete (length (withThumbs env finalLoops)));
      SetAppState READY].


(** ** Inputs used in the examples *)

(** A signal with the given values at 2 samples per second. *)
Definition signalOf (values : list Q) : list Sample :=
  mapi (fun i x => {| time := ofNat i / 2; value := x; isSceneCut := false;
                      _raw := Raw.mk 0 0 |}) values.

(** A stand-in for [Math.sqrt] in runs without an audio buffer, where
    [getAudioRMS] returns before calling it. *)
Definition unusedSqrt (x : Q) : Q := x.

(** A one-second clip with steady texture and constant motion score, no
    decodable audio. *)
Definition shortClip : Env :=
  {| hasVideo := true; hasCanvas := true; hasFile := true; hasContext := true;
     decodeAudio := None;
     videoDuration := 1;
     captureFrame := fun _ => (5, 100);
     captureThumb := fun _ => String.EmptyString;
     dateNow := fun _ => 0%Z |}.

(** A peak of full height at instant [t]. *)
Definition peakAt (t : Q) (i : nat) : Peak :=
  {| sample := {| time := t; value := 255; isSceneCut := false; _raw := Raw.mk 1 0 |};
     index := i |}.

(** The atomic loops spanning [0, 1], [1.2, 2.1] and [5.0, 5.9]. *)
Definition threeLoops : list DetectedLoop :=
  [atomicLoop 0 (peakAt 0 0) (peakAt 1 10);
   atomicLoop 2 (peakAt (12 # 10) 12) (peakAt (21 # 10) 21);
   atomicLoop 4 (peakAt 5 50) (peakAt (59 # 10) 59)].

(** A configuration at 2 samples per second, smoothing half-width 1, video
    only, loops of 0.5 to 5 seconds. *)
Definition exampleConfig (detect : bool) (mode : DetectionMode) (sens : Q) : AnalysisConfig :=
  {| sensitivity := sens;
     minLoopDuration := 1 # 2;
     maxLoopDuration := 5;
     samplingRate := 2;
     smoothingWindow := 1;
     detectionMode := mode;
     detectSceneChanges := detect;
     ignoreSteadyMotion := false;
     audioWeight := 0 |}.

(** The samples the extraction loop collects at 2 samples per second from
    the given visual scores, without audio. *)
Definition samplesOf (scores : list Q) : list Sample :=
  mapi (fun i x => {| time := ofNat i / 2; value := 0; isSceneCut := false;
                      _raw := Raw.mk x 0 |}) scores.

(** Visual scores with a spike above six times the mean at t = 2.5,
    between two bursts of motion. *)
Definition cutBetweenPeaks : list Q :=
  [0; 0; 0; 18 # 10; 0; 74 # 10; 0; 18 # 10; 0; 0; 0].

(** Visual scores with a spike above six times the mean at t = 1.0, which
    is itself the first of two peaks. *)
Definition cutOnStartPeak : list Q :=
  [0; 1; 20; 1; 0; 0; 1; 5; 1; 0; 0].

(** The same clip with frames of no texture (variance below 10). *)
Definition flatClip : Env :=
  {| hasVideo := true; hasCanvas := true; hasFile := true; hasContext := true;
     decodeAudio := None;
     videoDuration := 1;
     captureFrame := fun _ => (5, 0);
     captureThumb := fun _ => String.EmptyString;
     dateNow := fun _ => 0%Z |}.

(** The example configuration with "ignore steady motion" switched on. *)
Definition steadyConfig : AnalysisConfig :=
  {| sensitivity := 40;
     minLoopDuration := 1 # 2;
     maxLoopDuration := 5;
     samplingRate := 2;
     smoothingWindow := 1;
     detectionMode := reps;
     detectSceneChanges := false;
     ignoreSteadyMotion := true;
     audioWeight := 0 |}.

(** A mono track of two samples at 10 samples per second. *)
Definition shortTrack : AudioBuffer :=
  {| sampleRate := 10; channelData := [1; 1] |}.

(** A frame of two pixels. *)
Definition twoPixels : list Z := [10; 20; 30; 255; 200; 100; 50; 255]%Z.

(** The result list holding the three loops, in its initial sort state. *)
Definition exampleResults : ResultState :=
  {| loops := threeLoops; selectedLoopId := None;
     sortBy := SortStartTime; sortAsc := true |}.

(** The example configuration with a fifth of the weight on audio. *)
Definition audioConfig : AnalysisConfig :=
  {| sensitivity := 40;
     minLoopDuration := 1 # 2;
     maxLoopDuration := 5;
     samplingRate := 2;
     smoothingWindow := 1;
     detectionMode := reps;
     detectSceneChanges := false;
     ignoreSteadyMotion := false;
     audioWeight := 20 |}.

(** Visual scores with three bursts of motion, at t = 1.0, 3.5 and 6.0. *)
Definition threeBursts : list Q :=
  [0; 1; 20; 1; 0; 0; 1; 20; 1; 0; 0; 1; 20; 1; 0].

(** A clip of 7.5 seconds with textured frames whose motion scores, at 2
    samples per second, are [threeBursts]; no decodable audio. *)
Definition burstClip : Env :=
  {| hasVideo := true; hasCanvas := true; hasFile := true; hasContext := true;
     decodeAudio := None;
     videoDuration := 15 # 2;
     captureFrame := fun t => (nth (Z.to_nat (Qfloor (t * 2))) threeBursts 0, 100);
     captureThumb := fun _ => String.EmptyString;
     dateNow := fun _ => 0%Z |}.

(** The example configuration with the given bounds on the loop
    duration, scene-cut detection off. *)
Definition boundsConfig (lo hi : Q) : AnalysisConfig :=
  {| sensitivity := 10;
     minLoopDuration := lo;
     maxLoopDuration := hi;
     samplingRate := 2;
     smoothingWindow := 1;
     detectionMode := reps;
     detectSceneChanges := false;
     ignoreSteadyMotion := false;
     audioWeight := 0 |}.

(** ** Relations used in the further properties *)

(** [a] may stand before [b] in the list sorted by [field] in the given
    direction. *)
Definition inOrder (field : SortOption) (asc : bool) (a b : DetectedLoop) : Prop :=
  if asc then sortField field a <= sortField field b
  else sortField field b <= sortField field a.

(** [l] has the value [k] in the sorted field. *)
Definition hasKey (field : SortOption) (k : Q) (l : DetectedLoop) : bool :=
  Qeq_bool (sortField field l) k.


(** [q] lies at least two positions after [p]. *)
Definition spaced (p q : Peak) : Prop := (index p + 2 <= index q)%nat.

(** [p] is not later than [q]. *)
Definition notLater (p q : Peak) : Prop := time (sample p) <= time (sample q).

(** [a] ends before, or exactly when, [b] starts. *)
Definition before (a b : DetectedLoop) : Prop := endTime a <= startTime b.

(** The test of the sets walk that lets [curr] join the group whose last
    member is [prev]. *)
Definition joins (config : AnalysisConfig) (data : list Sample)
           (prev curr : DetectedLoop) : Prop :=
  startTime curr - endTime prev < Qmax 2 (duration prev * 3) /\
  gapHasCut config data prev curr = Ok false.

(** Every member of [g] is related to the next one. *)
Fixpoint chained (R : DetectedLoop -> DetectedLoop -> Prop) (g : list DetectedLoop) : Prop :=
  match g with
  | a :: tl =>
      match tl with
      | b :: _ => R a b /\ chained R tl
      | [] => True
      end
  | [] => True
  end.

(** The last member of each group is not related to the first member of the
    next group. *)
Fixpoint separated (R : DetectedLoop -> DetectedLoop -> Prop)
         (groups : list (list DetectedLoop)) : Prop :=
  match groups with
  | g1 :: tl =>
      match tl with
      | g2 :: _ =>
          (forall a b, lookup g1 (length g1 - 1) = Ok a -> hd_error g2 = Some b -> ~ R a b)
          /\ separated R tl
      | [] => True
      end
  | [] => True
  end.

(** The lists passed to [onLoopsDetected], in order. *)
Definition loopsDelivered (events : list Event) : list (list DetectedLoop) :=
  flat_map (fun e => match e with OnLoopsDetected l => [l] | _ => [] end) events.

(** The run logged at error level. *)
Definition errorLogged (events : list Event) : bool :=
  existsb (fun e => match e with AddLog error _ => true | _ => false end) events.

(** * Properties *)

(** A [Forall] whose predicate is a conjunct or a bound of the one at hand. *)
Ltac weaken_forall H :=
  eapply Forall_impl; [|exact H];
  let x := fresh "x" in let Hx := fresh "Hx" in intros x Hx; apply Hx.

(** ** Facts about numbers and sums *)

Lemma Qltb_lt (x y : Q) : Qltb x y = true <-> x < y.
Proof.
  unfold Qltb. rewrite negb_true_iff.
  destruct (Qle_bool y x) eqn:E.
  - apply Qle_bool_iff in E. split; [discriminate | intros H; exfalso; lra].
  - split; [intros _ | reflexivity].
    apply Qnot_le_lt. intros H. apply Qle_bool_iff in H. congruence.
Qed.

Lemma fold_sum_shift {A : Type} (f : A -> Q) (l : list A) (c : Q) :
  fold_left (fun acc d => acc + f d) l c == c + sumBy f l.
Proof.
  unfold sumBy. revert c.
  induction l as [|x l IH]; intros c; simpl.
  - lra.
  - rewrite (IH (c + f x)), (IH (0 + f x)). lra.
Qed.

Lemma sumBy_cons {A : Type} (f : A -> Q) (x : A) (l : list A) :
  sumBy f (x :: l) == f x + sumBy f l.
Proof.
  unfold sumBy at 1. simpl. rewrite fold_sum_shift. lra.
Qed.

Lemma sumBy_nonneg {A : Type} (f : A -> Q) (l : list A) :
  Forall (fun d => 0 <= f d) l -> 0 <= sumBy f l.
Proof.
  induction 1 as [|x l Hx _ IH].
  - unfold sumBy. simpl. lra.
  - rewrite sumBy_cons. lra.
Qed.

Lemma ofNat_nonneg (n : nat) : 0 <= ofNat n.
Proof.
  unfold ofNat. change 0 with (inject_Z 0). rewrite <- Zle_Qle. lia.
Qed.

Lemma ofNat_succ (n : nat) : ofNat (S n) == ofNat n + 1.
Proof.
  unfold ofNat. rewrite Nat2Z.inj_succ. unfold Z.succ. rewrite inject_Z_plus.
  reflexivity.
Qed.

Lemma Qdiv_nonneg (x y : Q) : 0 <= x -> 0 <= y -> 0 <= x / y.
Proof.
  intros Hx Hy. destruct (Qeq_dec y 0) as [E|E].
  - rewrite E. unfold Qdiv, Qinv. simpl. lra.
  - apply Qle_shift_div_l; lra.
Qed.

Lemma orElse_pos (x d : Q) : 0 <= x -> 0 < d -> 0 < orElse x d.
Proof.
  intros Hx Hd. unfold orElse.
  destruct (Qeq_bool x 0) eqn:E; [exact Hd|].
  apply Qeq_bool_neq in E. lra.
Qed.

Lemma Qmin_1_bounds (x : Q) : 0 <= x -> 0 <= Qmin 1 x <= 1.
Proof.
  intros Hx. split.
  - apply Q.min_glb; lra.
  - apply Q.le_min_l.
Qed.

(** ** Fusion and normalization *)

Lemma avgV_pos (combinedData : list Sample) :
  Forall rawNonneg combinedData -> 0 < avgV combinedData.
Proof.
  intros H. unfold avgV. apply orElse_pos; [|lra].
  apply Qdiv_nonneg; [|apply ofNat_nonneg].
  apply sumBy_nonneg. weaken_forall H.
Qed.

Lemma avgA_pos (combinedData : list Sample) :
  Forall rawNonneg combinedData -> 0 < avgA combinedData.
Proof.
  intros H. unfold avgA. apply orElse_pos; [|lra].
  apply Qdiv_nonneg; [|apply ofNat_nonneg].
  apply sumBy_nonneg. weaken_forall H.
Qed.

Lemma normV_bounds (combinedData : list Sample) (d : Sample) :
  Forall rawNonneg combinedData -> rawNonneg d ->
  0 <= normV combinedData (_raw d) <= 1.
Proof.
  intros H [Hv _]. unfold normV. apply Qmin_1_bounds.
  pose proof (avgV_pos combinedData H).
  apply Qdiv_nonneg; lra.
Qed.

Lemma normA_bounds (combinedData : list Sample) (d : Sample) :
  Forall rawNonneg combinedData -> rawNonneg d ->
  0 <= normA combinedData (_raw d) <= 1.
Proof.
  intros H [_ Ha]. unfold normA. apply Qmin_1_bounds.
  pose proof (avgA_pos combinedData H).
  apply Qdiv_nonneg; lra.
Qed.

Lemma wA_bounds (config : AnalysisConfig) :
  0 <= audioWeight config <= 100 -> 0 <= wA config <= 1.
Proof.
  intros [H0 H1]. unfold wA. split.
  - apply Qle_shift_div_l; lra.
  - apply Qle_shift_div_r; lra.
Qed.

Lemma convex_bounds (x y w : Q) :
  0 <= x <= 1 -> 0 <= y <= 1 -> 0 <= w <= 1 ->
  0 <= x * (1 - w) + y * w <= 1.
Proof.
  intros Hx Hy Hw. split; nra.
Qed.

Lemma fusedValue_bounds (config : AnalysisConfig) (combinedData : list Sample) (d : Sample) :
  Forall rawNonneg combinedData -> rawNonneg d ->
  0 <= audioWeight config <= 100 ->
  0 <= fusedValue config combinedData (_raw d) * 255 <= 255.
Proof.
  intros H Hd Hw. unfold fusedValue, wV.
  pose proof (convex_bounds _ _ _ (normV_bounds _ _ H Hd) (normA_bounds _ _ H Hd)
                (wA_bounds _ Hw)).
  lra.
Qed.

Lemma processedData_bounds (config : AnalysisConfig) (combinedData : list Sample) :
  Forall rawNonneg combinedData ->
  0 <= audioWeight config <= 100 ->
  Forall (fun p => 0 <= value p <= 255) (processedData config combinedData).
Proof.
  intros H Hw. unfold processedData. apply Forall_forall. intros p Hp.
  apply in_map_iff in Hp. destruct Hp as [d [<- Hd]]. simpl.
  rewrite Forall_forall in H.
  apply fusedValue_bounds; [apply Forall_forall; exact H | now apply H | exact Hw].
Qed.

(** C6.  With non-negative raw scores and an audio weight in [0, 100]
    (so that wA lies in [0, 1] and wV = 1 - wA), every instant's normV and
    normA lie in [0, 1] however large the raw scores are, and every fused
    value (normV * wV + normA * wA) * 255 stored by the fusion stage lies in
    [0, 255]. *)
Theorem normalization_bounded (config : AnalysisConfig) (combinedData : list Sample) :
  Forall rawNonneg combinedData ->
  0 <= audioWeight config <= 100 ->
  (0 <= wA config <= 1 /\ wV config == 1 - wA config) /\
  (forall d, In d combinedData ->
     0 <= normV combinedData (_raw d) <= 1 /\
     0 <= normA combinedData (_raw d) <= 1 /\
     0 <= (normV combinedData (_raw d) * wV config
           + normA combinedData (_raw d) * wA config) * 255 <= 255) /\
  Forall (fun p => 0 <= value p <= 255) (processedData config combinedData).
Proof.
  intros H Hw. rewrite Forall_forall in H.
  assert (H' : Forall rawNonneg combinedData) by (apply Forall_forall; exact H).
  split; [|split].
  - split; [apply wA_bounds; exact Hw | unfold wV; reflexivity].
  - intros d Hd. repeat split;
      try apply (normV_bounds _ _ H' (H d Hd));
      try apply (normA_bounds _ _ H' (H d Hd));
      apply (fusedValue_bounds config _ _ H' (H d Hd) Hw).
  - now apply processedData_bounds.
Qed.

(** ** Sequences keep their instants and their length *)

Lemma mapiFrom_length {A B : Type} (f : nat -> A -> B) (i : nat) (l : list A) :
  length (mapiFrom f i l) = length l.
Proof.
  revert i. induction l as [|x l IH]; intros i; simpl; [reflexivity|].
  now rewrite IH.
Qed.

Lemma mapiFrom_nth {A B : Type} (f : nat -> A -> B) (i k : nat) (l : list A) :
  nth_error (mapiFrom f i l) k = option_map (f (i + k)%nat) (nth_error l k).
Proof.
  revert i k. induction l as [|x l IH]; intros i k; simpl.
  - destruct k; reflexivity.
  - destruct k as [|k]; simpl.
    + now rewrite Nat.add_0_r.
    + rewrite IH. now rewrite Nat.add_succ_comm.
Qed.

Lemma mapiFrom_map {A B C : Type} (f : nat -> A -> B) (g : B -> C) (h : A -> C)
      (i : nat) (l : list A) :
  (forall k x, g (f k x) = h x) -> map g (mapiFrom f i l) = map h l.
Proof.
  intros E. revert i. induction l as [|x l IH]; intros i; simpl; [reflexivity|].
  now rewrite E, IH.
Qed.

Lemma processedData_time (config : AnalysisConfig) (combinedData : list Sample) :
  map time (processedData config combinedData) = map time combinedData.
Proof.
  unfold processedData. rewrite map_map. reflexivity.
Qed.

Lemma markSceneCuts_time (config : AnalysisConfig) (combinedData processed : list Sample) :
  map time (markSceneCuts config combinedData processed) = map time processed.
Proof.
  unfold markSceneCuts. destruct (detectSceneChanges config); [|reflexivity].
  rewrite map_map. apply map_ext. intros d.
  destruct (Qltb _ _); reflexivity.
Qed.

Lemma markSceneCuts_value (config : AnalysisConfig) (combinedData processed : list Sample) :
  map value (markSceneCuts config combinedData processed) = map value processed.
Proof.
  unfold markSceneCuts. destruct (detectSceneChanges config); [|reflexivity].
  rewrite map_map. apply map_ext. intros d.
  destruct (Qltb _ _); reflexivity.
Qed.

Lemma detrend_time (config : AnalysisConfig) (processed : list Sample) :
  map time (detrend config processed) = map time processed.
Proof.
  unfold detrend. destruct (ignoreSteadyMotion config); [|reflexivity].
  apply mapiFrom_map. reflexivity.
Qed.

Lemma smooth_time (config : AnalysisConfig) (detrendedData : list Sample) :
  map time (smooth config detrendedData) = map time detrendedData.
Proof.
  apply mapiFrom_map. reflexivity.
Qed.

Lemma smooth_length (config : AnalysisConfig) (detrendedData : list Sample) :
  length (smooth config detrendedData) = length detrendedData.
Proof.
  apply mapiFrom_length.
Qed.

Lemma fuse_time (config : AnalysisConfig) (combinedData : list Sample) :
  map time (fuse config combinedData) = map time combinedData.
Proof.
  unfold fuse. now rewrite markSceneCuts_time, processedData_time.
Qed.

Lemma Forall_by_map {A B : Type} (f : A -> B) (P : B -> Prop) (l l' : list A) :
  map f l = map f l' -> Forall (fun x => P (f x)) l' -> Forall (fun x => P (f x)) l.
Proof.
  intros E H. apply Forall_map. rewrite E. apply Forall_map. exact H.
Qed.

(** ** Moving averages of a non-negative signal *)

Lemma Forall_firstn {A : Type} (P : A -> Prop) (n : nat) (l : list A) :
  Forall P l -> Forall P (firstn n l).
Proof.
  intros H. rewrite Forall_forall in *. intros x Hx. apply H.
  rewrite <- (firstn_skipn n l). apply in_or_app. now left.
Qed.

Lemma Forall_skipn {A : Type} (P : A -> Prop) (n : nat) (l : list A) :
  Forall P l -> Forall P (skipn n l).
Proof.
  intros H. rewrite Forall_forall in *. intros x Hx. apply H.
  rewrite <- (firstn_skipn n l). apply in_or_app. now right.
Qed.

Lemma windowMean_nonneg (arr : list Sample) (i : nat) (w : Z) :
  Forall (fun d => 0 <= value d) arr -> 0 <= windowMean arr i w.
Proof.
  intros H. unfold windowMean. apply Qdiv_nonneg; [|apply ofNat_nonneg].
  apply sumBy_nonneg. unfold window. now apply Forall_firstn, Forall_skipn.
Qed.

Lemma smooth_nonneg (config : AnalysisConfig) (detrendedData : list Sample) :
  Forall (fun d => 0 <= value d) detrendedData ->
  Forall (fun d => 0 <= value d) (smooth config detrendedData).
Proof.
  intros H. apply Forall_forall. intros d Hd.
  apply In_nth_error in Hd. destruct Hd as [k Hk].
  unfold smooth, mapi in Hk. rewrite mapiFrom_nth in Hk.
  destruct (nth_error detrendedData k); [|discriminate].
  injection Hk as <-. simpl. now apply windowMean_nonneg.
Qed.

Lemma detrend_nonneg (config : AnalysisConfig) (processed : list Sample) :
  Forall (fun d => 0 <= value d) processed ->
  Forall (fun d => 0 <= value d) (detrend config processed).
Proof.
  intros H. unfold detrend. destruct (ignoreSteadyMotion config); [|exact H].
  apply Forall_forall. intros d Hd.
  apply In_nth_error in Hd. destruct Hd as [k Hk].
  unfold mapi in Hk. rewrite mapiFrom_nth in Hk.
  destruct (nth_error processed k); [|discriminate].
  injection Hk as <-. simpl. apply Q.le_max_l.
Qed.

Lemma fuse_nonneg (config : AnalysisConfig) (combinedData : list Sample) :
  Forall rawNonneg combinedData -> 0 <= audioWeight config <= 100 ->
  Forall (fun d => 0 <= value d) (fuse config combinedData).
Proof.
  intros H Hw. unfold fuse.
  apply (Forall_by_map value (fun x => 0 <= x) _ _ (markSceneCuts_value _ _ _)).
  pose proof (processedData_bounds config combinedData H Hw) as Hb.
  weaken_forall Hb.
Qed.

(** ** Peak detection *)

Lemma peak_guard (threshold : Q) (prev curr next : Sample) :
  Qltb (value prev) (value curr) && Qltb (value next) (value curr)
  && Qltb threshold (value curr) = true
  <-> peakShape threshold prev curr next.
Proof.
  unfold peakShape. rewrite !andb_true_iff, !Qltb_lt. tauto.
Qed.

Lemma peakScan_spec (threshold : Q) (l : list Sample) (i : nat) (p : Peak) :
  In p (peakScan threshold i l) <->
  exists j prev next,
    index p = (i + j)%nat /\
    nth_error l j = Some prev /\
    nth_error l (S j) = Some (sample p) /\
    nth_error l (S (S j)) = Some next /\
    peakShape threshold prev (sample p) next.
Proof.
  revert i. induction l as [|prev rest IH]; intros i.
  - simpl. split; [tauto|]. intros (j & a & b & _ & H & _). destruct j; discriminate.
  - cbn [peakScan]. destruct rest as [|curr [|next rest']].
    + split; [intros []|]. intros (j & a & b & _ & _ & H & _).
      destruct j as [|[|j]]; discriminate.
    + split; [intros []|]. intros (j & a & b & _ & _ & _ & H & _).
      destruct j as [|[|[|j]]]; discriminate.
    + rewrite in_app_iff, IH. split.
      * intros [H | (j & a & b & Hi & Ha & Hc & Hb & Hs)].
        -- destruct (_ && _) eqn:G; [|destruct H].
           destruct H as [<- | []]. apply peak_guard in G.
           exists 0%nat, prev, next. simpl. rewrite Nat.add_0_r. tauto.
        -- exists (S j), a, b. rewrite <- Nat.add_succ_comm. tauto.
      * intros (j & a & b & Hi & Ha & Hc & Hb & Hs). destruct j as [|j].
        -- left. simpl in Ha, Hc, Hb.
           injection Ha as <-. injection Hb as <-. injection Hc as Hc.
           apply peak_guard in Hs. rewrite <- Hc in Hs. rewrite Hs.
           left. destruct p as [sp ip]. simpl in *. rewrite Nat.add_0_r in Hi.
           now subst.
        -- right. exists j, a, b. rewrite Nat.add_succ_comm. tauto.
Qed.

Lemma findPeaks_spec (config : AnalysisConfig) (smoothedData : list Sample) (p : Peak) :
  In p (findPeaks config smoothedData) <->
  exists prev next,
    (0 < index p)%nat /\
    nth_error smoothedData (index p - 1) = Some prev /\
    nth_error smoothedData (index p) = Some (sample p) /\
    nth_error smoothedData (index p + 1) = Some next /\
    peakShape (peakThreshold config smoothedData) prev (sample p) next.
Proof.
  unfold findPeaks. rewrite peakScan_spec. split.
  - intros (j & a & b & Hi & Ha & Hc & Hb & Hs). exists a, b.
    replace (index p - 1)%nat with j by lia.
    replace (index p + 1)%nat with (S (S j)) by lia.
    replace (index p) with (S j) at 2 by lia.
    repeat split; try assumption; try apply Hs. lia.
  - intros (a & b & Hpos & Ha & Hc & Hb & Hs). exists (index p - 1)%nat, a, b.
    replace (S (S (index p - 1))) with (index p + 1)%nat by lia.
    replace (S (index p - 1)) with (index p) by lia.
    repeat split; try assumption; try apply Hs. lia.
Qed.

Lemma findPeaks_index (config : AnalysisConfig) (smoothedData : list Sample) (p : Peak) :
  In p (findPeaks config smoothedData) ->
  (0 < index p /\ index p + 1 < length smoothedData)%nat /\
  nth_error smoothedData (index p) = Some (sample p).
Proof.
  intros H. apply findPeaks_spec in H.
  destruct H as (a & b & Hpos & _ & Hc & Hb & _).
  split; [split; [exact Hpos|]|exact Hc].
  apply nth_error_Some. rewrite Hb. discriminate.
Qed.

(** C4.  An index i is registered as a peak if and only if it is strictly
    interior (0 < i < length - 1) and the smoothed value at i is strictly
    greater than the value at i - 1, than the value at i + 1 and than
    peakThreshold = mean(smoothed value) * (1 + sensitivity / 50); the
    registered peak carries the sample at i; an index whose value equals a
    neighbour's (a flat top) is not registered. *)
Theorem peak_rule (config : AnalysisConfig) (smoothedData : list Sample) (i : nat) :
  peakThreshold config smoothedData
    == sumBy value smoothedData / ofNat (length smoothedData)
       * (1 + sensitivity config / 50) /\
  ((exists p, In p (findPeaks config smoothedData) /\ index p = i) <->
   (0 < i /\ i < length smoothedData - 1)%nat /\
   exists prev curr next,
     nth_error smoothedData (i - 1) = Some prev /\
     nth_error smoothedData i = Some curr /\
     nth_error smoothedData (i + 1) = Some next /\
     value curr > value prev /\ value curr > value next /\
     value curr > peakThreshold config smoothedData) /\
  (forall p, In p (findPeaks config smoothedData) ->
     nth_error smoothedData (index p) = Some (sample p)) /\
  (forall prev curr next,
     nth_error smoothedData (i - 1) = Some prev ->
     nth_error smoothedData i = Some curr ->
     nth_error smoothedData (i + 1) = Some next ->
     value curr == value prev \/ value curr == value next ->
     ~ exists p, In p (findPeaks config smoothedData) /\ index p = i).
Proof.
  split; [reflexivity|]. split; [|split].
  - split.
    + intros (p & Hp & <-). pose proof (findPeaks_index _ _ _ Hp) as [[H0 H1] _].
      split; [lia|]. apply findPeaks_spec in Hp.
      destruct Hp as (a & b & _ & Ha & Hc & Hb & Hs).
      exists a, (sample p), b. unfold peakShape in Hs. tauto.
    + intros ([H0 H1] & a & c & b & Ha & Hc & Hb & G1 & G2 & G3).
      exists {| sample := c; index := i |}. split; [|reflexivity].
      apply findPeaks_spec. exists a, b. simpl. unfold peakShape. tauto.
  - intros p Hp. apply (findPeaks_index _ _ _ Hp).
  - intros a c b Ha Hc Hb Heq (p & Hp & <-). apply findPeaks_spec in Hp.
    destruct Hp as (a' & b' & _ & Ha' & Hc' & Hb' & Hs).
    assert (Ea : a' = a) by congruence.
    assert (Eb : b' = b) by congruence.
    assert (Ec : sample p = c) by congruence.
    subst a' b'. rewrite Ec in Hs.
    unfold peakShape in Hs. destruct Heq as [E | E]; rewrite E in Hs; lra.
Qed.

Lemma peakScan_threshold_incl (th1 th2 : Q) (l : list Sample) (i : nat) :
  th1 <= th2 -> incl (peakScan th2 i l) (peakScan th1 i l).
Proof.
  intros Hth p. rewrite !peakScan_spec.
  intros (j & a & b & Hi & Ha & Hc & Hb & Hs). exists j, a, b.
  unfold peakShape in *. repeat split; try tauto. lra.
Qed.

Lemma peakScan_threshold_count (th1 th2 : Q) (l : list Sample) (i : nat) :
  th1 <= th2 -> (length (peakScan th2 i l) <= length (peakScan th1 i l))%nat.
Proof.
  intros Hth. revert i. induction l as [|prev rest IH]; intros i; [simpl; lia|].
  cbn [peakScan]. destruct rest as [|curr [|next rest']]; [simpl; lia ..|].
  rewrite !length_app. specialize (IH (S i)).
  destruct (Qltb th2 (value curr)) eqn:G2.
  - apply Qltb_lt in G2.
    assert (G1 : Qltb th1 (value curr) = true) by (apply Qltb_lt; lra).
    rewrite G1. lia.
  - rewrite andb_false_r. simpl length at 1. lia.
Qed.

Lemma avgEnergy_nonneg (smoothedData : list Sample) :
  Forall (fun d => 0 <= value d) smoothedData -> 0 <= avgEnergy smoothedData.
Proof.
  intros H. unfold avgEnergy. apply Qdiv_nonneg; [|apply ofNat_nonneg].
  now apply sumBy_nonneg.
Qed.

Lemma peakThreshold_mono (config : AnalysisConfig) (smoothedData : list Sample) (s1 s2 : Q) :
  Forall (fun d => 0 <= value d) smoothedData -> s1 <= s2 ->
  peakThreshold (withSensitivity config s1) smoothedData
  <= peakThreshold (withSensitivity config s2) smoothedData.
Proof.
  intros H Hs. unfold peakThreshold. simpl.
  pose proof (avgEnergy_nonneg _ H) as Ha.
  set (e := avgEnergy smoothedData) in *.
  assert (Hd : s1 / 50 <= s2 / 50) by (apply Qmult_le_compat_r; [exact Hs|]; apply Qinv_le_0_compat; lra).
  set (x1 := s1 / 50) in *. set (x2 := s2 / 50) in *. nra.
Qed.

Lemma findPeaks_sensitivity_mono (config : AnalysisConfig) (smoothedData : list Sample)
      (s1 s2 : Q) :
  Forall (fun d => 0 <= value d) smoothedData -> s1 <= s2 ->
  incl (findPeaks (withSensitivity config s2) smoothedData)
       (findPeaks (withSensitivity config s1) smoothedData) /\
  (length (findPeaks (withSensitivity config s2) smoothedData)
   <= length (findPeaks (withSensitivity config s1) smoothedData))%nat.
Proof.
  intros H Hs. pose proof (peakThreshold_mono config _ _ _ H Hs) as Hth.
  unfold findPeaks. split.
  - now apply peakScan_threshold_incl.
  - now apply peakScan_threshold_count.
Qed.

Lemma detrended_nonneg (config : AnalysisConfig) (combinedData : list Sample) :
  Forall rawNonneg combinedData -> 0 <= audioWeight config <= 100 ->
  Forall (fun d => 0 <= value d) (detrend config (fuse config combinedData)).
Proof.
  intros H Hw. now apply detrend_nonneg, fuse_nonneg.
Qed.

(** C5.  Two runs on the same raw samples (non-negative scores) whose
    valid configurations differ only in sensitivity, s1 <= s2: they smooth
    the same signal, the peak threshold of the run with s2 is at least that
    of the run with s1, every peak detected with s2 is detected with s1, and
    so the number of peaks does not grow with sensitivity. *)
Theorem sensitivity_monotone (config : AnalysisConfig) (combinedData : list Sample)
        (s1 s2 : Q) :
  validConfig config ->
  Forall rawNonneg combinedData ->
  s1 <= s2 ->
  let run s :=
    let config' := withSensitivity config s in
    smooth config' (detrend config' (fuse config' combinedData)) in
  let peaks s := findPeaks (withSensitivity config s) (run s) in
  run s1 = run s2 /\
  peakThreshold (withSensitivity config s1) (run s1)
  <= peakThreshold (withSensitivity config s2) (run s2) /\
  incl (peaks s2) (peaks s1) /\
  (length (peaks s2) <= length (peaks s1))%nat.
Proof.
  intros (_ & _ & Hw) H Hs run peaks.
  assert (Hn : Forall (fun d => 0 <= value d) (run s1)).
  { apply smooth_nonneg. apply (detrended_nonneg (withSensitivity config s1)); assumption. }
  split; [reflexivity|]. change (run s2) with (run s1). split.
  - now apply peakThreshold_mono.
  - unfold peaks. change (run s2) with (run s1).
    now apply findPeaks_sensitivity_mono.
Qed.

(** ** Atomic loops *)

Lemma lookup_Ok {A : Type} (arr : list A) (k : nat) (x : A) :
  lookup arr k = Ok x <-> nth_error arr k = Some x.
Proof.
  unfold lookup. destruct (nth_error arr k); split; congruence.
Qed.

Lemma lookup_total {A : Type} (arr : list A) (k : nat) :
  (k < length arr)%nat -> exists x, lookup arr k = Ok x.
Proof.
  intros H. unfold lookup. destruct (nth_error arr k) eqn:E; [eauto|].
  apply nth_error_None in E. lia.
Qed.

Lemma cutScan_true (data : list Sample) (k n : nat) :
  cutScan data k n = Ok true <-> flaggedIn data k (k + n).
Proof.
  revert k. induction n as [|n IH]; intros k; simpl.
  - split; [discriminate|]. intros (j & d & Hj & _). lia.
  - unfold lookup. destruct (nth_error data k) as [d|] eqn:E; simpl.
    + destruct (isSceneCut d) eqn:F.
      * split; [|reflexivity]. intros _. exists k, d. split; [lia|]. now split.
      * rewrite IH. split.
        -- intros (j & d' & Hj & H). exists j, d'. split; [lia|exact H].
        -- intros (j & d' & Hj & Hd & Hf). exists j, d'.
           destruct (Nat.eq_dec j k) as [->|Hne]; [congruence|].
           split; [lia|]. now split.
    + split; [discriminate|]. intros (j & d' & Hj & Hd & _).
      apply nth_error_None in E.
      assert (j < length data)%nat by (apply nth_error_Some; congruence). lia.
Qed.

Lemma cutScan_total (data : list Sample) (k n : nat) :
  (k + n <= length data)%nat -> exists b, cutScan data k n = Ok b.
Proof.
  revert k. induction n as [|n IH]; intros k H; simpl; [eauto|].
  destruct (lookup_total data k) as [d ->]; [lia|]. simpl.
  destruct (isSceneCut d); [eauto|]. apply IH. lia.
Qed.

Lemma inBounds_spec (config : AnalysisConfig) (d : Q) :
  inBounds config d = true <-> minLoopDuration config <= d <= maxLoopDuration config.
Proof.
  unfold inBounds. now rewrite andb_true_iff, !Qle_bool_iff.
Qed.

Lemma hasCut_enabled (config : AnalysisConfig) (data : list Sample) (p q : Peak) :
  detectSceneChanges config = true ->
  (hasCut config data p q = Ok true <-> flaggedIn data (index p) (index q)).
Proof.
  intros E. unfold hasCut. rewrite E. rewrite cutScan_true. unfold flaggedIn.
  split; intros (k & d & Hk & H); exists k, d; (split; [lia|exact H]).
Qed.

Lemma hasCut_total (config : AnalysisConfig) (data : list Sample) (p q : Peak) :
  (index p <= length data)%nat -> (index q <= length data)%nat ->
  exists b, hasCut config data p q = Ok b.
Proof.
  intros Hp Hq. unfold hasCut. destruct (detectSceneChanges config); [|eauto].
  apply cutScan_total. lia.
Qed.

Lemma hasCut_clear (config : AnalysisConfig) (data : list Sample) (p q : Peak) :
  (index p <= length data)%nat -> (index q <= length data)%nat ->
  detectSceneChanges config = false \/ ~ flaggedIn data (index p) (index q) ->
  hasCut config data p q = Ok false.
Proof.
  intros Hp Hq H. destruct (detectSceneChanges config) eqn:E.
  - destruct H as [H|H]; [discriminate|].
    destruct (hasCut_total config data p q Hp Hq) as [[|] Hb]; [|exact Hb].
    exfalso. apply H. apply (proj1 (hasCut_enabled config data p q E)). exact Hb.
  - unfold hasCut. now rewrite E.
Qed.

Lemma candidate_accepts (config : AnalysisConfig) (data : list Sample) (i : nat)
      (p q : Peak) (l : DetectedLoop) :
  candidate config data i p q = Ok (Some l) <->
  hasCut config data p q = Ok false /\ inBounds config (loopDuration p q) = true /\
  l = atomicLoop i p q.
Proof.
  unfold candidate. destruct (hasCut config data p q) as [[|]|]; simpl.
  - split; [discriminate|]. intros [H _]. discriminate.
  - destruct (inBounds config (loopDuration p q)); split.
    + intros H. injection H as <-. auto.
    + intros (_ & _ & ->). reflexivity.
    + discriminate.
    + intros (_ & H & _). discriminate.
  - split; [discriminate|]. intros [H _]. discriminate.
Qed.

Lemma candidate_rejects (config : AnalysisConfig) (data : list Sample) (i : nat)
      (p q : Peak) :
  candidate config data i p q = Ok None <->
  hasCut config data p q = Ok true \/
  (hasCut config data p q = Ok false /\ inBounds config (loopDuration p q) = false).
Proof.
  unfold candidate. destruct (hasCut config data p q) as [[|]|]; simpl.
  - split; [auto|reflexivity].
  - destruct (inBounds config (loopDuration p q)); split.
    + discriminate.
    + intros [H|[_ H]]; discriminate.
    + auto.
    + reflexivity.
  - split; [discriminate|]. intros [H|[H _]]; discriminate.
Qed.

Lemma atomicFrom_In (config : AnalysisConfig) (data : list Sample) (peaks : list Peak)
      (i : nat) (loops : list DetectedLoop) (l : DetectedLoop) :
  atomicFrom config data i peaks = Ok loops ->
  (In l loops <->
   exists j p q, nth_error peaks j = Some p /\ nth_error peaks (S j) = Some q /\
                 candidate config data (i + j) p q = Ok (Some l)).
Proof.
  revert i loops. induction peaks as [|p rest IH]; intros i loops H.
  - simpl in H. injection H as <-. split; [intros []|].
    intros (j & a & b & Hj & _). destruct j; discriminate.
  - cbn [atomicFrom] in H. destruct rest as [|q rest'].
    + injection H as <-. split; [intros []|].
      intros (j & a & b & _ & Hj & _). destruct j as [|[|j]]; discriminate.
    + destruct (candidate config data i p q) as [c|] eqn:Ec; [|discriminate].
      cbn [bind] in H.
      destruct (atomicFrom config data (S i) (q :: rest')) as [more|] eqn:Em;
        [|discriminate].
      cbn [bind] in H. injection H as <-. specialize (IH (S i) more Em).
      assert (Hmore : In l more <->
                exists j a b, nth_error (p :: q :: rest') (S j) = Some a /\
                              nth_error (p :: q :: rest') (S (S j)) = Some b /\
                              candidate config data (i + S j) a b = Ok (Some l)).
      { rewrite IH. split; intros (j & a & b & Ha & Hb & Hc); exists j, a, b;
          (split; [exact Ha|split; [exact Hb|]]).
        - now rewrite <- Nat.add_succ_comm.
        - now rewrite Nat.add_succ_comm. }
      split.
      * intros Hin.
        assert (Hcase : c = Some l \/ In l more).
        { destruct c as [l0|]; [destruct Hin as [->|Hin]|]; auto. }
        destruct Hcase as [-> | Hin'].
        -- exists 0%nat, p, q. rewrite Nat.add_0_r. auto.
        -- apply Hmore in Hin'. destruct Hin' as (j & a & b & Hj). exists (S j), a, b.
           exact Hj.
      * intros (j & a & b & Ha & Hb & Hc). destruct j as [|j].
        -- simpl in Ha, Hb. injection Ha as <-. injection Hb as <-.
           rewrite Nat.add_0_r in Hc. rewrite Ec in Hc. injection Hc as ->.
           now left.
        -- assert (In l more) by (apply Hmore; exists j, a, b; auto).
           destruct c; [now right|assumption].
Qed.

Lemma atomicFrom_total (config : AnalysisConfig) (data : list Sample) (peaks : list Peak)
      (i : nat) :
  Forall (fun p => (index p <= length data)%nat) peaks ->
  exists loops, atomicFrom config data i peaks = Ok loops.
Proof.
  revert i. induction peaks as [|p rest IH]; intros i H; [simpl; eauto|].
  cbn [atomicFrom]. destruct rest as [|q rest']; [eauto|].
  inversion H as [|? ? Hp Hrest]; subst. inversion Hrest as [|? ? Hq _]; subst.
  destruct (hasCut_total config data p q Hp Hq) as [b Hb].
  unfold candidate at 1. rewrite Hb. cbn [bind].
  destruct (IH (S i) Hrest) as [more ->]. cbn [bind]. eauto.
Qed.

Lemma candidate_enabled (config : AnalysisConfig) (data : list Sample) (i : nat)
      (p q : Peak) :
  detectSceneChanges config = true ->
  (index p <= length data)%nat -> (index q <= length data)%nat ->
  (hasCut config data p q = Ok false <-> ~ flaggedIn data (index p) (index q)) /\
  (candidate config data i p q = Ok None <->
   flaggedIn data (index p) (index q) \/
   ~ (minLoopDuration config <= loopDuration p q <= maxLoopDuration config)) /\
  (candidate config data i p q = Ok (Some (atomicLoop i p q)) <->
   ~ flaggedIn data (index p) (index q) /\
   minLoopDuration config <= loopDuration p q <= maxLoopDuration config).
Proof.
  intros E Hp Hq.
  pose proof (hasCut_enabled config data p q E) as Ht.
  destruct (hasCut_total config data p q Hp Hq) as [b Hb].
  assert (Hf : hasCut config data p q = Ok false <-> ~ flaggedIn data (index p) (index q)).
  { destruct b.
    - split; [congruence|]. intros N. exfalso. apply N, Ht, Hb.
    - split; [|intros _; exact Hb]. intros _ F. apply Ht in F. congruence. }
  split; [exact Hf|]. split.
  - rewrite candidate_rejects, Ht, Hf, <- inBounds_spec.
    destruct (inBounds config (loopDuration p q)), b.
    + split; [intros [H|[_ H]]; [auto|discriminate]|].
      intros [H|H]; [auto|]. exfalso. now apply H.
    + split; [intros [H|[_ H]]; [auto|discriminate]|].
      intros [H|H]; [auto|]. exfalso. now apply H.
    + split; [intros _; right; discriminate|]. intros _. left. apply Ht, Hb.
    + split; [intros _; right; discriminate|]. intros _. right. split; [|reflexivity].
      apply Hf, Hb.
  - rewrite candidate_accepts, Hf, inBounds_spec. tauto.
Qed.

(** C1 (amended).  With scene-cut detection enabled, the scan of a
    consecutive peak pair visits the positions from the start peak's own
    index up to, but not including, the end peak's index: the pair is
    rejected if and only if a flagged sample sits at such a position or the
    duration is out of bounds.  A flag on the start peak's own index rejects
    the pair; a flag on the end peak's index alone does not.  On the run
    whose peaks are at t = 2.0 and t = 3.0 with the sample at t = 2.5
    flagged, no atomic loop is produced although the duration 1.0 is within
    bounds. *)
Theorem scene_cut_rejection :
  (forall (config : AnalysisConfig) (data : list Sample) (i : nat) (p q : Peak),
     detectSceneChanges config = true ->
     (index p <= length data)%nat -> (index q <= length data)%nat ->
     (hasCut config data p q = Ok true <-> flaggedIn data (index p) (index q)) /\
     (candidate config data i p q = Ok None <->
      flaggedIn data (index p) (index q) \/
      ~ (minLoopDuration config <= loopDuration p q <= maxLoopDuration config)) /\
     (candidate config data i p q = Ok (Some (atomicLoop i p q)) <->
      ~ flaggedIn data (index p) (index q) /\
      minLoopDuration config <= loopDuration p q <= maxLoopDuration config) /\
     (forall d, (index p < index q)%nat -> nth_error data (index p) = Some d ->
                isSceneCut d = true -> candidate config data i p q = Ok None) /\
     (forall d, nth_error data (index q) = Some d -> isSceneCut d = true ->
                ~ flaggedIn data (index p) (index q) ->
                hasCut config data p q = Ok false)) /\
  (let config := exampleConfig true reps 40 in
   let data := detrend config (fuse config (samplesOf cutBetweenPeaks)) in
   match findPeaks config (smooth config data) with
   | [p; q] =>
       time (sample p) == 2 /\ time (sample q) == 3 /\
       index p = 4%nat /\ index q = 6%nat /\
       option_map (fun d => (Qeq_bool (time d) (5 # 2), isSceneCut d)) (nth_error data 5)
       = Some (true, true) /\
       inBounds config (loopDuration p q) = true /\
       atomicLoops config data [p; q] = Ok []
   | _ => False
   end).
Proof.
  split.
  - intros config data i p q E Hp Hq.
    destruct (candidate_enabled config data i p q E Hp Hq) as (Hf & Hn & Hs).
    split; [now apply hasCut_enabled|]. split; [exact Hn|]. split; [exact Hs|]. split.
    + intros d Hlt Hd Hflag. apply Hn. left. exists (index p), d.
      split; [lia|]. now split.
    + intros d _ _ Hno. now apply Hf.
  - vm_compute. repeat split; congruence.
Qed.

Lemma atomicLoop_id_inj (i j : nat) (p q p' q' : Peak) :
  atomicLoop i p q = atomicLoop j p' q' -> i = j.
Proof.
  intros H. apply (f_equal id) in H. simpl in H. congruence.
Qed.

Lemma atomicLoops_pair (config : AnalysisConfig) (data : list Sample) (peaks : list Peak)
      (loops : list DetectedLoop) (j : nat) (p q : Peak) :
  atomicLoops config data peaks = Ok loops ->
  nth_error peaks j = Some p -> nth_error peaks (S j) = Some q ->
  (In (atomicLoop j p q) loops <->
   candidate config data j p q = Ok (Some (atomicLoop j p q))).
Proof.
  intros H Hp Hq. unfold atomicLoops in H.
  rewrite (atomicFrom_In config data peaks 0 loops _ H). split.
  - intros (j' & p' & q' & Hp' & Hq' & Hc). simpl in Hc.
    pose proof Hc as Hc'. apply candidate_accepts in Hc'.
    destruct Hc' as (_ & _ & E). apply atomicLoop_id_inj in E. subst j'.
    assert (p' = p) by congruence. assert (q' = q) by congruence. now subst.
  - intros Hc. exists j, p, q. auto.
Qed.

(** C7 (amended).  For a consecutive peak pair with scene-cut detection
    disabled, or with no flagged sample at a position the scan visits (from
    the start peak's own index up to, but not including, the end peak's),
    the atomic loop of the pair is emitted if and only if
    minLoopDuration <= duration <= maxLoopDuration, where duration is
    endPeak.time - startPeak.time, the duration the emitted loop carries; a
    duration equal to minLoopDuration, or equal to maxLoopDuration, is
    accepted. *)
Theorem duration_bounds_inclusive (config : AnalysisConfig) (data : list Sample)
        (peaks : list Peak) (j : nat) (p q : Peak) :
  Forall (fun p => (index p <= length data)%nat) peaks ->
  nth_error peaks j = Some p -> nth_error peaks (S j) = Some q ->
  detectSceneChanges config = false \/ ~ flaggedIn data (index p) (index q) ->
  let d := time (sample q) - time (sample p) in
  exists loops,
    atomicLoops config data peaks = Ok loops /\
    ((exists l, In l loops /\ id l = AtomId j) <->
     minLoopDuration config <= d <= maxLoopDuration config) /\
    (forall l, In l loops -> id l = AtomId j ->
       l = atomicLoop j p q /\ duration l = d /\
       startTime l = time (sample p) /\ endTime l = time (sample q)) /\
    (d == minLoopDuration config ->
     minLoopDuration config <= maxLoopDuration config ->
     In (atomicLoop j p q) loops) /\
    (d == maxLoopDuration config ->
     minLoopDuration config <= maxLoopDuration config ->
     In (atomicLoop j p q) loops).
Proof.
  intros Hr Hp Hq Hclear d.
  destruct (atomicFrom_total config data peaks 0 Hr) as [loops Hl].
  exists loops. split; [exact Hl|].
  rewrite Forall_forall in Hr.
  assert (Hcut : hasCut config data p q = Ok false).
  { apply hasCut_clear; [apply Hr | apply Hr | exact Hclear];
      eapply nth_error_In; eassumption. }
  assert (Hiff : In (atomicLoop j p q) loops <->
                 minLoopDuration config <= d <= maxLoopDuration config).
  { rewrite (atomicLoops_pair config data peaks loops j p q Hl Hp Hq).
    rewrite candidate_accepts, inBounds_spec. unfold d, loopDuration. tauto. }
  assert (Hid : forall l, In l loops -> id l = AtomId j -> l = atomicLoop j p q).
  { intros l Hin Eid.
    unfold atomicLoops in Hl.
    apply (atomicFrom_In config data peaks 0 loops l Hl) in Hin.
    destruct Hin as (j' & p' & q' & Hp' & Hq' & Hc). simpl in Hc.
    apply candidate_accepts in Hc. destruct Hc as (_ & _ & ->).
    cbn [id atomicLoop] in Eid. injection Eid as ->.
    rewrite Hp in Hp'. rewrite Hq in Hq'. injection Hp' as <-. injection Hq' as <-.
    reflexivity. }
  split.
  { rewrite <- Hiff. split.
    - intros (l & Hin & Eid). now rewrite <- (Hid l Hin Eid).
    - intros Hin. exists (atomicLoop j p q). split; [exact Hin|reflexivity]. }
  split.
  { intros l Hin Eid. rewrite (Hid l Hin Eid). repeat split. }
  split; intros E Hmm; apply Hiff; rewrite E; split; lra.
Qed.

(** ** Reps and sets *)

Lemma lookup_last {A : Type} (l : list A) :
  l <> [] -> exists x, lookup l (length l - 1) = Ok x /\ In x l.
Proof.
  intros H. destruct (lookup_total l (length l - 1)) as [x Hx].
  - destruct l; [congruence|simpl; lia].
  - exists x. split; [exact Hx|]. apply lookup_Ok in Hx.
    eapply nth_error_In; eassumption.
Qed.

Lemma mergeSet_total (stamp : Z) (loops : list DetectedLoop) :
  loops <> [] ->
  exists m, mergeSet stamp loops = Ok m /\ repCount m = length loops.
Proof.
  intros H. unfold mergeSet.
  destruct (lookup_last loops H) as [last [-> _]].
  destruct loops as [|first rest]; [congruence|]. simpl. eauto.
Qed.

Lemma gapScan_total (data : list Sample) (k : Z) (n : nat) (found : bool) :
  (0 <= k)%Z -> n = 0%nat \/ (k + Z.of_nat n <= Z.of_nat (length data))%Z ->
  exists b, gapScan data k n found = Ok b.
Proof.
  revert k found. induction n as [|n IH]; intros k found H0 H1; simpl; [eauto|].
  destruct H1 as [H1|H1]; [discriminate|].
  unfold lookupZ. destruct (k <? 0)%Z eqn:E; [apply Z.ltb_lt in E; lia|].
  destruct (lookup_total data (Z.to_nat k)) as [d ->]; [lia|]. simpl.
  apply IH; lia.
Qed.

Lemma Qfloor_nonneg (x : Q) : 0 <= x -> (0 <= Qfloor x)%Z.
Proof.
  intros H. change 0%Z with (Qfloor 0). now apply Qfloor_resp_le.
Qed.

Lemma gapHasCut_total (config : AnalysisConfig) (data : list Sample)
      (prev curr : DetectedLoop) :
  0 <= samplingRate config -> 0 <= endTime prev ->
  exists b, gapHasCut config data prev curr = Ok b.
Proof.
  intros Hf He. unfold gapHasCut. destruct (detectSceneChanges config); [|eauto].
  apply gapScan_total.
  - apply Qfloor_nonneg. apply Qmult_le_0_compat; assumption.
  - cbv zeta. lia.
Qed.

Lemma setsWalk_partition (config : AnalysisConfig) (now : nat -> Z) (data : list Sample)
      (rest currentSet finalLoops : list DetectedLoop) :
  0 <= samplingRate config ->
  currentSet <> [] ->
  Forall (fun l => 0 <= endTime l) currentSet ->
  Forall (fun l => 0 <= endTime l) rest ->
  exists units,
    setsWalk config now data rest currentSet finalLoops = Ok units /\
    (length finalLoops < length units <= length finalLoops + 1 + length rest)%nat /\
    list_sum (map repCount units)
    = (list_sum (map repCount finalLoops) + length currentSet + length rest)%nat.
Proof.
  intros Hf. revert currentSet finalLoops.
  induction rest as [|curr rest IH]; intros currentSet finalLoops Hne Hcur Hrest.
  - cbn [setsWalk].
    destruct (mergeSet_total (now (length finalLoops)) currentSet Hne) as [m [-> Hm]].
    cbn [bind]. eexists. split; [reflexivity|].
    rewrite length_app, map_app, list_sum_app. simpl. rewrite Hm. lia.
  - cbn [setsWalk].
    destruct (lookup_last currentSet Hne) as [prev [-> Hin]]. cbn [bind].
    rewrite Forall_forall in Hcur.
    destruct (gapHasCut_total config data prev curr Hf (Hcur prev Hin)) as [cut ->].
    cbn [bind]. inversion Hrest as [|? ? Hc Hrest']; subst.
    destruct (Qltb _ _ && negb cut).
    + destruct (IH (currentSet ++ [curr]) finalLoops) as [units [E [Hl Hs]]].
      * intros N. apply app_eq_nil in N. destruct N; discriminate.
      * apply Forall_app. split; [now apply Forall_forall|]. now constructor.
      * exact Hrest'.
      * exists units. split; [exact E|]. rewrite length_app in Hs. simpl in *. lia.
    + destruct (mergeSet_total (now (length finalLoops)) currentSet Hne) as [m [-> Hm]].
      cbn [bind].
      destruct (IH [curr] (finalLoops ++ [m])) as [units [E [Hl Hs]]].
      * discriminate.
      * now constructor.
      * exact Hrest'.
      * exists units. split; [exact E|].
        rewrite length_app in Hl. rewrite map_app, list_sum_app in Hs.
        simpl in *. rewrite Hm in Hs. lia.
Qed.

Lemma setsStage_partition (config : AnalysisConfig) (now : nat -> Z) (data : list Sample)
      (atomic : list DetectedLoop) :
  0 <= samplingRate config ->
  Forall (fun l => 0 <= endTime l) atomic ->
  exists units,
    setsStage config now data atomic = Ok units /\
    (length units <= length atomic)%nat /\
    list_sum (map repCount units) = length atomic.
Proof.
  intros Hf H. destruct atomic as [|first rest]; [exists []; simpl; auto|].
  inversion H as [|? ? H1 Hrest]; subst.
  destruct (setsWalk_partition config now data rest [first] [] Hf) as [units [E [Hl Hs]]].
  - discriminate.
  - now constructor.
  - exact Hrest.
  - exists units. split; [exact E|]. simpl in *. lia.
Qed.

Lemma repsStage_length (now : nat -> Z) (atomic : list DetectedLoop) :
  length (repsStage now atomic) = length atomic.
Proof.
  apply mapiFrom_length.
Qed.

Lemma repsStage_repCount (now : nat -> Z) (atomic : list DetectedLoop) :
  map repCount (repsStage now atomic) = map repCount atomic.
Proof.
  apply mapiFrom_map. reflexivity.
Qed.

Lemma setsWalk_groups (config : AnalysisConfig) (now : nat -> Z) (data : list Sample)
      (rest currentSet finalLoops units : list DetectedLoop) :
  setsWalk config now data rest currentSet finalLoops = Ok units ->
  exists groups closed,
    units = finalLoops ++ closed /\
    concat groups = currentSet ++ rest /\
    Forall2 mergedFrom groups closed.
Proof.
  revert currentSet finalLoops.
  induction rest as [|curr rest IH]; intros currentSet finalLoops H; cbn [setsWalk] in H.
  - destruct (mergeSet (now (length finalLoops)) currentSet) as [m|] eqn:Em;
      [|discriminate].
    cbn [bind] in H. injection H as <-.
    exists [currentSet], [m]. split; [reflexivity|]. split.
    + simpl. reflexivity.
    + constructor; [|constructor]. now exists (now (length finalLoops)).
  - destruct (lookup currentSet (length currentSet - 1)) as [prev|]; [|discriminate].
    cbn [bind] in H.
    destruct (gapHasCut config data prev curr) as [cut|]; [|discriminate].
    cbn [bind] in H. destruct (Qltb _ _ && negb cut).
    + destruct (IH _ _ H) as (groups & closed & Eu & Ec & Hm).
      exists groups, closed. split; [exact Eu|]. split; [|exact Hm].
      rewrite Ec, <- app_assoc. reflexivity.
    + destruct (mergeSet (now (length finalLoops)) currentSet) as [m|] eqn:Em;
        [|discriminate].
      cbn [bind] in H. destruct (IH _ _ H) as (groups & closed & Eu & Ec & Hm).
      exists (currentSet :: groups), (m :: closed). split; [|split].
      * rewrite Eu, <- app_assoc. reflexivity.
      * simpl. rewrite Ec. reflexivity.
      * constructor; [|exact Hm]. now exists (now (length finalLoops)).
Qed.

Lemma setsStage_groups (config : AnalysisConfig) (now : nat -> Z) (data : list Sample)
      (atomic units : list DetectedLoop) :
  setsStage config now data atomic = Ok units ->
  exists groups, concat groups = atomic /\ Forall2 mergedFrom groups units.
Proof.
  intros H. destruct atomic as [|first rest].
  - injection H as <-. exists []. split; [reflexivity|constructor].
  - apply setsWalk_groups in H. destruct H as (groups & closed & Eu & Ec & Hm).
    exists groups. simpl in Eu. subst units. split; assumption.
Qed.

(** C8.  For a list of N atomic loops (each one repetition, ending at a
    non-negative instant), reps mode yields exactly N final units, each with
    repCount = 1, and sets mode yields at most N final units whose repCount
    values sum to N: the units are the merges of consecutive groups that
    together make up the list of atomic loops, in order. *)
Theorem reps_sets_duality (config : AnalysisConfig) (now : nat -> Z) (data : list Sample)
        (atomic : list DetectedLoop) :
  Forall atomicWf atomic ->
  0 <= samplingRate config ->
  (length (repsStage now atomic) = length atomic /\
   Forall (fun u => repCount u = 1%nat) (repsStage now atomic)) /\
  (exists units,
     setsStage config now data atomic = Ok units /\
     (length units <= length atomic)%nat /\
     list_sum (map repCount units) = length atomic /\
     exists groups, concat groups = atomic /\ Forall2 mergedFrom groups units).
Proof.
  intros Hwf Hf. split; [split|].
  - apply repsStage_length.
  - apply (Forall_by_map repCount (fun n => n = 1%nat) _ _ (repsStage_repCount now atomic)).
    weaken_forall Hwf.
  - destruct (setsStage_partition config now data atomic Hf) as (units & E & Hl & Hs).
    { weaken_forall Hwf. }
    exists units. repeat split; try assumption.
    now apply (setsStage_groups config now data).
Qed.

(** ** The whole pipeline raises no exception *)

Lemma detrended_time (config : AnalysisConfig) (combinedData : list Sample) :
  map time (detrend config (fuse config combinedData)) = map time combinedData.
Proof.
  now rewrite detrend_time, fuse_time.
Qed.

Lemma peaksOf_sound (config : AnalysisConfig) (detrendedData : list Sample) :
  Forall (fun d => 0 <= time d) detrendedData ->
  Forall (fun p => (index p <= length detrendedData)%nat /\ 0 <= time (sample p))
         (peaksOf config detrendedData).
Proof.
  intros H. apply Forall_forall. intros p Hp. unfold peaksOf in Hp.
  apply findPeaks_index in Hp. destruct Hp as [[_ Hlt] Hn].
  rewrite smooth_length in Hlt. split; [lia|].
  assert (Hs : Forall (fun d => 0 <= time d) (smooth config detrendedData)).
  { exact (Forall_by_map time (fun t => 0 <= t) _ _ (smooth_time config detrendedData) H). }
  rewrite Forall_forall in Hs. apply Hs. eapply nth_error_In; eassumption.
Qed.

Lemma atomicLoops_wf (config : AnalysisConfig) (data : list Sample) (peaks : list Peak)
      (atomic : list DetectedLoop) :
  Forall (fun p => 0 <= time (sample p)) peaks ->
  atomicLoops config data peaks = Ok atomic ->
  Forall atomicWf atomic.
Proof.
  intros Ht H. apply Forall_forall. intros l Hl.
  apply (atomicFrom_In config data peaks 0 atomic l H) in Hl.
  destruct Hl as (j & p & q & _ & Hq & Hc).
  apply candidate_accepts in Hc. destruct Hc as (_ & _ & ->).
  split; [reflexivity|]. simpl. rewrite Forall_forall in Ht. apply Ht.
  eapply nth_error_In; eassumption.
Qed.

Lemma finalProcessing_total (config : AnalysisConfig) (now : nat -> Z) (data : list Sample)
      (atomic : list DetectedLoop) :
  0 <= samplingRate config -> Forall atomicWf atomic ->
  exists finalLoops, finalProcessing config now data atomic = Ok finalLoops.
Proof.
  intros Hf Hwf. unfold finalProcessing. destruct (detectionMode config); [eauto|].
  destruct (setsStage_partition config now data atomic Hf) as [units [E _]]; [|eauto].
  weaken_forall Hwf.
Qed.

Lemma loopsOf_total (env : Env) (config : AnalysisConfig) (detrendedData : list Sample) :
  0 <= samplingRate config ->
  Forall (fun d => 0 <= time d) detrendedData ->
  exists finalLoops, loopsOf env config detrendedData = Ok finalLoops.
Proof.
  intros Hf Ht. unfold loopsOf.
  pose proof (peaksOf_sound config detrendedData Ht) as Hp.
  destruct (atomicFrom_total config detrendedData (peaksOf config detrendedData) 0)
    as [atomic Ha].
  { weaken_forall Hp. }
  unfold atomicLoops. rewrite Ha. cbn [bind].
  apply finalProcessing_total; [exact Hf|].
  apply (atomicLoops_wf config detrendedData (peaksOf config detrendedData)); [|exact Ha].
  weaken_forall Hp.
Qed.

(** ** The extraction loop *)

Lemma interval_pos (config : AnalysisConfig) :
  0 < samplingRate config -> 0 < interval config.
Proof.
  intros H. unfold interval, fps, Qdiv. rewrite Qmult_1_l.
  now apply Qinv_lt_0_compat.
Qed.

Lemma sampleAt_fields (sqrt : Q -> Q) (env : Env) (config : AnalysisConfig)
      (audioBuffer : option AudioBuffer) (t : Q) :
  let tick := sampleAt sqrt env config audioBuffer t in
  time (fst tick) = t /\
  snd tick = t / videoDuration env * 100 /\
  Raw.a (_raw (fst tick)) = getAudioRMS sqrt audioBuffer t (interval config).
Proof.
  unfold sampleAt. destruct (captureFrame env t) as [vScore variance]. simpl. auto.
Qed.

Lemma sampleLoop_ticks (sqrt : Q -> Q) (env : Env) (config : AnalysisConfig)
      (audioBuffer : option AudioBuffer) (fuel : nat) (t : Q)
      (ticks : list (Sample * Q)) :
  0 <= interval config -> 0 <= t ->
  sampleLoop sqrt env config fuel audioBuffer t = Some ticks ->
  Forall (fun tick =>
            (t <= time (fst tick) /\ time (fst tick) < videoDuration env) /\
            snd tick = time (fst tick) / videoDuration env * 100 /\
            Raw.a (_raw (fst tick))
            = getAudioRMS sqrt audioBuffer (time (fst tick)) (interval config)) ticks.
Proof.
  intros Hi. revert t ticks. induction fuel as [|fuel IH]; intros t ticks Ht H;
    [discriminate|].
  cbn [sampleLoop] in H. destruct (Qltb t (videoDuration env)) eqn:E.
  - destruct (sampleLoop sqrt env config fuel audioBuffer (t + interval config))
      as [more|] eqn:Em; [|discriminate].
    injection H as <-. apply Qltb_lt in E. constructor.
    + destruct (sampleAt_fields sqrt env config audioBuffer t) as (E1 & E2 & E3).
      rewrite E1. repeat split; try assumption; lra.
    + assert (Ht' : 0 <= t + interval config) by lra.
      specialize (IH _ _ Ht' Em). eapply Forall_impl; [|exact IH].
      intros tick [[H1 H2] H3]. repeat split; try apply H3; try assumption. lra.
  - injection H as <-. constructor.
Qed.

Lemma sampleLoop_step (sqrt : Q -> Q) (env : Env) (config : AnalysisConfig)
      (audioBuffer : option AudioBuffer) (fuel : nat) (t : Q) :
  sampleLoop sqrt env config (S fuel) audioBuffer t
  = if Qltb t (videoDuration env) then
      match sampleLoop sqrt env config fuel audioBuffer (t + interval config) with
      | Some more => Some (sampleAt sqrt env config audioBuffer t :: more)
      | None => None
      end
    else Some [].
Proof.
  reflexivity.
Qed.

Lemma sampleLoop_enough (sqrt : Q -> Q) (env : Env) (config : AnalysisConfig)
      (audioBuffer : option AudioBuffer) (n : nat) (t : Q) :
  videoDuration env - t <= ofNat n * interval config ->
  exists ticks, sampleLoop sqrt env config (S n) audioBuffer t = Some ticks.
Proof.
  revert t. induction n as [|n IH]; intros t H; rewrite sampleLoop_step.
  - destruct (Qltb t (videoDuration env)) eqn:E; [|eauto].
    apply Qltb_lt in E. change (ofNat 0) with 0 in H. lra.
  - destruct (Qltb t (videoDuration env)) eqn:E; [|eauto].
    destruct (IH (t + interval config)) as [more Hm].
    + rewrite ofNat_succ in H. lra.
    + rewrite Hm. eauto.
Qed.

Lemma enough_fuel (d i : Q) :
  0 < i -> d <= ofNat (Z.to_nat (Qceiling (d / i))) * i.
Proof.
  intros Hi. set (n := Z.to_nat (Qceiling (d / i))).
  assert (Hc : d / i <= ofNat n).
  { eapply Qle_trans; [apply Qle_ceiling|]. unfold ofNat, n. rewrite <- Zle_Qle. lia. }
  assert (E : d == d / i * i) by (field; lra).
  rewrite E at 1. apply Qmult_le_compat_r; [exact Hc|lra].
Qed.

Lemma sampleLoop_terminates (sqrt : Q -> Q) (env : Env) (config : AnalysisConfig)
      (audioBuffer : option AudioBuffer) :
  0 < samplingRate config ->
  exists fuel ticks, sampleLoop sqrt env config fuel audioBuffer 0 = Some ticks.
Proof.
  intros H. pose proof (interval_pos config H) as Hi.
  eexists. apply sampleLoop_enough.
  pose proof (enough_fuel (videoDuration env) (interval config) Hi) as Hn.
  assert (E : videoDuration env - 0 == videoDuration env) by ring.
  rewrite E. exact Hn.
Qed.

(** ** The run *)

Lemma sampled_times_nonneg (sqrt : Q -> Q) (env : Env) (config : AnalysisConfig)
      (audioBuffer : option AudioBuffer) (fuel : nat) (ticks : list (Sample * Q)) :
  0 < samplingRate config ->
  sampleLoop sqrt env config fuel audioBuffer 0 = Some ticks ->
  Forall (fun d => 0 <= time d) (map fst ticks).
Proof.
  intros Hf H. apply Forall_map.
  pose proof (interval_pos config Hf) as Hi.
  assert (Hi' : 0 <= interval config) by lra.
  pose proof (sampleLoop_ticks sqrt env config audioBuffer fuel 0 ticks Hi'
                (Qle_refl 0) H) as Ht.
  eapply Forall_impl; [|exact Ht]. intros tick [[H0 _] _]. exact H0.
Qed.

Lemma startAnalysis_completes (sqrt : Q -> Q) (env : Env) (config : AnalysisConfig) :
  hasVideo env = true -> hasCanvas env = true -> hasFile env = true ->
  hasContext env = true ->
  0 < samplingRate config ->
  exists fuel ticks finalLoops,
    sampleLoop sqrt env config fuel (fst (audioSetup env config)) 0 = Some ticks /\
    loopsOf env config (detrend config (fuse config (map fst ticks))) = Ok finalLoops /\
    startAnalysis sqrt env config fuel = Some (completedRun env config ticks finalLoops).
Proof.
  intros Hv Hc Hfile Hctx Hf.
  destruct (sampleLoop_terminates sqrt env config (fst (audioSetup env config)) Hf)
    as (fuel & ticks & Hs).
  destruct (loopsOf_total env config (detrend config (fuse config (map fst ticks))))
    as [finalLoops Hl].
  { lra. }
  { apply (Forall_by_map time (fun t => 0 <= t) _ _ (detrended_time config _)).
    exact (sampled_times_nonneg sqrt env config _ fuel ticks Hf Hs). }
  exists fuel, ticks, finalLoops. split; [exact Hs|]. split; [exact Hl|].
  unfold startAnalysis, completedRun. rewrite Hv, Hc, Hfile, Hctx. cbn [negb orb].
  destruct (audioSetup env config) as [audioBuffer audioLog]. cbn [fst snd] in *.
  rewrite Hs. unfold postProcessing. rewrite Hl. reflexivity.
Qed.

Lemma audioSetup_unavailable (env : Env) (config : AnalysisConfig) :
  decodeAudio env = None \/ audioWeight config <= 0 ->
  audioSetup env config
  = (None, if Qltb 0 (audioWeight config)
           then [AddLog info MsgDecodingAudio; AddLog warn MsgAudioFailed] else []).
Proof.
  intros H. unfold audioSetup. destruct (Qltb 0 (audioWeight config)) eqn:E; [|reflexivity].
  apply Qltb_lt in E. destruct H as [-> | H]; [reflexivity|lra].
Qed.

Lemma completedRun_no_error (env : Env) (config : AnalysisConfig)
      (ticks : list (Sample * Q)) (finalLoops : list DetectedLoop) (m : Message) :
  ~ In (AddLog error m) (completedRun env config ticks finalLoops).
Proof.
  unfold completedRun. rewrite !in_app_iff. intros [H|[H|[H|[H|H]]]].
  - simpl in H. destruct H as [H|[H|[]]]; discriminate.
  - unfold audioSetup in H. destruct (Qltb 0 (audioWeight config)); [|destruct H].
    destruct (decodeAudio env); simpl in H; destruct H as [H|[H|[]]]; discriminate.
  - apply in_map_iff in H. destruct H as [tick [H _]]. discriminate.
  - destruct (ignoreSteadyMotion config); simpl in H; [destruct H as [H|[]]|destruct H].
    discriminate.
  - simpl in H. destruct H as [H|[H|[H|[H|[]]]]]; discriminate.
Qed.

(** C9.  When decoding the audio track fails, or no audio buffer is
    requested, the run has no audio buffer, the failed decode is logged as a
    warning, every sample's audio score is 0, and the run goes through every
    stage to the success log and the return to READY without logging an
    error: the sampling loop terminates and no stage raises. *)
Theorem audio_failure_degrades (sqrt : Q -> Q) (env : Env) (config : AnalysisConfig) :
  hasVideo env = true -> hasCanvas env = true -> hasFile env = true ->
  hasContext env = true ->
  0 < samplingRate config ->
  decodeAudio env = None \/ audioWeight config <= 0 ->
  audioSetup env config
  = (None, if Qltb 0 (audioWeight config)
           then [AddLog info MsgDecodingAudio; AddLog warn MsgAudioFailed] else []) /\
  exists fuel ticks finalLoops,
    sampleLoop sqrt env config fuel None 0 = Some ticks /\
    Forall (fun tick => Raw.a (_raw (fst tick)) = 0) ticks /\
    loopsOf env config (detrend config (fuse config (map fst ticks))) = Ok finalLoops /\
    startAnalysis sqrt env config fuel = Some (completedRun env config ticks finalLoops) /\
    (forall m, ~ In (AddLog error m) (completedRun env config ticks finalLoops)).
Proof.
  intros Hv Hc Hfile Hctx Hf Hno.
  pose proof (audioSetup_unavailable env config Hno) as Ea.
  split; [exact Ea|].
  destruct (startAnalysis_completes sqrt env config Hv Hc Hfile Hctx Hf)
    as (fuel & ticks & finalLoops & Hs & Hl & Hrun).
  rewrite Ea in Hs. cbn [fst] in Hs.
  exists fuel, ticks, finalLoops. split; [exact Hs|]. split.
  - pose proof (interval_pos config Hf) as Hi.
    assert (Hi' : 0 <= interval config) by lra.
    pose proof (sampleLoop_ticks sqrt env config None fuel 0 ticks Hi' (Qle_refl 0) Hs)
      as Ht.
    eapply Forall_impl; [|exact Ht]. intros tick [_ [_ E]]. rewrite E. reflexivity.
  - split; [exact Hl|]. split; [exact Hrun|].
    intros m. apply completedRun_no_error.
Qed.








(** ** The set-merge gap rule on the three loops *)

(** C3 (amended).  In sets mode with scene-cut detection disabled, on the
    atomic loops spanning [0, 1], [1.2, 2.1] and [5.0, 5.9]: the gap 0.2
    between the first two is below max(2.0, 1.0 * 3.0) = 3.0, so the second
    loop joins the first loop's group; the gap 2.9 between the second and the
    third is not below max(2.0, 0.9 * 3.0) = 2.7, so the third loop starts a
    new group.  The result is a set of 2 repetitions spanning [0, 2.1] and a
    set of 1 repetition spanning [5.0, 5.9]. *)
Theorem gap_rule_on_three_loops :
  let config := exampleConfig false sets 40 in
  match threeLoops with
  | [l1; l2; l3] =>
      (startTime l2 - endTime l1 == 2 # 10 /\
       Qmax 2 (duration l1 * 3) == 3 /\
       startTime l2 - endTime l1 < Qmax 2 (duration l1 * 3)) /\
      (startTime l3 - endTime l2 == 29 # 10 /\
       Qmax 2 (duration l2 * 3) == 27 # 10 /\
       ~ startTime l3 - endTime l2 < Qmax 2 (duration l2 * 3)) /\
      match setsStage config (fun _ => 0%Z) [] threeLoops with
      | Ok [s1; s2] =>
          (repCount s1 = 2%nat /\ startTime s1 == 0 /\ endTime s1 == 21 # 10) /\
          (repCount s2 = 1%nat /\ startTime s2 == 5 /\ endTime s2 == 59 # 10)
      | _ => False
      end
  | _ => False
  end.
Proof.
  vm_compute. repeat split; try discriminate; intros H; discriminate H.
Qed.

(** C3, as stated, fails.  The third loop does not merge into the group of
    the first two: its gap test 2.9 < max(2.0, 2.7) is false, and sets mode
    returns two units, with 2 and 1 repetitions, not one unit with 3. *)
Lemma third_loop_starts_a_new_set :
  let config := exampleConfig false sets 40 in
  Qltb (5 - (21 # 10)) (Qmax 2 (((21 # 10) - (12 # 10)) * 3)) = false /\
  match setsStage config (fun _ => 0%Z) [] threeLoops with
  | Ok units => map repCount units = [2; 1]%nat /\ map repCount units <> [3%nat]
  | Throw => False
  end.
Proof.
  vm_compute. repeat split. discriminate.
Qed.

(** ** Scene cut on the start peak *)

(** C1, as stated, fails.  In the run on [cutOnStartPeak] the peaks are at
    indices 2 and 7 and the only flagged sample is the one at index 2, the
    start peak itself: no flagged sample lies strictly between the peaks and
    the duration 2.5 is within bounds, yet the pair is rejected and the run
    finds no loop.  With detection disabled the same pair is emitted. *)
Lemma cut_on_start_peak_rejects :
  let config := exampleConfig true reps 10 in
  let data := detrend config (fuse config (samplesOf cutOnStartPeak)) in
  map isSceneCut data
  = [false; false; true; false; false; false; false; false; false; false; false] /\
  match findPeaks config (smooth config data) with
  | [p; q] =>
      index p = 2%nat /\ index q = 7%nat /\
      flaggedStrictlyBetween data p q = false /\
      inBounds config (loopDuration p q) = true /\
      candidate config data 0 p q = Ok None /\
      atomicLoops config data [p; q] = Ok [] /\
      (exists l, atomicLoops (exampleConfig false reps 10) data [p; q] = Ok [l])
  | _ => False
  end.
Proof.
  vm_compute. repeat split. eexists. reflexivity.
Qed.

(** C7, as stated, fails on the same run.  With detection enabled nothing
    is flagged between the two peaks and the duration 2.5 lies within
    [0.5, 5], yet no atomic loop is emitted: the flag on the start peak's
    own index, which the scan visits, rejects the pair. *)
Lemma flagged_start_peak_blocks_in_bounds_pair :
  let config := exampleConfig true reps 10 in
  let data := detrend config (fuse config (samplesOf cutOnStartPeak)) in
  let peaks := peaksOf config data in
  let p := nth 0 peaks (peakAt 0 0) in
  let q := nth 1 peaks (peakAt 0 0) in
  peaks = [p; q] /\
  flaggedStrictlyBetween data p q = false /\
  time (sample q) - time (sample p) == 5 # 2 /\
  minLoopDuration config <= time (sample q) - time (sample p) <= maxLoopDuration config /\
  atomicLoops config data peaks = Ok [] /\
  ~ ((exists loops l, atomicLoops config data peaks = Ok loops /\ In l loops) <->
     minLoopDuration config <= time (sample q) - time (sample p)
     <= maxLoopDuration config).
Proof.
  intros config data peaks p q.
  assert (Hb : minLoopDuration config <= time (sample q) - time (sample p)
               <= maxLoopDuration config)
    by (split; vm_compute; discriminate).
  assert (Hnone : atomicLoops config data peaks = Ok []) by (vm_compute; reflexivity).
  split; [vm_compute; reflexivity|]. split; [vm_compute; reflexivity|].
  split; [vm_compute; reflexivity|]. split; [exact Hb|]. split; [exact Hnone|].
  intros [_ H]. destruct (H Hb) as (loops & l & Hl & Hin).
  rewrite Hnone in Hl. injection Hl as <-. contradiction.
Qed.

(** ** Smoothing window *)

Lemma smooth_unfold (config : AnalysisConfig) (data : list Sample) :
  smooth config data
  = mapi (fun i d => withValue d (windowMean data i (windowSize config))) data.
Proof.
  reflexivity.
Qed.

(** C10.  With smoothingWindow = 0 the smoothing stage averages over the
    half-width 2 window, exactly as with smoothingWindow = 2: on the signal
    0, 3, 0 every smoothed value is 1, where a half-width of 0 would leave
    the signal unchanged.  For every smoothingWindow > 0 the configured value
    is the half-width. *)
Theorem zero_smoothing_window_defaults (config : AnalysisConfig) (data : list Sample) :
  (windowSize (withSmoothingWindow config 0) = 2%Z /\
   smooth (withSmoothingWindow config 0) data
   = mapi (fun i d => withValue d (windowMean data i 2)) data /\
   smooth (withSmoothingWindow config 0) data
   = smooth (withSmoothingWindow config 2) data) /\
  (forall w, (0 < w)%Z ->
     windowSize (withSmoothingWindow config w) = w /\
     smooth (withSmoothingWindow config w) data
     = mapi (fun i d => withValue d (windowMean data i w)) data) /\
  (map (fun d => Qred (value d)) (smooth (withSmoothingWindow config 0) (signalOf [0; 3; 0]))
   = [1; 1; 1] /\
   Qred (windowMean (signalOf [0; 3; 0]) 1 0) = 3).
Proof.
  split; [|split].
  - split; [reflexivity|]. split; reflexivity.
  - intros w Hw.
    assert (E : windowSize (withSmoothingWindow config w) = w).
    { unfold windowSize. simpl. destruct (w =? 0)%Z eqn:Ew; [|reflexivity].
      apply Z.eqb_eq in Ew. lia. }
    split; [exact E|]. rewrite smooth_unfold, E. reflexivity.
  - split; vm_compute; reflexivity.
Qed.

(** ** The statements at concrete inputs *)

Lemma cutOnStartPeak_nonneg : Forall rawNonneg (samplesOf cutOnStartPeak).
Proof.
  repeat constructor; vm_compute; discriminate.
Defined.

Lemma normalization_bounded_witness :
  let config := exampleConfig true reps 40 in
  let data := samplesOf cutOnStartPeak in
  Forall rawNonneg data /\ 0 <= audioWeight config <= 100 /\
  Forall (fun p => 0 <= value p <= 255) (processedData config data).
Proof.
  intros config data.
  assert (Hw : 0 <= audioWeight config <= 100) by (split; vm_compute; discriminate).
  split; [exact cutOnStartPeak_nonneg|]. split; [exact Hw|].
  exact (proj2 (proj2 (normalization_bounded config data cutOnStartPeak_nonneg Hw))).
Defined.

Lemma peak_rule_witness :
  let config := exampleConfig true reps 10 in
  let smoothedData :=
    smooth config (detrend config (fuse config (samplesOf cutOnStartPeak))) in
  (exists p, In p (findPeaks config smoothedData) /\ index p = 2%nat) /\
  ~ (exists p, In p (findPeaks config smoothedData) /\ index p = 4%nat).
Proof.
  intros config smoothedData.
  destruct (peak_rule config smoothedData 2) as (_ & [_ Hyes] & _).
  destruct (peak_rule config smoothedData 4) as (_ & [Hno _] & _).
  split.
  - apply Hyes. split; [simpl; lia|].
    eexists. eexists. eexists. repeat split; try (vm_compute; reflexivity).
  - intros H. apply Hno in H. destruct H as (_ & a & c & b & Ha & Hc & Hb & G & _).
    vm_compute in Ha, Hc. injection Ha as <-. injection Hc as <-.
    vm_compute in G. discriminate.
Defined.

Lemma exampleConfig_valid (detect : bool) (mode : DetectionMode) (sens : Q) :
  validConfig (exampleConfig detect mode sens).
Proof.
  repeat split; vm_compute; discriminate.
Defined.

Lemma sensitivity_monotone_witness :
  let config := exampleConfig true reps 0 in
  let data := samplesOf cutOnStartPeak in
  let run s :=
    let config' := withSensitivity config s in
    smooth config' (detrend config' (fuse config' data)) in
  validConfig config /\ Forall rawNonneg data /\ 10 <= 40 /\
  (length (findPeaks (withSensitivity config 40%Q) (run 40%Q))
   <= length (findPeaks (withSensitivity config 10%Q) (run 10%Q)))%nat.
Proof.
  intros config data run.
  assert (Hs : 10 <= 40) by (vm_compute; discriminate).
  split; [exact (exampleConfig_valid true reps 0)|].
  split; [exact cutOnStartPeak_nonneg|]. split; [exact Hs|].
  exact (proj2 (proj2 (proj2
           (sensitivity_monotone config data 10 40 (exampleConfig_valid true reps 0)
              cutOnStartPeak_nonneg Hs)))).
Defined.

Lemma scene_cut_rejection_witness :
  let config := exampleConfig true reps 10 in
  let data := detrend config (fuse config (samplesOf cutOnStartPeak)) in
  let p := peakAt 1 2 in
  let q := peakAt (7 # 2) 7 in
  detectSceneChanges config = true /\
  (index p <= length data)%nat /\ (index q <= length data)%nat /\
  (hasCut config data p q = Ok true <-> flaggedIn data (index p) (index q)).
Proof.
  intros config data p q.
  assert (Hp : (index p <= length data)%nat) by (vm_compute; lia).
  assert (Hq : (index q <= length data)%nat) by (vm_compute; lia).
  split; [reflexivity|]. split; [exact Hp|]. split; [exact Hq|].
  exact (proj1 (proj1 scene_cut_rejection config data 0%nat p q eq_refl Hp Hq)).
Defined.

Lemma duration_bounds_inclusive_witness :
  let lower := boundsConfig (5 # 2) 5 in
  let upper := boundsConfig (1 # 2) (5 # 2) in
  let data := detrend lower (fuse lower (samplesOf threeBursts)) in
  let peaks := peaksOf lower data in
  let p := nth 0 peaks (peakAt 0 0) in
  let q := nth 1 peaks (peakAt 0 0) in
  Forall (fun p => (index p <= length data)%nat) peaks /\
  nth_error peaks 0 = Some p /\ nth_error peaks 1 = Some q /\
  (detectSceneChanges lower = false \/ ~ flaggedIn data (index p) (index q)) /\
  (detectSceneChanges upper = false \/ ~ flaggedIn data (index p) (index q)) /\
  time (sample q) - time (sample p) == minLoopDuration lower /\
  time (sample q) - time (sample p) == maxLoopDuration upper /\
  (exists loops,
     atomicLoops lower data peaks = Ok loops /\ In (atomicLoop 0 p q) loops) /\
  (exists loops,
     atomicLoops upper data peaks = Ok loops /\ In (atomicLoop 0 p q) loops) /\
  duration (atomicLoop 0 p q) == 5 # 2.
Proof.
  intros lower upper data peaks p q.
  assert (Hr : Forall (fun p => (index p <= length data)%nat) peaks)
    by (vm_compute; repeat constructor).
  assert (Hp : nth_error peaks 0 = Some p) by (vm_compute; reflexivity).
  assert (Hq : nth_error peaks 1 = Some q) by (vm_compute; reflexivity).
  assert (Hl : detectSceneChanges lower = false \/ ~ flaggedIn data (index p) (index q))
    by (left; reflexivity).
  assert (Hu : detectSceneChanges upper = false \/ ~ flaggedIn data (index p) (index q))
    by (left; reflexivity).
  assert (Emin : time (sample q) - time (sample p) == minLoopDuration lower)
    by (vm_compute; reflexivity).
  assert (Emax : time (sample q) - time (sample p) == maxLoopDuration upper)
    by (vm_compute; reflexivity).
  assert (Hlo : minLoopDuration lower <= maxLoopDuration lower)
    by (vm_compute; discriminate).
  assert (Hup : minLoopDuration upper <= maxLoopDuration upper)
    by (vm_compute; discriminate).
  split; [exact Hr|]. split; [exact Hp|]. split; [exact Hq|].
  split; [exact Hl|]. split; [exact Hu|]. split; [exact Emin|]. split; [exact Emax|].
  pose proof (duration_bounds_inclusive lower data peaks 0 p q Hr Hp Hq Hl) as H1.
  pose proof (duration_bounds_inclusive upper data peaks 0 p q Hr Hp Hq Hu) as H2.
  cbv zeta in H1, H2.
  destruct H1 as (loops1 & E1 & _ & Hfields & Hmin & _).
  destruct H2 as (loops2 & E2 & _ & _ & _ & Hmax).
  split; [exists loops1; split; [exact E1|exact (Hmin Emin Hlo)]|].
  split; [exists loops2; split; [exact E2|exact (Hmax Emax Hup)]|].
  destruct (Hfields (atomicLoop 0 p q) (Hmin Emin Hlo) eq_refl) as (_ & Ed & _).
  rewrite Ed. exact Emin.
Defined.

Lemma threeLoops_wf : Forall atomicWf threeLoops.
Proof.
  repeat constructor; vm_compute; discriminate.
Defined.

Lemma reps_sets_duality_witness :
  let config := exampleConfig false sets 40 in
  Forall atomicWf threeLoops /\ 0 <= samplingRate config /\
  length (repsStage (fun _ => 0%Z) threeLoops) = 3%nat /\
  exists units,
    setsStage config (fun _ => 0%Z) [] threeLoops = Ok units /\
    (length units <= 3)%nat /\ list_sum (map repCount units) = 3%nat.
Proof.
  intros config.
  assert (Hf : 0 <= samplingRate config) by (vm_compute; discriminate).
  split; [exact threeLoops_wf|]. split; [exact Hf|].
  destruct (reps_sets_duality config (fun _ => 0%Z) [] threeLoops threeLoops_wf Hf)
    as [[Hlen _] (units & E & Hl & Hs & _)].
  split; [exact Hlen|]. exists units. split; [exact E|]. split; [exact Hl|exact Hs].
Defined.

Lemma audio_failure_degrades_witness :
  let config := audioConfig in
  hasVideo shortClip = true /\ hasCanvas shortClip = true /\ hasFile shortClip = true /\
  hasContext shortClip = true /\ 0 < samplingRate config /\
  (decodeAudio shortClip = None \/ audioWeight config <= 0) /\
  0 < audioWeight config /\ decodeAudio shortClip = None /\
  audioSetup shortClip config
  = (None, [AddLog info MsgDecodingAudio; AddLog warn MsgAudioFailed]) /\
  exists fuel ticks finalLoops,
    sampleLoop unusedSqrt shortClip config fuel None 0 = Some ticks /\
    Forall (fun tick => Raw.a (_raw (fst tick)) = 0) ticks /\
    loopsOf shortClip config (detrend config (fuse config (map fst ticks))) = Ok finalLoops /\
    startAnalysis unusedSqrt shortClip config fuel
    = Some (completedRun shortClip config ticks finalLoops) /\
    In (AddLog warn MsgAudioFailed) (completedRun shortClip config ticks finalLoops) /\
    (forall m, ~ In (AddLog error m) (completedRun shortClip config ticks finalLoops)).
Proof.
  intros config.
  assert (Hf : 0 < samplingRate config) by (vm_compute; reflexivity).
  assert (Hno : decodeAudio shortClip = None \/ audioWeight config <= 0)
    by (left; reflexivity).
  assert (Hw : 0 < audioWeight config) by (vm_compute; reflexivity).
  do 4 (split; [reflexivity|]). split; [exact Hf|]. split; [exact Hno|].
  split; [exact Hw|]. split; [reflexivity|].
  destruct (audio_failure_degrades unusedSqrt shortClip config
              eq_refl eq_refl eq_refl eq_refl Hf Hno)
    as [Hsetup (fuel & ticks & finalLoops & Hs & Ha & Hl & Hrun & Herr)].
  split; [exact Hsetup|].
  exists fuel, ticks, finalLoops. split; [exact Hs|]. split; [exact Ha|].
  split; [exact Hl|]. split; [exact Hrun|]. split; [|exact Herr].
  unfold completedRun. rewrite Hsetup. cbn [snd app]. right. right. right. now left.
Defined.


Lemma zero_smoothing_window_defaults_witness :
  let config := exampleConfig false reps 40 in
  (0 < 3)%Z /\ windowSize (withSmoothingWindow config 3) = 3%Z.
Proof.
  intros config.
  assert (H : (0 < 3)%Z) by lia.
  split; [exact H|].
  exact (proj1 (proj1 (proj2 (zero_smoothing_window_defaults config [])) 3%Z H)).
Defined.

(** * Further properties of the component *)

(** ** The instants of the extraction loop *)

Lemma Qltb_false (x y : Q) : Qltb x y = false <-> y <= x.
Proof.
  unfold Qltb. rewrite negb_false_iff. apply Qle_bool_iff.
Qed.

Lemma sampleLoop_nth (sqrt : Q -> Q) (env : Env) (config : AnalysisConfig)
      (audioBuffer : option AudioBuffer) (fuel : nat) (t : Q)
      (ticks : list (Sample * Q)) (i : nat) (tick : Sample * Q) :
  sampleLoop sqrt env config fuel audioBuffer t = Some ticks ->
  nth_error ticks i = Some tick ->
  time (fst tick) == t + ofNat i * interval config.
Proof.
  revert t ticks i. induction fuel as [|fuel IH]; intros t ticks i H Hi; [discriminate|].
  rewrite sampleLoop_step in H. destruct (Qltb t (videoDuration env)).
  - destruct (sampleLoop sqrt env config fuel audioBuffer (t + interval config))
      as [more|] eqn:Em; [|discriminate].
    injection H as <-. destruct i as [|i]; simpl in Hi.
    + injection Hi as <-.
      destruct (sampleAt_fields sqrt env config audioBuffer t) as (E & _).
      rewrite E. change (ofNat 0) with 0. ring.
    + rewrite (IH _ _ _ Em Hi), ofNat_succ. ring.
  - injection H as <-. destruct i; discriminate.
Qed.

Lemma interval_times (config : AnalysisConfig) (x : Q) :
  0 < samplingRate config -> x * interval config == x / samplingRate config.
Proof.
  intros H. unfold interval, fps. field. lra.
Qed.

Lemma sampleLoop_chain (sqrt : Q -> Q) (env : Env) (config : AnalysisConfig)
      (audioBuffer : option AudioBuffer) (fuel : nat) (t : Q)
      (ticks : list (Sample * Q)) :
  sampleLoop sqrt env config fuel audioBuffer t = Some ticks ->
  (ticks = [] <-> videoDuration env <= t) /\
  (forall tick, nth_error ticks 0 = Some tick -> time (fst tick) = t) /\
  (forall i a b, nth_error ticks i = Some a -> nth_error ticks (S i) = Some b ->
                 time (fst b) = time (fst a) + interval config) /\
  (forall a, nth_error ticks (length ticks - 1) = Some a ->
             videoDuration env <= time (fst a) + interval config).
Proof.
  revert t ticks. induction fuel as [|fuel IH]; intros t ticks H; [discriminate|].
  rewrite sampleLoop_step in H. destruct (Qltb t (videoDuration env)) eqn:E.
  - destruct (sampleLoop sqrt env config fuel audioBuffer (t + interval config))
      as [more|] eqn:Em; [|discriminate].
    injection H as <-. destruct (IH _ _ Em) as (Hnil & Hhd & Hstep & Hlast).
    destruct (sampleAt_fields sqrt env config audioBuffer t) as (Et & _).
    apply Qltb_lt in E.
    split; [split; [discriminate|intros N; lra]|].
    split; [intros tick Hi; injection Hi as <-; exact Et|].
    split.
    + intros [|i] a b Ha Hb; simpl in Ha, Hb.
      * injection Ha as <-. rewrite Et. now apply Hhd.
      * now apply (Hstep i).
    + intros a Ha. destruct more as [|m more].
      * simpl in Ha. injection Ha as <-. rewrite Et.
        now apply (proj1 Hnil).
      * apply Hlast. simpl in Ha. simpl. rewrite Nat.sub_0_r in *. exact Ha.
  - injection H as <-. apply Qltb_false in E.
    split; [split; [intros _; exact E|reflexivity]|].
    split; [intros tick Hi; discriminate|].
    split; [intros [|i] a b Ha; discriminate|].
    intros a Ha. discriminate.
Qed.

(** X1.  The instants of the extraction loop.  A run takes no sample
    exactly when the duration is not positive; otherwise the first sample
    is taken at instant 0, each next instant is the previous one plus
    [interval] as the loop adds it, every instant lies in [0, duration), and
    the loop stops only when the last instant plus [interval] is no longer
    before the end: no instant is skipped or repeated. *)
Theorem sampling_instants (sqrt : Q -> Q) (env : Env) (config : AnalysisConfig)
        (audioBuffer : option AudioBuffer) (fuel : nat) (ticks : list (Sample * Q)) :
  0 < samplingRate config ->
  sampleLoop sqrt env config fuel audioBuffer 0 = Some ticks ->
  (ticks = [] <-> videoDuration env <= 0) /\
  (forall tick, nth_error ticks 0 = Some tick -> time (fst tick) = 0) /\
  (forall i a b, nth_error ticks i = Some a -> nth_error ticks (S i) = Some b ->
                 time (fst b) = time (fst a) + interval config) /\
  Forall (fun tick => 0 <= time (fst tick) < videoDuration env) ticks /\
  (forall a, nth_error ticks (length ticks - 1) = Some a ->
             videoDuration env <= time (fst a) + interval config).
Proof.
  intros Hf H.
  destruct (sampleLoop_chain _ _ _ _ _ _ _ H) as (Hnil & Hhd & Hstep & Hlast).
  split; [exact Hnil|]. split; [exact Hhd|]. split; [exact Hstep|].
  split; [|exact Hlast].
  pose proof (interval_pos config Hf) as Hp.
  assert (Hp' : 0 <= interval config) by lra.
  pose proof (sampleLoop_ticks sqrt env config audioBuffer fuel 0 ticks Hp'
                (Qle_refl 0) H) as Hall.
  eapply Forall_impl; [|exact Hall]. intros tick Ht. apply Ht.
Qed.

(** ** Peaks are isolated *)

Lemma peakScan_from (threshold : Q) (i : nat) (l : list Sample) :
  Forall (fun p => (i <= index p)%nat) (peakScan threshold i l).
Proof.
  apply Forall_forall. intros p Hp. apply peakScan_spec in Hp.
  destruct Hp as (j & _ & _ & Hi & _). rewrite Hi. apply Nat.le_add_r.
Qed.

Lemma peakScan_skip (threshold : Q) (i : nat) (a b : Sample) (rest : list Sample) :
  ~ value a < value b ->
  Forall (fun p => (S i <= index p)%nat) (peakScan threshold i (a :: b :: rest)).
Proof.
  intros Hn. apply Forall_forall. intros p Hp. apply peakScan_spec in Hp.
  destruct Hp as (j & prev & next & Hi & Ha & Hb & _ & Hs).
  destruct j as [|j]; [|lia]. simpl in Ha, Hb.
  injection Ha as <-. injection Hb as Hb. exfalso. apply Hn.
  destruct Hs as [Hs _]. now rewrite <- Hb in Hs.
Qed.

Lemma peakScan_spaced (threshold : Q) (i : nat) (l : list Sample) :
  StronglySorted spaced (peakScan threshold i l).
Proof.
  revert i. induction l as [|prev rest IH]; intros i; [constructor|].
  cbn [peakScan]. destruct rest as [|curr [|next rest']]; [constructor ..|].
  destruct (_ && _) eqn:G; simpl app; [|apply IH].
  apply peak_guard in G. destruct G as (_ & Hnext & _).
  constructor; [apply IH|].
  assert (Hn : ~ value curr < value next) by lra.
  pose proof (peakScan_skip threshold (S i) curr next rest' Hn) as Hs.
  eapply Forall_impl; [|exact Hs]. intros q Hq. unfold spaced. simpl in *. lia.
Qed.

Lemma spaced_count (r : list Peak) (lo hi : nat) :
  StronglySorted spaced r ->
  Forall (fun p => (lo <= index p <= hi)%nat) r ->
  (2 * length r <= hi + 2 - lo)%nat.
Proof.
  intros Hs. revert lo. induction Hs as [|x r Hr IH Hx]; intros lo Hb; [simpl; lia|].
  inversion Hb as [|? ? Hbx Hbr]; subst.
  assert (Hr' : Forall (fun p => (index x + 2 <= index p <= hi)%nat) r).
  { rewrite Forall_forall in *. intros p Hp. specialize (Hx p Hp). specialize (Hbr p Hp).
    unfold spaced in Hx. lia. }
  specialize (IH _ Hr'). simpl length. lia.
Qed.

(** X7.  Detected peaks are listed by increasing index and no two of them
    are adjacent: consecutive peaks are at least two samples apart, so a
    signal of n samples has at most (n - 1) / 2 peaks. *)
Theorem peaks_are_isolated (config : AnalysisConfig) (smoothedData : list Sample) :
  StronglySorted spaced (findPeaks config smoothedData) /\
  (2 * length (findPeaks config smoothedData) <= length smoothedData - 1)%nat.
Proof.
  split; [apply peakScan_spaced|].
  destruct (findPeaks config smoothedData) as [|p r] eqn:E; [simpl; lia|].
  assert (Hb : Forall (fun p => (1 <= index p <= length smoothedData - 2)%nat)
                      (findPeaks config smoothedData)).
  { apply Forall_forall. intros q Hq. apply findPeaks_index in Hq. lia. }
  pose proof (spaced_count _ 1 (length smoothedData - 2)
                (peakScan_spaced _ 1 smoothedData) Hb) as Hc.
  fold (findPeaks config smoothedData) in Hc. rewrite E in *.
  inversion Hb as [|? ? Hp _]; subst. lia.
Qed.

(** ** What atomic-loop generation emits *)

Lemma atomicFrom_length (config : AnalysisConfig) (data : list Sample) (peaks : list Peak)
      (i : nat) (loops : list DetectedLoop) :
  atomicFrom config data i peaks = Ok loops ->
  (length loops <= length peaks - 1)%nat.
Proof.
  revert i loops. induction peaks as [|p rest IH]; intros i loops H.
  - injection H as <-. simpl. lia.
  - cbn [atomicFrom] in H. destruct rest as [|q rest'].
    + injection H as <-. simpl. lia.
    + destruct (candidate config data i p q) as [c|]; [|discriminate].
      cbn [bind] in H.
      destruct (atomicFrom config data (S i) (q :: rest')) as [more|] eqn:Em;
        [|discriminate].
      cbn [bind] in H. injection H as <-. specialize (IH _ _ Em).
      destruct c; simpl in *; lia.
Qed.

Lemma atomicFrom_before (config : AnalysisConfig) (data : list Sample) (peaks : list Peak)
      (i : nat) (loops : list DetectedLoop) :
  StronglySorted notLater peaks ->
  atomicFrom config data i peaks = Ok loops ->
  StronglySorted before loops.
Proof.
  intros Hs. revert i loops. induction Hs as [|p rest Hrest IH Hp]; intros i loops H.
  - injection H as <-. constructor.
  - cbn [atomicFrom] in H. destruct rest as [|q rest'].
    + injection H as <-. constructor.
    + destruct (candidate config data i p q) as [c|] eqn:Ec; [|discriminate].
      cbn [bind] in H.
      destruct (atomicFrom config data (S i) (q :: rest')) as [more|] eqn:Em;
        [|discriminate].
      cbn [bind] in H. injection H as <-. specialize (IH _ _ Em).
      destruct c as [l|]; [|exact IH]. constructor; [exact IH|].
      apply candidate_accepts in Ec. destruct Ec as (_ & _ & ->).
      apply Forall_forall. intros l' Hl'.
      apply (atomicFrom_In config data (q :: rest') (S i) more l' Em) in Hl'.
      destruct Hl' as (j & a & b & Ha & _ & Hc).
      apply candidate_accepts in Hc. destruct Hc as (_ & _ & ->).
      unfold before. simpl.
      inversion Hrest as [|? ? _ Hq]; subst. rewrite Forall_forall in Hq.
      destruct j as [|j]; simpl in Ha.
      * injection Ha as <-. apply Qle_refl.
      * apply nth_error_In in Ha. apply (Hq a Ha).
Qed.

Lemma confidence_le_1 (i : nat) (p q : Peak) : confidence (atomicLoop i p q) <= 1.
Proof.
  simpl. apply Q.le_min_l.
Qed.

(** X8.  Atomic-loop generation on peaks that index into the data returns,
    and every loop it emits has a duration within
    [minLoopDuration, maxLoopDuration] equal to endTime - startTime, counts
    one repetition, has bpm = round(60 / duration), a confidence of at most 1
    and no label or thumbnail yet.  There are at most (number of peaks - 1)
    loops, and when the peaks are in time order the loops are too, each ending
    no later than the next one starts. *)
Theorem atomic_loops_sound (config : AnalysisConfig) (data : list Sample)
        (peaks : list Peak) :
  Forall (fun p => (index p <= length data)%nat) peaks ->
  exists atomic,
    atomicLoops config data peaks = Ok atomic /\
    Forall (fun l =>
              minLoopDuration config <= duration l <= maxLoopDuration config /\
              duration l = endTime l - startTime l /\
              repCount l = 1%nat /\
              bpm l = round (60 / duration l) /\
              confidence l <= 1 /\
              label l = None /\ thumbnail l = None) atomic /\
    (length atomic <= length peaks - 1)%nat /\
    (StronglySorted notLater peaks -> StronglySorted before atomic).
Proof.
  intros Hr. destruct (atomicFrom_total config data peaks 0 Hr) as [atomic Ha].
  exists atomic. split; [exact Ha|]. split; [|split].
  - apply Forall_forall. intros l Hl.
    apply (atomicFrom_In config data peaks 0 atomic l Ha) in Hl.
    destruct Hl as (j & p & q & _ & _ & Hc).
    apply candidate_accepts in Hc. destruct Hc as (_ & Hb & ->).
    apply inBounds_spec in Hb. split; [exact Hb|].
    repeat split. apply confidence_le_1.
  - exact (atomicFrom_length config data peaks 0 atomic Ha).
  - intros Hs. exact (atomicFrom_before config data peaks 0 atomic Hs Ha).
Qed.

(** ** Sampled instants and peaks in time order *)

Lemma StronglySorted_nth {A : Type} (R : A -> A -> Prop) (l : list A) (j k : nat) (a b : A) :
  StronglySorted R l -> (j < k)%nat ->
  nth_error l j = Some a -> nth_error l k = Some b -> R a b.
Proof.
  intros Hs. revert j k. induction Hs as [|x l Hl IH Hx]; intros j k Hjk Ha Hb.
  - destruct j; discriminate.
  - destruct k as [|k]; [lia|]. simpl in Hb. destruct j as [|j]; simpl in Ha.
    + injection Ha as <-. rewrite Forall_forall in Hx. apply Hx.
      eapply nth_error_In; eassumption.
    + apply (IH j k); [lia|assumption|assumption].
Qed.

Lemma StronglySorted_weaken {A : Type} (R R' : A -> A -> Prop) (l : list A) :
  (forall a b, In a l -> In b l -> R a b -> R' a b) ->
  StronglySorted R l -> StronglySorted R' l.
Proof.
  intros Himp Hs. induction Hs as [|x l Hl IH Hx]; [constructor|].
  constructor.
  - apply IH. intros a b Ha Hb. apply Himp; now right.
  - rewrite Forall_forall in *. intros b Hb. apply Himp; [now left|now right|].
    now apply Hx.
Qed.

Lemma ofNat_sub (a b : nat) : (a <= b)%nat -> ofNat (b - a) == ofNat b - ofNat a.
Proof.
  intros H. unfold ofNat. rewrite Nat2Z.inj_sub by exact H.
  unfold Z.sub. rewrite inject_Z_plus, inject_Z_opp. reflexivity.
Qed.

Lemma ofNat_le (a b : nat) : (a <= b)%nat -> ofNat a <= ofNat b.
Proof.
  intros H. unfold ofNat. rewrite <- Zle_Qle. lia.
Qed.

Section Grid.
Variable sqrt : Q -> Q.
Variable env : Env.
Variable config : AnalysisConfig.
Variable audioBuffer : option AudioBuffer.
Variable fuel : nat.
Variable ticks : list (Sample * Q).
Hypothesis rate_pos : 0 < samplingRate config.
Hypothesis sampled : sampleLoop sqrt env config fuel audioBuffer 0 = Some ticks.

Let data : list Sample := detrend config (fuse config (map fst ticks)).

Lemma grid_time (k : nat) (d : Sample) :
  nth_error (smooth config data) k = Some d ->
  time d == ofNat k / samplingRate config.
Proof.
  intros Hd.
  assert (Ht : nth_error (map time (map fst ticks)) k = Some (time d)).
  { unfold data in Hd. rewrite <- detrended_time with (config := config).
    rewrite <- smooth_time with (config := config). now apply map_nth_error. }
  rewrite map_map, nth_error_map in Ht.
  destruct (nth_error ticks k) as [tick|] eqn:Hk; [|discriminate].
  injection Ht as E. rewrite <- E.
  assert (E0 : time (fst tick) == 0 + ofNat k * interval config)
    by exact (sampleLoop_nth _ _ _ _ _ _ _ _ _ sampled Hk).
  rewrite E0, interval_times by exact rate_pos. ring.
Qed.

Lemma grid_peak_time (p : Peak) :
  In p (peaksOf config data) -> time (sample p) == ofNat (index p) / samplingRate config.
Proof.
  intros Hp. apply findPeaks_index in Hp. apply grid_time, Hp.
Qed.

Lemma grid_peaks_in_range :
  Forall (fun p => (index p <= length data)%nat) (peaksOf config data).
Proof.
  apply Forall_forall. intros p Hp. apply findPeaks_index in Hp.
  rewrite smooth_length in Hp. lia.
Qed.

Lemma grid_peaks_in_time_order : StronglySorted notLater (peaksOf config data).
Proof.
  apply (StronglySorted_weaken spaced); [|apply peakScan_spaced].
  intros a b Ha Hb Hab. unfold notLater.
  rewrite (grid_peak_time a Ha), (grid_peak_time b Hb).
  apply Qmult_le_compat_r; [|apply Qlt_le_weak, Qinv_lt_0_compat, rate_pos].
  apply ofNat_le. unfold spaced in Hab. lia.
Qed.

Lemma grid_loop_duration (atomic : list DetectedLoop) (l : DetectedLoop) :
  atomicLoops config data (peaksOf config data) = Ok atomic ->
  In l atomic ->
  exists i k, (1 <= i)%nat /\ (2 <= k)%nat /\
    startTime l == ofNat i / samplingRate config /\
    endTime l == ofNat (i + k) / samplingRate config /\
    duration l == ofNat k / samplingRate config.
Proof.
  intros Ha Hl.
  apply (atomicFrom_In config data _ 0 atomic l Ha) in Hl.
  destruct Hl as (j & p & q & Hp & Hq & Hc).
  apply candidate_accepts in Hc. destruct Hc as (_ & _ & ->).
  assert (Hs : spaced p q).
  { apply (StronglySorted_nth spaced (peaksOf config data) j (S j));
      [apply peakScan_spaced|lia|assumption|assumption]. }
  unfold spaced in Hs.
  pose proof (grid_peak_time p (nth_error_In _ _ Hp)) as Ep.
  pose proof (grid_peak_time q (nth_error_In _ _ Hq)) as Eq.
  assert (Hi : (1 <= index p)%nat).
  { apply nth_error_In in Hp. apply findPeaks_index in Hp. lia. }
  exists (index p), (index q - index p)%nat.
  replace (index p + (index q - index p))%nat with (index q) by lia.
  split; [exact Hi|]. split; [lia|]. split; [exact Ep|]. split; [exact Eq|].
  simpl. unfold loopDuration. rewrite Ep, Eq, ofNat_sub by lia.
  field. lra.
Qed.
End Grid.

(** ** Merging a set *)

Lemma Qfloor_unique (x : Q) (z : Z) :
  inject_Z z <= x -> x < inject_Z (z + 1) -> Qfloor x = z.
Proof.
  intros Hlo Hhi.
  pose proof (Qfloor_le x) as H1. pose proof (Qlt_floor x) as H2.
  assert (Ha : (Qfloor x < z + 1)%Z).
  { rewrite Zlt_Qlt. eapply Qle_lt_trans; eassumption. }
  assert (Hb : (z < Qfloor x + 1)%Z).
  { rewrite Zlt_Qlt. eapply Qle_lt_trans; eassumption. }
  lia.
Qed.

Lemma round_integer (z : Z) : round (inject_Z z) = z.
Proof.
  unfold round. apply Qfloor_unique.
  - lra.
  - rewrite inject_Z_plus. change (inject_Z 1) with 1. lra.
Qed.

Lemma round_monotone (x y : Q) : x <= y -> (round x <= round y)%Z.
Proof.
  intros H. unfold round. apply Qfloor_resp_le. lra.
Qed.

Lemma sumBy_bounds {A : Type} (f : A -> Q) (lo hi : Q) (l : list A) :
  Forall (fun x => lo <= f x <= hi) l ->
  ofNat (length l) * lo <= sumBy f l <= ofNat (length l) * hi.
Proof.
  induction 1 as [|x l Hx _ IH].
  - unfold sumBy. simpl. change (ofNat 0) with 0. lra.
  - rewrite sumBy_cons. simpl length. rewrite ofNat_succ.
    set (n := ofNat (length l)) in *. nra.
Qed.

Lemma mean_bounds {A : Type} (f : A -> Q) (lo hi : Q) (l : list A) :
  l <> [] -> Forall (fun x => lo <= f x <= hi) l ->
  lo <= sumBy f l / ofNat (length l) <= hi.
Proof.
  intros Hne H. pose proof (sumBy_bounds f lo hi l H) as [H1 H2].
  assert (Hn : 0 < ofNat (length l)).
  { unfold ofNat. change 0 with (inject_Z 0). rewrite <- Zlt_Qlt.
    destruct l; [congruence|simpl; lia]. }
  split.
  - apply Qle_shift_div_l; [exact Hn|]. lra.
  - apply Qle_shift_div_r; [exact Hn|]. lra.
Qed.

Lemma mergeSet_fields (stamp : Z) (first : DetectedLoop) (rest : list DetectedLoop) :
  exists m lastLoop,
    mergeSet stamp (first :: rest) = Ok m /\
    lookup (first :: rest) (length rest) = Ok lastLoop /\
    id m = SetId stamp (startTime first) /\
    startTime m = startTime first /\
    endTime m = endTime lastLoop /\
    duration m = endTime lastLoop - startTime first /\
    bpm m = round (sumBy (fun l => inject_Z (bpm l)) (first :: rest)
                   / ofNat (S (length rest))) /\
    confidence m = sumBy confidence (first :: rest) / ofNat (S (length rest)) /\
    repCount m = S (length rest) /\
    label m = Some (SetOfReps (S (length rest))) /\
    thumbnail m = None.
Proof.
  destruct (lookup_total (first :: rest) (length rest)) as [lastLoop Hl]; [simpl; lia|].
  unfold mergeSet.
  replace (length (first :: rest) - 1)%nat with (length rest) by (simpl; lia).
  rewrite Hl. simpl.
  eexists. exists lastLoop. split; [reflexivity|]. repeat split.
Qed.

(** X10.  mergeSet raises on an empty group.  On a non-empty group it
    returns a unit that starts where the first member starts, ends where the
    last member ends, lasts endTime - startTime, counts the members, whose
    bpm stays within the range of the members' bpm and whose confidence
    stays in [0, 1] when the members' do; merging a single loop keeps its
    span, bpm and confidence. *)
Theorem mergeSet_summary (stamp : Z) :
  mergeSet stamp [] = Throw /\
  (forall first rest, exists m lastLoop,
     mergeSet stamp (first :: rest) = Ok m /\
     lookup (first :: rest) (length rest) = Ok lastLoop /\
     startTime m = startTime first /\ endTime m = endTime lastLoop /\
     duration m = endTime m - startTime m /\
     repCount m = S (length rest) /\
     label m = Some (SetOfReps (S (length rest))) /\
     (Forall (fun l => 0 <= confidence l <= 1) (first :: rest) ->
      0 <= confidence m <= 1) /\
     (forall lo hi, Forall (fun l => (lo <= bpm l <= hi)%Z) (first :: rest) ->
                    (lo <= bpm m <= hi)%Z)) /\
  (forall l, exists m,
     mergeSet stamp [l] = Ok m /\
     startTime m = startTime l /\ endTime m = endTime l /\
     duration m = endTime l - startTime l /\
     bpm m = bpm l /\ confidence m == confidence l /\ repCount m = 1%nat).
Proof.
  split; [reflexivity|]. split.
  - intros first rest.
    destruct (mergeSet_fields stamp first rest)
      as (m & lastLoop & Em & El & _ & Es & Ee & Ed & Eb & Ec & Er & Elab & _).
    exists m, lastLoop. split; [exact Em|]. split; [exact El|].
    split; [exact Es|]. split; [exact Ee|]. split; [now rewrite Ed, Es, Ee|].
    split; [exact Er|]. split; [exact Elab|]. split.
    + intros H. rewrite Ec.
      apply (mean_bounds confidence 0 1 (first :: rest)); [discriminate|exact H].
    + intros lo hi H. rewrite Eb.
      assert (Hq : Forall (fun l => inject_Z lo <= inject_Z (bpm l) <= inject_Z hi)
                          (first :: rest)).
      { eapply Forall_impl; [|exact H]. intros l [H1 H2]. cbv beta.
        rewrite <- !Zle_Qle. split; assumption. }
      pose proof (mean_bounds (fun l => inject_Z (bpm l)) _ _ (first :: rest)
                    ltac:(discriminate) Hq) as [H1 H2].
      apply round_monotone in H1. apply round_monotone in H2.
      rewrite round_integer in H1, H2. simpl length in *. split; assumption.
  - intros l.
    destruct (mergeSet_fields stamp l [])
      as (m & lastLoop & Em & El & _ & Es & Ee & Ed & Eb & Ec & Er & _).
    simpl in El. injection El as <-.
    exists m. split; [exact Em|]. split; [exact Es|]. split; [exact Ee|].
    split; [exact Ed|]. split; [|split; [|exact Er]].
    + rewrite Eb. transitivity (round (inject_Z (bpm l))); [|apply round_integer].
      unfold round. apply Qfloor_comp. rewrite sumBy_cons. unfold sumBy. simpl.
      change (ofNat 1) with 1. field.
    + rewrite Ec, sumBy_cons. unfold sumBy. simpl. change (ofNat 1) with 1. field.
Qed.

(** ** Sets are the maximal runs of joined loops *)

Lemma chained_snoc (R : DetectedLoop -> DetectedLoop -> Prop) (g : list DetectedLoop)
      (x : DetectedLoop) :
  chained R g ->
  (forall a, lookup g (length g - 1) = Ok a -> R a x) ->
  chained R (g ++ [x]).
Proof.
  induction g as [|a tl IH]; intros Hc Hlast; [exact I|].
  destruct tl as [|b tl'].
  - simpl. split; [|exact I]. apply Hlast. reflexivity.
  - destruct Hc as [Hab Hc]. change ((a :: b :: tl') ++ [x]) with (a :: (b :: tl') ++ [x]).
    split; [exact Hab|]. apply IH; [exact Hc|].
    intros c Hl. apply Hlast. simpl length in *.
    replace (S (S (length tl')) - 1)%nat with (S (length tl')) by lia.
    replace (S (length tl') - 1)%nat with (length tl') in Hl by lia.
    exact Hl.
Qed.

Lemma joins_branch (config : AnalysisConfig) (data : list Sample)
      (prev curr : DetectedLoop) (cut : bool) :
  gapHasCut config data prev curr = Ok cut ->
  (Qltb (startTime curr - endTime prev) (Qmax 2 (duration prev * 3)) && negb cut = true
   <-> joins config data prev curr).
Proof.
  intros E. unfold joins. rewrite E, andb_true_iff, Qltb_lt, negb_true_iff.
  split; intros [H1 H2]; split; congruence.
Qed.

Lemma setsWalk_runs (config : AnalysisConfig) (now : nat -> Z) (data : list Sample)
      (rest currentSet finalLoops units : list DetectedLoop) :
  setsWalk config now data rest currentSet finalLoops = Ok units ->
  currentSet <> [] ->
  chained (joins config data) currentSet ->
  exists ext others closed,
    rest = ext ++ concat others /\
    units = finalLoops ++ closed /\
    Forall2 mergedFrom ((currentSet ++ ext) :: others) closed /\
    chained (joins config data) (currentSet ++ ext) /\
    Forall (fun g => g <> [] /\ chained (joins config data) g) others /\
    separated (joins config data) ((currentSet ++ ext) :: others).
Proof.
  revert currentSet finalLoops.
  induction rest as [|curr rest IH]; intros currentSet finalLoops H Hne Hch;
    cbn [setsWalk] in H.
  - destruct (mergeSet (now (length finalLoops)) currentSet) as [m|] eqn:Em;
      [|discriminate].
    cbn [bind] in H. injection H as <-.
    exists [], [], [m]. rewrite (app_nil_r currentSet).
    split; [reflexivity|]. split; [reflexivity|].
    split; [constructor; [now exists (now (length finalLoops))|constructor]|].
    split; [exact Hch|]. split; [constructor|exact I].
  - destruct (lookup currentSet (length currentSet - 1)) as [prev|] eqn:Ep;
      [|discriminate].
    cbn [bind] in H.
    destruct (gapHasCut config data prev curr) as [cut|] eqn:Ecut; [|discriminate].
    cbn [bind] in H.
    pose proof (joins_branch config data prev curr cut Ecut) as Hj.
    destruct (Qltb _ _ && negb cut).
    + destruct (IH (currentSet ++ [curr]) finalLoops H) as
          (ext & others & closed & Er & Eu & Hm & Hc & Ho & Hs).
      * intros N. apply app_eq_nil in N. destruct N; discriminate.
      * apply chained_snoc; [exact Hch|]. intros a Ha.
        assert (a = prev) by congruence. subst a. now apply Hj.
      * exists (curr :: ext), others, closed.
        rewrite <- app_assoc in Hm, Hc, Hs. simpl in Hm, Hc, Hs.
        split; [simpl; now rewrite Er|]. split; [exact Eu|]. split; [exact Hm|].
        split; [exact Hc|]. split; [exact Ho|exact Hs].
    + destruct (mergeSet (now (length finalLoops)) currentSet) as [m|] eqn:Em;
        [|discriminate].
      cbn [bind] in H.
      destruct (IH [curr] (finalLoops ++ [m]) H) as
          (ext & others & closed & Er & Eu & Hm & Hc & Ho & Hs).
      * discriminate.
      * exact I.
      * exists [], (([curr] ++ ext) :: others), (m :: closed).
        rewrite (app_nil_r currentSet). split; [simpl; now rewrite Er|].
        split; [rewrite Eu, <- app_assoc; reflexivity|].
        split; [constructor; [now exists (now (length finalLoops))|exact Hm]|].
        split; [exact Hch|]. split; [constructor; [|exact Ho]|].
        -- split; [discriminate|exact Hc].
        -- cbn [separated]. split; [|exact Hs].
           intros a b Ha Hb N. simpl in Hb. injection Hb as <-.
           assert (a = prev) by congruence. subst a.
           apply Hj in N. discriminate.
Qed.

(** X11.  In sets mode the final units are the merges of the maximal runs
    of joined loops: the atomic loops split, in order, into non-empty groups;
    inside a group every loop passes the join test against its predecessor
    (gap < max(2, 3 * predecessor's duration) and no scene cut in the gap),
    and the first loop of each following group fails it against the last
    loop of the group before. *)
Theorem sets_are_maximal_runs (config : AnalysisConfig) (now : nat -> Z)
        (data : list Sample) (atomic : list DetectedLoop) :
  0 <= samplingRate config ->
  Forall (fun l => 0 <= endTime l) atomic ->
  exists units groups,
    setsStage config now data atomic = Ok units /\
    concat groups = atomic /\
    Forall2 mergedFrom groups units /\
    Forall (fun g => g <> [] /\ chained (joins config data) g) groups /\
    separated (joins config data) groups.
Proof.
  intros Hf Ht.
  destruct (setsStage_partition config now data atomic Hf Ht) as (units & E & _).
  exists units. destruct atomic as [|first rest].
  - injection E as <-. exists []. split; [reflexivity|]. split; [reflexivity|].
    split; [constructor|]. split; [constructor|exact I].
  - simpl in E.
    destruct (setsWalk_runs config now data rest [first] [] units E)
      as (ext & others & closed & Er & Eu & Hm & Hc & Ho & Hs).
    + discriminate.
    + exact I.
    + exists (([first] ++ ext) :: others). simpl in Eu. subst closed.
      split; [exact E|]. split; [simpl; now rewrite Er|]. split; [exact Hm|].
      split; [|exact Hs]. constructor; [|exact Ho]. split; [discriminate|exact Hc].
Qed.

(** ** Final loops are in time order *)

Lemma StronglySorted_app_inv {A : Type} (R : A -> A -> Prop) (l1 l2 : list A) :
  StronglySorted R (l1 ++ l2) ->
  StronglySorted R l1 /\ StronglySorted R l2 /\
  (forall a b, In a l1 -> In b l2 -> R a b).
Proof.
  induction l1 as [|x l1 IH]; intros H.
  - split; [constructor|]. split; [exact H|]. intros a b [].
  - simpl in H. inversion H as [|? ? Hs Hx]; subst.
    destruct (IH Hs) as (H1 & H2 & H12). rewrite Forall_forall in Hx.
    split; [|split; [exact H2|]].
    + constructor; [exact H1|]. apply Forall_forall. intros b Hb. apply Hx.
      apply in_or_app. now left.
    + intros a b [<-|Ha] Hb; [|now apply H12]. apply Hx. apply in_or_app. now right.
Qed.

Lemma mapiFrom_before (f : nat -> DetectedLoop -> DetectedLoop) (i : nat)
      (l : list DetectedLoop) :
  (forall k x, startTime (f k x) = startTime x /\ endTime (f k x) = endTime x) ->
  StronglySorted before l -> StronglySorted before (mapiFrom f i l).
Proof.
  intros Hf Hs. revert i. induction Hs as [|x l Hl IH Hx]; intros i; [constructor|].
  cbn [mapiFrom]. constructor; [apply IH|].
  apply Forall_forall. intros y Hy. apply In_nth_error in Hy. destruct Hy as [k Hk].
  rewrite mapiFrom_nth in Hk. destruct (nth_error l k) as [z|] eqn:Ez; [|discriminate].
  injection Hk as <-. unfold before. destruct (Hf i x) as [_ ->].
  destruct (Hf (S (i + k)) z) as [-> _].
  rewrite Forall_forall in Hx. apply (Hx z). eapply nth_error_In; eassumption.
Qed.

Lemma mergedFrom_span (g : list DetectedLoop) (u : DetectedLoop) :
  mergedFrom g u ->
  exists first lastLoop,
    hd_error g = Some first /\ lookup g (length g - 1) = Ok lastLoop /\
    startTime u = startTime first /\ endTime u = endTime lastLoop.
Proof.
  intros [stamp H]. destruct g as [|first rest]; [discriminate|].
  destruct (mergeSet_fields stamp first rest)
    as (m & lastLoop & Em & El & _ & Es & Ee & _).
  assert (m = u) by congruence. subst m.
  exists first, lastLoop. simpl length.
  replace (S (length rest) - 1)%nat with (length rest) by lia. auto.
Qed.

Lemma group_span (g : list DetectedLoop) (first lastLoop : DetectedLoop) :
  StronglySorted before g ->
  Forall (fun l => startTime l <= endTime l) g ->
  hd_error g = Some first -> lookup g (length g - 1) = Ok lastLoop ->
  startTime first <= endTime lastLoop.
Proof.
  intros Hs Hw Hf Hl. destruct g as [|a rest]; [discriminate|].
  injection Hf as ->. apply lookup_Ok in Hl. simpl length in Hl.
  replace (S (length rest) - 1)%nat with (length rest) in Hl by lia.
  rewrite Forall_forall in Hw.
  destruct rest as [|b rest'].
  - simpl in Hl. injection Hl as <-. apply Hw. now left.
  - assert (Hb : before first lastLoop).
    { apply (StronglySorted_nth before (first :: b :: rest') 0 (length (b :: rest')));
        [exact Hs|simpl; lia|reflexivity|exact Hl]. }
    unfold before in Hb.
    assert (H1 : startTime first <= endTime first) by (apply Hw; now left).
    assert (H2 : startTime lastLoop <= endTime lastLoop).
    { apply Hw. eapply nth_error_In; eassumption. }
    lra.
Qed.

Lemma merged_groups_ordered (groups : list (list DetectedLoop)) (units : list DetectedLoop) :
  Forall2 mergedFrom groups units ->
  StronglySorted before (concat groups) ->
  Forall (fun l => startTime l <= endTime l) (concat groups) ->
  StronglySorted before units /\ Forall (fun u => startTime u <= endTime u) units /\
  (forall u, In u units -> exists b, In b (concat groups) /\ startTime u = startTime b).
Proof.
  induction 1 as [|g u gs us Hm _ IH]; intros Hs Hw.
  - split; [constructor|]. split; [constructor|]. intros u [].
  - simpl in Hs, Hw. destruct (StronglySorted_app_inv _ _ _ Hs) as (Hg & Hgs & Hcross).
    apply Forall_app in Hw. destruct Hw as [Hwg Hwgs].
    destruct (IH Hgs Hwgs) as (IHs & IHw & IHin).
    destruct (mergedFrom_span g u Hm) as (first & lastLoop & Hf & Hl & Es & Ee).
    assert (Hfirst : In first g) by (destruct g; [discriminate|]; injection Hf as ->; now left).
    assert (Hlast : In lastLoop g).
    { apply lookup_Ok in Hl. eapply nth_error_In; eassumption. }
    split; [|split].
    + constructor; [exact IHs|]. apply Forall_forall. intros u' Hu'.
      destruct (IHin u' Hu') as (b & Hb & Eb). unfold before. rewrite Ee, Eb.
      apply (Hcross lastLoop b Hlast Hb).
    + constructor; [|exact IHw]. rewrite Es, Ee.
      exact (group_span g first lastLoop Hg Hwg Hf Hl).
    + intros u' [<-|Hu'].
      * exists first. split; [|exact Es]. simpl. apply in_or_app. now left.
      * destruct (IHin u' Hu') as (b & Hb & Eb). exists b. split; [|exact Eb].
        simpl. apply in_or_app. now right.
Qed.

Lemma finalProcessing_ordered (config : AnalysisConfig) (now : nat -> Z)
      (data : list Sample) (atomic : list DetectedLoop) :
  0 <= samplingRate config ->
  Forall (fun l => 0 <= endTime l) atomic ->
  Forall (fun l => startTime l <= endTime l) atomic ->
  StronglySorted before atomic ->
  exists finalLoops,
    finalProcessing config now data atomic = Ok finalLoops /\
    StronglySorted before finalLoops /\
    Forall (fun u => startTime u <= endTime u) finalLoops.
Proof.
  intros Hf Ht Hw Hs. unfold finalProcessing. destruct (detectionMode config).
  - eexists. split; [reflexivity|]. split.
    + apply mapiFrom_before; [|exact Hs]. intros k x. simpl. auto.
    + apply Forall_forall. intros u Hu. apply In_nth_error in Hu.
      destruct Hu as [k Hk]. unfold repsStage, mapi in Hk. rewrite mapiFrom_nth in Hk.
      destruct (nth_error atomic k) as [z|] eqn:Ez; [|discriminate].
      injection Hk as <-. simpl. rewrite Forall_forall in Hw. apply Hw.
      eapply nth_error_In; eassumption.
  - destruct (setsStage_partition config now data atomic Hf Ht) as (units & E & _).
    exists units. split; [exact E|].
    destruct (setsStage_groups config now data atomic units E) as (groups & Ec & Hm).
    subst atomic. destruct (merged_groups_ordered groups units Hm Hs Hw) as (H1 & H2 & _).
    split; assumption.
Qed.

Lemma withThumbs_before (env : Env) (finalLoops : list DetectedLoop) :
  StronglySorted before finalLoops -> StronglySorted before (withThumbs env finalLoops).
Proof.
  induction 1 as [|x l Hl IH Hx]; [constructor|].
  simpl. constructor; [exact IH|].
  unfold withThumbs. apply Forall_map. eapply Forall_impl; [|exact Hx].
  intros y Hy. exact Hy.
Qed.

Lemma run_loops_ordered (sqrt : Q -> Q) (env : Env) (config : AnalysisConfig)
      (audioBuffer : option AudioBuffer) (fuel : nat) (ticks : list (Sample * Q)) :
  0 < samplingRate config ->
  sampleLoop sqrt env config fuel audioBuffer 0 = Some ticks ->
  exists finalLoops,
    loopsOf env config (detrend config (fuse config (map fst ticks))) = Ok finalLoops /\
    StronglySorted before (withThumbs env finalLoops) /\
    Forall (fun u => startTime u <= endTime u) (withThumbs env finalLoops).
Proof.
  intros Hf Hs. set (data := detrend config (fuse config (map fst ticks))).
  pose proof (grid_peaks_in_range config ticks) as Hr.
  destruct (atomicFrom_total config data (peaksOf config data) 0 Hr) as [atomic Ha].
  assert (Hgrid : forall l, In l atomic ->
            0 <= endTime l /\ startTime l <= endTime l).
  { intros l Hl.
    destruct (grid_loop_duration sqrt env config audioBuffer fuel ticks Hf Hs atomic l Ha Hl)
      as (i & k & _ & _ & Es & Ee & _).
    rewrite Es, Ee.
    assert (Hinv : 0 <= / samplingRate config) by (apply Qlt_le_weak, Qinv_lt_0_compat, Hf).
    split.
    - apply Qmult_le_0_compat; [apply ofNat_nonneg|exact Hinv].
    - apply Qmult_le_compat_r; [apply ofNat_le; lia|exact Hinv]. }
  destruct (finalProcessing_ordered config (dateNow env) data atomic) as (finalLoops & E & Ho & Hw).
  { lra. }
  { apply Forall_forall. intros l Hl. apply (Hgrid l Hl). }
  { apply Forall_forall. intros l Hl. apply (Hgrid l Hl). }
  { apply (atomicFrom_before config data (peaksOf config data) 0 atomic); [|exact Ha].
    exact (grid_peaks_in_time_order sqrt env config audioBuffer fuel ticks Hf Hs). }
  exists finalLoops. split; [|split].
  - unfold loopsOf, atomicLoops. fold data. rewrite Ha. exact E.
  - now apply withThumbs_before.
  - unfold withThumbs. apply Forall_map. exact Hw.
Qed.

(** X12.  Whatever the detection mode, the loops a run hands to
    onLoopsDetected are in time order and do not overlap: each unit starts no
    later than it ends and ends no later than the next one starts. *)
Theorem run_delivers_ordered_loops (sqrt : Q -> Q) (env : Env) (config : AnalysisConfig)
        (audioBuffer : option AudioBuffer) (fuel : nat) (ticks : list (Sample * Q)) :
  0 < samplingRate config ->
  sampleLoop sqrt env config fuel audioBuffer 0 = Some ticks ->
  exists finalLoops,
    loopsOf env config (detrend config (fuse config (map fst ticks))) = Ok finalLoops /\
    StronglySorted before (withThumbs env finalLoops) /\
    Forall (fun u => startTime u <= endTime u) (withThumbs env finalLoops).
Proof.
  apply run_loops_ordered.
Qed.

(** ** Moving averages stay within the range of the signal *)

Lemma window_nonempty (arr : list Sample) (i : nat) (w : Z) :
  (i < length arr)%nat -> (0 <= w)%Z -> window arr i w <> [].
Proof.
  intros Hi Hw N. apply (f_equal (@length Sample)) in N. unfold window in N.
  rewrite length_firstn, length_skipn in N. simpl in N. lia.
Qed.

Lemma window_members (P : Sample -> Prop) (arr : list Sample) (i : nat) (w : Z) :
  Forall P arr -> Forall P (window arr i w).
Proof.
  intros H. unfold window. now apply Forall_firstn, Forall_skipn.
Qed.

Lemma windowMean_bounds (arr : list Sample) (i : nat) (w : Z) (lo hi : Q) :
  (i < length arr)%nat -> (0 <= w)%Z ->
  Forall (fun d => lo <= value d <= hi) arr ->
  lo <= windowMean arr i w <= hi.
Proof.
  intros Hi Hw H. unfold windowMean.
  apply mean_bounds; [now apply window_nonempty|now apply window_members].
Qed.

Lemma trendWindow_nonneg (config : AnalysisConfig) :
  0 <= samplingRate config -> (0 <= trendWindow config)%Z.
Proof.
  intros H. unfold trendWindow. apply Qfloor_nonneg.
  apply Qmult_le_0_compat; [exact H|lra].
Qed.

Lemma windowSize_nonneg (config : AnalysisConfig) :
  (0 <= smoothingWindow config)%Z -> (0 <= windowSize config)%Z.
Proof.
  intros H. unfold windowSize. destruct (smoothingWindow config =? 0)%Z; lia.
Qed.

Lemma mapi_forall {A B : Type} (f : nat -> A -> B) (P : B -> Prop) (l : list A) :
  (forall k x, nth_error l k = Some x -> P (f k x)) -> Forall P (mapi f l).
Proof.
  intros H. apply Forall_forall. intros y Hy. apply In_nth_error in Hy.
  destruct Hy as [k Hk]. unfold mapi in Hk. rewrite mapiFrom_nth in Hk.
  destruct (nth_error l k) as [x|] eqn:Ex; [|discriminate].
  injection Hk as <-. now apply H.
Qed.

Lemma nth_error_lt {A : Type} (l : list A) (k : nat) (x : A) :
  nth_error l k = Some x -> (k < length l)%nat.
Proof.
  intros H. apply nth_error_Some. congruence.
Qed.

Lemma smooth_bounds (config : AnalysisConfig) (data : list Sample) (lo hi : Q) :
  (0 <= smoothingWindow config)%Z ->
  Forall (fun d => lo <= value d <= hi) data ->
  Forall (fun d => lo <= value d <= hi) (smooth config data).
Proof.
  intros Hw H. apply mapi_forall. intros k x Hk. simpl.
  apply windowMean_bounds; [eapply nth_error_lt; eassumption| |exact H].
  now apply windowSize_nonneg.
Qed.

Lemma detrend_bounds (config : AnalysisConfig) (processed : list Sample) (hi : Q) :
  Forall (fun d => 0 <= value d <= hi) processed ->
  Forall (fun d => 0 <= value d <= hi) (detrend config processed).
Proof.
  intros H. unfold detrend. destruct (ignoreSteadyMotion config); [|exact H].
  apply mapi_forall. intros k x Hk. simpl.
  rewrite Forall_forall in H. destruct (H x (nth_error_In _ _ Hk)) as [H0 H1].
  split; [apply Q.le_max_l|].
  apply Q.max_lub; [lra|].
  assert (Ht : 0 <= windowMean processed k (trendWindow config)).
  { apply windowMean_nonneg. apply Forall_forall. intros d Hd. apply (H d Hd). }
  lra.
Qed.

Lemma fuse_bounds (config : AnalysisConfig) (combinedData : list Sample) :
  Forall rawNonneg combinedData -> 0 <= audioWeight config <= 100 ->
  Forall (fun d => 0 <= value d <= 255) (fuse config combinedData).
Proof.
  intros H Hw. unfold fuse.
  apply (Forall_by_map value (fun x => 0 <= x <= 255) _ _ (markSceneCuts_value _ _ _)).
  now apply processedData_bounds.
Qed.

Lemma confidence_nonneg (i : nat) (p q : Peak) :
  0 <= value (sample p) -> 0 <= value (sample q) -> 0 <= confidence (atomicLoop i p q).
Proof.
  intros Hp Hq. simpl. apply Q.min_glb; [lra|].
  apply Qmult_le_0_compat; [|lra]. apply Qdiv_nonneg; lra.
Qed.

(** X6.  For a valid configuration and non-negative raw scores, the fused
    signal, the detrended signal handed to the motion chart and the smoothed
    signal all stay within [0, 255], every peak value does too, and every
    atomic loop of the run has a confidence within [0, 1]. *)
Theorem signal_ranges (config : AnalysisConfig) (combinedData : list Sample) :
  validConfig config ->
  Forall rawNonneg combinedData ->
  let processed := fuse config combinedData in
  let detrendedData := detrend config processed in
  let smoothedData := smooth config detrendedData in
  Forall (fun d => 0 <= value d <= 255) processed /\
  Forall (fun d => 0 <= value d <= 255) detrendedData /\
  Forall (fun d => 0 <= value d <= 255) smoothedData /\
  Forall (fun p => 0 <= value (sample p) <= 255) (findPeaks config smoothedData) /\
  exists atomic,
    atomicLoops config detrendedData (findPeaks config smoothedData) = Ok atomic /\
    Forall (fun l => 0 <= confidence l <= 1) atomic.
Proof.
  intros (Hf & Hw & Ha) Hraw processed detrendedData smoothedData.
  assert (H1 : Forall (fun d => 0 <= value d <= 255) processed)
    by now apply fuse_bounds.
  assert (H2 : Forall (fun d => 0 <= value d <= 255) detrendedData)
    by now apply detrend_bounds.
  assert (H3 : Forall (fun d => 0 <= value d <= 255) smoothedData)
    by now apply smooth_bounds.
  assert (H4 : Forall (fun p => 0 <= value (sample p) <= 255)
                      (findPeaks config smoothedData)).
  { apply Forall_forall. intros p Hp. apply findPeaks_index in Hp.
    destruct Hp as [_ Hp]. rewrite Forall_forall in H3. apply H3.
    eapply nth_error_In; eassumption. }
  repeat (split; [assumption|]).
  destruct (atomicFrom_total config detrendedData (findPeaks config smoothedData) 0)
    as [atomic E].
  { apply Forall_forall. intros p Hp. apply findPeaks_index in Hp.
    unfold smoothedData in Hp. rewrite smooth_length in Hp. lia. }
  exists atomic. split; [exact E|]. apply Forall_forall. intros l Hl.
  apply (atomicFrom_In config detrendedData _ 0 atomic l E) in Hl.
  destruct Hl as (j & p & q & Hp & Hq & Hc).
  apply candidate_accepts in Hc. destruct Hc as (_ & _ & ->).
  rewrite Forall_forall in H4.
  split; [|apply confidence_le_1].
  apply confidence_nonneg.
  - apply (H4 p). eapply nth_error_In; eassumption.
  - apply (H4 q). eapply nth_error_In; eassumption.
Qed.

(** ** Steady signals *)

Lemma windowMean_constant (arr : list Sample) (i : nat) (w : Z) (c : Q) :
  (i < length arr)%nat -> (0 <= w)%Z ->
  Forall (fun d => value d == c) arr -> windowMean arr i w == c.
Proof.
  intros Hi Hw H.
  assert (Hb : Forall (fun d => c <= value d <= c) arr).
  { eapply Forall_impl; [|exact H]. intros d E. cbv beta. rewrite E. lra. }
  pose proof (windowMean_bounds arr i w c c Hi Hw Hb). lra.
Qed.

Lemma detrend_constant (config : AnalysisConfig) (processed : list Sample) (c : Q) :
  ignoreSteadyMotion config = true -> 0 <= samplingRate config ->
  Forall (fun d => value d == c) processed ->
  Forall (fun d => value d == 0) (detrend config processed).
Proof.
  intros E Hf H. unfold detrend. rewrite E. apply mapi_forall. intros k x Hk. simpl.
  assert (Et : windowMean processed k (trendWindow config) == c).
  { apply windowMean_constant; [eapply nth_error_lt; eassumption| |exact H].
    now apply trendWindow_nonneg. }
  rewrite Forall_forall in H. rewrite (H x (nth_error_In _ _ Hk)), Et.
  apply Q.max_l. lra.
Qed.

Lemma mapiFrom_forall2 {A B : Type} (f : nat -> A -> B) (R : A -> B -> Prop)
      (i : nat) (l : list A) :
  (forall k x, nth_error l k = Some x -> R x (f (i + k)%nat x)) ->
  Forall2 R l (mapiFrom f i l).
Proof.
  revert i. induction l as [|x l IH]; intros i H; [constructor|].
  simpl. constructor.
  - specialize (H 0%nat x eq_refl). now rewrite Nat.add_0_r in H.
  - apply IH. intros k y Hk. rewrite Nat.add_succ_comm. now apply (H (S k)).
Qed.

Lemma Forall2_refl {A : Type} (R : A -> A -> Prop) (l : list A) :
  (forall x, R x x) -> Forall2 R l l.
Proof.
  intros H. induction l; constructor; auto.
Qed.

Lemma detrend_lowers (config : AnalysisConfig) (processed : list Sample) :
  Forall (fun d => 0 <= value d) processed ->
  Forall2 (fun d d' => value d' <= value d) processed (detrend config processed).
Proof.
  intros H. unfold detrend. destruct (ignoreSteadyMotion config).
  - apply mapiFrom_forall2. intros k x Hk. simpl.
    rewrite Forall_forall in H. pose proof (H x (nth_error_In _ _ Hk)) as Hx.
    apply Q.max_lub; [exact Hx|].
    assert (0 <= windowMean processed k (trendWindow config)); [|lra].
    apply windowMean_nonneg. now apply Forall_forall.
  - apply Forall2_refl. intros x. apply Qle_refl.
Qed.

(** X5.  With steady-motion removal enabled the detrended values are never
    negative and, on a non-negative signal, no value is raised; instants,
    scene-cut flags and raw scores are kept as they are. *)
Theorem detrend_only_lowers (config : AnalysisConfig) (processed : list Sample) :
  ignoreSteadyMotion config = true ->
  0 <= samplingRate config ->
  Forall (fun d => 0 <= value d) (detrend config processed) /\
  (Forall (fun d => 0 <= value d) processed ->
   Forall2 (fun d d' => value d' <= value d) processed (detrend config processed)) /\
  map time (detrend config processed) = map time processed /\
  map isSceneCut (detrend config processed) = map isSceneCut processed /\
  map _raw (detrend config processed) = map _raw processed.
Proof.
  intros E Hf. split; [|split; [|split; [|split]]].
  - unfold detrend. rewrite E. apply mapi_forall. intros k x _. simpl. apply Q.le_max_l.
  - apply detrend_lowers.
  - apply detrend_time.
  - unfold detrend. rewrite E. apply mapiFrom_map. reflexivity.
  - unfold detrend. rewrite E. apply mapiFrom_map. reflexivity.
Qed.

Lemma smooth_constant (config : AnalysisConfig) (data : list Sample) (c : Q) :
  (0 <= smoothingWindow config)%Z ->
  Forall (fun d => value d == c) data ->
  Forall (fun d => value d == c) (smooth config data).
Proof.
  intros Hw H. apply mapi_forall. intros k x Hk. simpl.
  apply windowMean_constant; [eapply nth_error_lt; eassumption| |exact H].
  now apply windowSize_nonneg.
Qed.

Lemma no_peaks_on_constant (config : AnalysisConfig) (smoothedData : list Sample) (c : Q) :
  Forall (fun d => value d == c) smoothedData -> findPeaks config smoothedData = [].
Proof.
  intros H. destruct (findPeaks config smoothedData) as [|p r] eqn:E; [reflexivity|].
  exfalso. assert (Hp : In p (findPeaks config smoothedData)) by (rewrite E; now left).
  apply findPeaks_spec in Hp. destruct Hp as (a & b & _ & Ha & Hc & _ & Hs & _).
  rewrite Forall_forall in H.
  rewrite (H a (nth_error_In _ _ Ha)), (H (sample p) (nth_error_In _ _ Hc)) in Hs. lra.
Qed.

Lemma detrended_constant (config : AnalysisConfig) (processed : list Sample) (c : Q) :
  0 <= samplingRate config ->
  Forall (fun d => value d == c) processed ->
  exists c', Forall (fun d => value d == c') (detrend config processed).
Proof.
  intros Hf H. destruct (ignoreSteadyMotion config) eqn:E.
  - exists 0. exact (detrend_constant config processed c E Hf H).
  - exists c. unfold detrend. now rewrite E.
Qed.

Lemma fuse_identical (config : AnalysisConfig) (combinedData : list Sample) (r : Raw.t) :
  Forall (fun d => _raw d = r) combinedData ->
  Forall (fun d => value d == fusedValue config combinedData r * 255)
         (fuse config combinedData).
Proof.
  intros H. unfold fuse.
  apply (Forall_by_map value (fun x => x == _) _ _ (markSceneCuts_value _ _ _)).
  unfold processedData. apply Forall_map. eapply Forall_impl; [|exact H].
  intros d E. simpl. rewrite E. reflexivity.
Qed.

Lemma loopsOf_no_peaks (env : Env) (config : AnalysisConfig) (data : list Sample) :
  peaksOf config data = [] -> loopsOf env config data = Ok [].
Proof.
  intros E. unfold loopsOf. rewrite E. simpl. unfold finalProcessing.
  destruct (detectionMode config); reflexivity.
Qed.

Lemma identical_scores_no_peaks (config : AnalysisConfig) (combinedData : list Sample)
      (r : Raw.t) :
  validConfig config ->
  Forall (fun d => _raw d = r) combinedData ->
  peaksOf config (detrend config (fuse config combinedData)) = [].
Proof.
  intros (Hf & Hw & _) H.
  destruct (detrended_constant config (fuse config combinedData) _
              (Qlt_le_weak _ _ Hf) (fuse_identical config combinedData r H)) as [c Hc].
  apply (no_peaks_on_constant config _ c). now apply smooth_constant.
Qed.

(** ** Flat frames *)

Lemma sampleLoop_all (sqrt : Q -> Q) (env : Env) (config : AnalysisConfig)
      (audioBuffer : option AudioBuffer) (P : Sample * Q -> Prop) (fuel : nat) (t : Q)
      (ticks : list (Sample * Q)) :
  (forall t', P (sampleAt sqrt env config audioBuffer t')) ->
  sampleLoop sqrt env config fuel audioBuffer t = Some ticks ->
  Forall P ticks.
Proof.
  intros HP. revert t ticks. induction fuel as [|fuel IH]; intros t ticks H;
    [discriminate|].
  rewrite sampleLoop_step in H. destruct (Qltb t (videoDuration env)).
  - destruct (sampleLoop sqrt env config fuel audioBuffer (t + interval config))
      as [more|] eqn:Em; [|discriminate].
    injection H as <-. constructor; [apply HP|now apply (IH _ _ Em)].
  - injection H as <-. constructor.
Qed.

Lemma sampleAt_flat (sqrt : Q -> Q) (env : Env) (config : AnalysisConfig) (t : Q) :
  snd (captureFrame env t) < 10 ->
  _raw (fst (sampleAt sqrt env config None t)) = Raw.mk 0 0.
Proof.
  intros H. unfold sampleAt. destruct (captureFrame env t) as [vScore variance].
  simpl in *. apply Qltb_lt in H. now rewrite H.
Qed.

(** X3.  Flat-frame suppression: when every captured frame has a variance
    below 10 and there is no audio buffer, every sample's visual score is
    forced to 0 and the run completes with an empty result (it reports zero
    loops and logs success), whatever the sensitivity and detection mode. *)
Theorem flat_frames_give_no_loops (sqrt : Q -> Q) (env : Env) (config : AnalysisConfig) :
  hasVideo env = true -> hasCanvas env = true -> hasFile env = true ->
  hasContext env = true ->
  validConfig config ->
  (forall t, snd (captureFrame env t) < 10) ->
  decodeAudio env = None \/ audioWeight config <= 0 ->
  exists fuel ticks,
    Forall (fun tick => _raw (fst tick) = Raw.mk 0 0) ticks /\
    startAnalysis sqrt env config fuel = Some (completedRun env config ticks []) /\
    In (OnLoopsDetected []) (completedRun env config ticks []) /\
    In (AddLog success (MsgComplete 0)) (completedRun env config ticks []).
Proof.
  intros Hv Hc Hfile Hctx Hvalid Hflat Hno.
  pose proof Hvalid as (Hf & _).
  destruct (startAnalysis_completes sqrt env config Hv Hc Hfile Hctx Hf)
    as (fuel & ticks & finalLoops & Hs & Hl & Hrun).
  rewrite (audioSetup_unavailable env config Hno) in Hs. cbn [fst] in Hs.
  assert (Hraw : Forall (fun tick => _raw (fst tick) = Raw.mk 0 0) ticks).
  { apply (sampleLoop_all sqrt env config None _ fuel 0 ticks); [|exact Hs].
    intros t. apply sampleAt_flat, Hflat. }
  assert (Hraw' : Forall (fun d => _raw d = Raw.mk 0 0) (map fst ticks))
    by (apply Forall_map; exact Hraw).
  pose proof (identical_scores_no_peaks config _ _ Hvalid Hraw') as Ep.
  rewrite (loopsOf_no_peaks env config _ Ep) in Hl. injection Hl as <-.
  exists fuel, ticks. split; [exact Hraw|]. split; [exact Hrun|].
  unfold completedRun. split; apply in_or_app; right; apply in_or_app; right;
    apply in_or_app; right; apply in_or_app; right; simpl; auto.
Qed.

(** ** Scene-cut flags *)

Lemma fuse_nth (config : AnalysisConfig) (combinedData : list Sample) (k : nat) (d : Sample) :
  nth_error (fuse config combinedData) k = Some d ->
  exists d0,
    nth_error combinedData k = Some d0 /\
    _raw d = _raw d0 /\ time d = time d0 /\
    value d = fusedValue config combinedData (_raw d0) * 255 /\
    isSceneCut d
    = if detectSceneChanges config && Qltb (sceneThreshold combinedData) (Raw.v (_raw d0))
      then true else isSceneCut d0.
Proof.
  unfold fuse, markSceneCuts, processedData. intros H.
  destruct (detectSceneChanges config).
  - rewrite !nth_error_map in H.
    destruct (nth_error combinedData k) as [d0|]; [|discriminate].
    exists d0. split; [reflexivity|]. simpl in H. injection H as <-.
    destruct (Qltb _ _); simpl; auto.
  - rewrite nth_error_map in H.
    destruct (nth_error combinedData k) as [d0|]; [|discriminate].
    exists d0. split; [reflexivity|]. simpl in H. injection H as <-. simpl. auto.
Qed.

(** X4.  Scene-cut detection only sets flags: it leaves the fused values
    untouched, flags exactly the samples whose raw visual score exceeds the
    threshold (the mean raw visual score times six), whatever the audio
    scores and the audio weight, and flags nothing when disabled. *)
Theorem scene_cut_flags (config : AnalysisConfig) (combinedData : list Sample) :
  Forall (fun d => isSceneCut d = false) combinedData ->
  map value (fuse config combinedData) = map value (processedData config combinedData) /\
  (forall k d, nth_error (fuse config combinedData) k = Some d ->
     (isSceneCut d = true <->
      detectSceneChanges config = true /\
      sumBy (fun d => Raw.v (_raw d)) combinedData / ofNat (length combinedData) * 6
      < Raw.v (_raw d))) /\
  (detectSceneChanges config = false ->
   Forall (fun d => isSceneCut d = false) (fuse config combinedData)).
Proof.
  intros Hflags.
  assert (Hiff : forall k d, nth_error (fuse config combinedData) k = Some d ->
     (isSceneCut d = true <->
      detectSceneChanges config = true /\
      sumBy (fun d => Raw.v (_raw d)) combinedData / ofNat (length combinedData) * 6
      < Raw.v (_raw d))).
  { intros k d Hk. destruct (fuse_nth config combinedData k d Hk)
      as (d0 & Hd0 & Eraw & _ & _ & Eflag).
    rewrite Forall_forall in Hflags.
    rewrite Eflag, (Hflags d0 (nth_error_In _ _ Hd0)), Eraw.
    destruct (detectSceneChanges config); simpl.
    + destruct (Qltb _ _) eqn:G.
      * apply Qltb_lt in G. unfold sceneThreshold in G. tauto.
      * split; [discriminate|]. intros [_ H]. apply Qltb_lt in H.
        unfold sceneThreshold in G. congruence.
    + split; [discriminate|]. intros [H _]. discriminate. }
  split; [apply markSceneCuts_value|]. split; [exact Hiff|].
  intros Eoff. apply Forall_forall. intros d Hd.
  apply In_nth_error in Hd. destruct Hd as [k Hk].
  destruct (isSceneCut d) eqn:Ed; [|reflexivity].
  apply (Hiff k d Hk) in Ed. destruct Ed as [Ed _]. congruence.
Qed.

(** ** The shape of a run's trace *)

Lemma last_app_tail {A : Type} (l1 l2 : list A) (d : A) :
  l2 <> [] -> last (l1 ++ l2) d = last l2 d.
Proof.
  intros H. induction l1 as [|x l1 IH]; [reflexivity|].
  simpl. rewrite IH. destruct (l1 ++ l2) eqn:E; [|reflexivity].
  apply app_eq_nil in E. destruct E. contradiction.
Qed.

Lemma progress_no_loops (ticks : list (Sample * Q)) :
  loopsDelivered (map (fun tick => OnProgress (snd tick)) ticks) = [] /\
  errorLogged (map (fun tick => OnProgress (snd tick)) ticks) = false.
Proof.
  induction ticks as [|t ticks [IH1 IH2]]; [split; reflexivity|].
  split; simpl; assumption.
Qed.

Lemma audioSetup_log (env : Env) (config : AnalysisConfig) :
  loopsDelivered (snd (audioSetup env config)) = [] /\
  errorLogged (snd (audioSetup env config)) = false.
Proof.
  unfold audioSetup. destruct (Qltb 0 (audioWeight config)); [|split; reflexivity].
  destruct (decodeAudio env); split; reflexivity.
Qed.

Lemma postProcessing_shape (env : Env) (config : AnalysisConfig) (combinedData : list Sample) :
  let post := postProcessing env config combinedData in
  post <> [] /\
  last post (SetAppState IDLE) = SetAppState READY /\
  (length (loopsDelivered post) <= 1)%nat /\
  (errorLogged post = true -> loopsDelivered post = []) /\
  (forall loops, In (OnLoopsDetected loops) post ->
     exists before,
       post = before ++ [OnLoopsDetected loops;
                         AddLog success (MsgComplete (length loops));
                         SetAppState READY]) /\
  (loopsDelivered post = [] -> errorLogged post = true).
Proof.
  unfold postProcessing.
  destruct (ignoreSteadyMotion config), (loopsOf env config _); simpl;
    (split; [discriminate|]); (split; [reflexivity|]); (split; [lia|]);
    (split; [try discriminate; reflexivity|]); split;
    try discriminate; try reflexivity;
    intros loops H; repeat (destruct H as [H|H]; try discriminate);
    try contradiction; injection H as <-.
  - eexists [_; _]. reflexivity.
  - eexists [_]. reflexivity.
Qed.

(** X13.  Every trace a run returns (every seek having resolved) has one
    of three shapes.  Without a video element, canvas or file it is empty:
    nothing is touched.  Otherwise it starts by entering ANALYZING and ends
    by returning to READY; the loops are delivered at most once, and the
    delivery is immediately followed by the success log that counts them
    and by the return to READY, which end the trace; loops are never
    delivered in a run that logs an error, and a run that delivers nothing
    has logged an error.  Without a drawing context the run reports no
    progress at all. *)
Theorem run_trace_shape (sqrt : Q -> Q) (env : Env) (config : AnalysisConfig)
        (fuel : nat) (events : list Event) :
  startAnalysis sqrt env config fuel = Some events ->
  (events = [] <-> hasVideo env && hasCanvas env && hasFile env = false) /\
  (events <> [] ->
   hd_error events = Some (SetAppState ANALYZING) /\
   last events (SetAppState IDLE) = SetAppState READY) /\
  (length (loopsDelivered events) <= 1)%nat /\
  (errorLogged events = true -> loopsDelivered events = []) /\
  (events <> [] -> loopsDelivered events = [] -> errorLogged events = true) /\
  (forall loops, In (OnLoopsDetected loops) events ->
     exists before,
       events = before ++ [OnLoopsDetected loops;
                           AddLog success (MsgComplete (length loops));
                           SetAppState READY]) /\
  (hasContext env = false -> progressOf events = []).
Proof.
  intros H. unfold startAnalysis in H. cbv zeta in H.
  destruct (hasVideo env), (hasCanvas env), (hasFile env); simpl in H;
    try (injection H as <-; repeat split; try reflexivity; try discriminate;
         try (simpl; lia); try congruence; intros loops []).
  destruct (hasContext env) eqn:Ectx; simpl in H.
  - pose proof (audioSetup_log env config) as [Ha1 Ha2].
    destruct (audioSetup env config) as [audioBuffer audioLog]. cbn [snd] in Ha1, Ha2.
    destruct (sampleLoop sqrt env config fuel audioBuffer 0) as [ticks|]; [|discriminate].
    injection H as <-.
    pose proof (progress_no_loops ticks) as [Hp1 Hp2].
    pose proof (postProcessing_shape env config (map fst ticks))
      as (Hne & Hlast & Hcount & Herr & Hmsg & Hnone).
    set (post := postProcessing env config (map fst ticks)) in *.
    set (prog := map (fun tick => OnProgress (snd tick)) ticks) in *.
    assert (El : loopsDelivered (SetAppState ANALYZING :: AddLog info
                   (MsgStarting (100 - audioWeight config) (audioWeight config)
                      (samplingRate config)) :: audioLog ++ prog ++ post)
                 = loopsDelivered post).
    { unfold loopsDelivered. simpl. rewrite !flat_map_app.
      fold (loopsDelivered audioLog). fold (loopsDelivered prog). now rewrite Ha1, Hp1. }
    assert (Ee : errorLogged (SetAppState ANALYZING :: AddLog info
                   (MsgStarting (100 - audioWeight config) (audioWeight config)
                      (samplingRate config)) :: audioLog ++ prog ++ post)
                 = errorLogged post).
    { unfold errorLogged. simpl. rewrite !existsb_app.
      fold (errorLogged audioLog). fold (errorLogged prog). now rewrite Ha2, Hp2. }
    split; [split; [discriminate|intros N; discriminate N]|].
    split.
    { intros _. split; [reflexivity|].
      change (SetAppState ANALYZING :: ?x :: audioLog ++ prog ++ post)
        with ([SetAppState ANALYZING; x] ++ audioLog ++ prog ++ post).
      rewrite !app_assoc. now rewrite last_app_tail. }
    rewrite El, Ee.
    split; [exact Hcount|]. split; [exact Herr|]. split; [intros _; exact Hnone|].
    split; [|discriminate].
    intros loops Hin.
    assert (Hpost : In (OnLoopsDetected loops) post).
    { destruct Hin as [Hin|[Hin|Hin]]; [discriminate ..|].
      apply in_app_or in Hin. destruct Hin as [Hin|Hin].
      { exfalso. assert (Hx : In loops (loopsDelivered audioLog)).
        { unfold loopsDelivered. apply in_flat_map. eexists. split; [exact Hin|now left]. }
        now rewrite Ha1 in Hx. }
      apply in_app_or in Hin. destruct Hin as [Hin|Hin]; [|exact Hin].
      exfalso. unfold prog in Hin. apply in_map_iff in Hin.
      destruct Hin as [tick [N _]]. discriminate. }
    destruct (Hmsg loops Hpost) as [before Eb].
    exists (SetAppState ANALYZING :: AddLog info
              (MsgStarting (100 - audioWeight config) (audioWeight config)
                 (samplingRate config)) :: audioLog ++ prog ++ before).
    rewrite Eb. cbn [app]. rewrite <- !app_assoc. reflexivity.
  - injection H as <-. split; [split; [discriminate|intros N; discriminate N]|].
    split; [intros _; split; reflexivity|]. split; [simpl; lia|].
    split; [reflexivity|]. split; [reflexivity|]. split; [|reflexivity].
    intros loops Hin. simpl in Hin.
    repeat (destruct Hin as [Hin|Hin]; try discriminate). contradiction.
Qed.

(** ** Sorting the result list *)

Section StableSort.
Variable A : Type.
Variable cmp : A -> A -> Z.
Variable R : A -> A -> Prop.
Hypothesis cmp_R : forall x y, (cmp x y <=? 0)%Z = true <-> R x y.
Hypothesis R_total : forall x y, R x y \/ R y x.
Hypothesis R_trans : forall x y z, R x y -> R y z -> R x z.

Lemma sortInsert_perm (x : A) (l : list A) : Permutation (sortInsert cmp x l) (x :: l).
Proof.
  induction l as [|y l IH]; simpl; [reflexivity|].
  destruct (cmp x y <=? 0)%Z; [reflexivity|].
  rewrite IH. apply perm_swap.
Qed.

Lemma jsSort_perm (l : list A) : Permutation (jsSort cmp l) l.
Proof.
  induction l as [|x l IH]; simpl; [reflexivity|].
  rewrite sortInsert_perm. now constructor.
Qed.

Lemma sortInsert_sorted (x : A) (l : list A) :
  StronglySorted R l -> StronglySorted R (sortInsert cmp x l).
Proof.
  induction 1 as [|y l Hl IH Hy]; simpl; [repeat constructor|].
  destruct (cmp x y <=? 0)%Z eqn:E.
  - apply cmp_R in E. constructor; [now constructor|].
    constructor; [exact E|]. eapply Forall_impl; [|exact Hy].
    intros z Hz. now apply (R_trans x y z).
  - constructor; [exact IH|].
    assert (Hyx : R y x).
    { destruct (R_total x y) as [H|H]; [|exact H]. apply cmp_R in H. congruence. }
    apply Forall_forall. intros z Hz.
    apply (Permutation_in _ (sortInsert_perm x l)) in Hz.
    destruct Hz as [<-|Hz]; [exact Hyx|].
    rewrite Forall_forall in Hy. now apply Hy.
Qed.

Lemma jsSort_sorted (l : list A) : StronglySorted R (jsSort cmp l).
Proof.
  induction l as [|x l IH]; simpl; [constructor|]. now apply sortInsert_sorted.
Qed.

Lemma sortInsert_head (x : A) (l : list A) :
  Forall (R x) l -> sortInsert cmp x l = x :: l.
Proof.
  intros H. destruct l as [|y l]; [reflexivity|].
  simpl. inversion H as [|? ? Hy _]; subst. apply cmp_R in Hy. now rewrite Hy.
Qed.

Lemma jsSort_sorted_id (l : list A) : StronglySorted R l -> jsSort cmp l = l.
Proof.
  induction 1 as [|x l Hl IH Hx]; [reflexivity|].
  simpl. rewrite IH. now apply sortInsert_head.
Qed.

Lemma sortInsert_stable (p : A -> bool) (x : A) (l : list A) :
  (forall y, p x = true -> p y = true -> R x y) ->
  filter p (sortInsert cmp x l) = if p x then x :: filter p l else filter p l.
Proof.
  intros Hp. induction l as [|y l IH]; simpl; [reflexivity|].
  destruct (cmp x y <=? 0)%Z eqn:E; simpl.
  - reflexivity.
  - rewrite IH. destruct (p x) eqn:Px; [|reflexivity].
    destruct (p y) eqn:Py; [|reflexivity].
    assert (Hxy : R x y) by (apply Hp; [reflexivity|exact Py]).
    apply cmp_R in Hxy. congruence.
Qed.

Lemma jsSort_stable (p : A -> bool) (l : list A) :
  (forall x y, p x = true -> p y = true -> R x y) ->
  filter p (jsSort cmp l) = filter p l.
Proof.
  intros Hp. induction l as [|x l IH]; [reflexivity|].
  simpl. rewrite sortInsert_stable by (intros y; apply Hp). now rewrite IH.
Qed.

Lemma sortInsert_filter (q : A -> bool) (x : A) (l : list A) :
  StronglySorted R l ->
  filter q (sortInsert cmp x l)
  = if q x then sortInsert cmp x (filter q l) else filter q l.
Proof.
  induction 1 as [|y l Hl IH Hy]; simpl.
  - destruct (q x); reflexivity.
  - destruct (cmp x y <=? 0)%Z eqn:E.
    + cbn [filter]. destruct (q x) eqn:Qx; [|reflexivity].
      symmetry. apply sortInsert_head. apply cmp_R in E.
      assert (Hall : Forall (R x) (y :: l)).
      { constructor; [exact E|]. eapply Forall_impl; [|exact Hy].
        intros z Hz. now apply (R_trans x y z). }
      change (if q y then y :: filter q l else filter q l) with (filter q (y :: l)).
      apply Forall_forall. intros z Hz. apply filter_In in Hz.
      rewrite Forall_forall in Hall. now apply Hall.
    + cbn [filter]. rewrite IH. destruct (q x) eqn:Qx; destruct (q y) eqn:Qy;
        try reflexivity.
      simpl. now rewrite E.
Qed.

Lemma jsSort_filter (q : A -> bool) (l : list A) :
  jsSort cmp (filter q l) = filter q (jsSort cmp l).
Proof.
  induction l as [|x l IH]; [reflexivity|].
  simpl. rewrite sortInsert_filter by apply jsSort_sorted.
  destruct (q x); simpl; now rewrite IH.
Qed.
End StableSort.

Lemma compareLoops_inOrder (field : SortOption) (asc : bool) (a b : DetectedLoop) :
  (compareLoops field asc a b <=? 0)%Z = true <-> inOrder field asc a b.
Proof.
  unfold compareLoops, inOrder. cbv zeta.
  destruct (Qltb (sortField field a) (sortField field b)) eqn:E1.
  - apply Qltb_lt in E1. destruct asc; simpl.
    + split; [intros _; lra|reflexivity].
    + split; [discriminate|]. intros H. lra.
  - apply Qltb_false in E1.
    destruct (Qltb (sortField field b) (sortField field a)) eqn:E2.
    + apply Qltb_lt in E2. destruct asc; simpl.
      * split; [discriminate|]. intros H. lra.
      * split; [intros _; lra|reflexivity].
    + apply Qltb_false in E2. destruct asc; simpl; (split; [intros _; lra|reflexivity]).
Qed.

Lemma inOrder_total (field : SortOption) (asc : bool) (a b : DetectedLoop) :
  inOrder field asc a b \/ inOrder field asc b a.
Proof.
  unfold inOrder.
  destruct asc; destruct (Qlt_le_dec (sortField field a) (sortField field b)); auto;
    (left + right); lra.
Qed.

Lemma inOrder_trans (field : SortOption) (asc : bool) (a b c : DetectedLoop) :
  inOrder field asc a b -> inOrder field asc b c -> inOrder field asc a c.
Proof.
  unfold inOrder. destruct asc; intros; lra.
Qed.

(** X14.  The displayed list is the stable sort of the result list by the
    chosen field: it holds the same loops, it is ordered by that field in
    the chosen direction, and loops that tie on the field keep the order they
    had in the result list, in both directions. *)
Theorem sortedLoops_is_stable_sort (loops : list DetectedLoop) (field : SortOption)
        (asc : bool) :
  Permutation (sortedLoops loops field asc) loops /\
  StronglySorted (inOrder field asc) (sortedLoops loops field asc) /\
  (forall k, filter (hasKey field k) (sortedLoops loops field asc)
             = filter (hasKey field k) loops).
Proof.
  unfold sortedLoops. split; [apply jsSort_perm|]. split.
  - apply (jsSort_sorted _ _ (inOrder field asc));
      [apply compareLoops_inOrder|apply inOrder_total|apply inOrder_trans].
  - intros k. apply (jsSort_stable _ _ (inOrder field asc));
      [apply compareLoops_inOrder|].
    intros x y Hx Hy. unfold hasKey in *.
    apply Qeq_bool_iff in Hx. apply Qeq_bool_iff in Hy.
    unfold inOrder. destruct asc; rewrite Hx, Hy; apply Qle_refl.
Qed.

(** ** Removing a loop, the default order, toggling the direction *)

Lemma idEqb_refl (a : LoopId) : idEqb a a = true.
Proof.
  destruct a; simpl; rewrite ?Nat.eqb_refl, ?Z.eqb_refl, ?Qeq_bool_refl; reflexivity.
Qed.

Lemma filter_idem {A : Type} (p : A -> bool) (l : list A) :
  filter p (filter p l) = filter p l.
Proof.
  induction l as [|x l IH]; [reflexivity|].
  simpl. destruct (p x) eqn:E; simpl; rewrite ?E, IH; reflexivity.
Qed.

(** X15.  Removing a loop drops exactly the loops with that id and keeps
    the others in place: the displayed list is the previous displayed list
    with those cards taken out, in the same order.  The selection is cleared
    when, and only when, it was the removed id; the sort settings are kept;
    removing the same id again changes nothing. *)
Theorem remove_loop_keeps_the_rest (st : ResultState) (removed : LoopId) :
  let st' := handleRemoveLoop st removed in
  (forall l, In l (loops st') <-> In l (loops st) /\ idEqb (id l) removed = false) /\
  displayed st' = filter (fun l => negb (idEqb (id l) removed)) (displayed st) /\
  Forall (fun l => idEqb (id l) removed = false) (displayed st') /\
  (length (loops st') <= length (loops st))%nat /\
  (forall sel, selectedLoopId st = Some sel ->
     selectedLoopId st' = if idEqb sel removed then None else Some sel) /\
  (selectedLoopId st = None -> selectedLoopId st' = None) /\
  sortBy st' = sortBy st /\ sortAsc st' = sortAsc st /\
  handleRemoveLoop st' removed = st'.
Proof.
  intros st'.
  assert (Hd : displayed st'
               = filter (fun l => negb (idEqb (id l) removed)) (displayed st)).
  { unfold displayed, sortedLoops. simpl.
    apply (jsSort_filter _ _ (inOrder (sortBy st) (sortAsc st)));
      [apply compareLoops_inOrder|apply inOrder_total|apply inOrder_trans]. }
  split; [|split; [exact Hd|split; [|split; [|split; [|split; [|split; [|split]]]]]]].
  - intros l. simpl. rewrite filter_In, negb_true_iff. reflexivity.
  - rewrite Hd. apply Forall_forall. intros l Hl. apply filter_In in Hl.
    destruct Hl as [_ Hl]. now apply negb_true_iff.
  - simpl. apply filter_length_le.
  - intros sel E. simpl. now rewrite E.
  - intros E. simpl. now rewrite E.
  - reflexivity.
  - reflexivity.
  - unfold handleRemoveLoop at 1. simpl. rewrite filter_idem. unfold st', handleRemoveLoop.
    f_equal. destruct (selectedLoopId st) as [sel|]; [|reflexivity].
    destruct (idEqb sel removed) eqn:E; [reflexivity|]. now rewrite E.
Qed.

Lemma before_by_start (l : list DetectedLoop) :
  StronglySorted before l -> Forall (fun u => startTime u <= endTime u) l ->
  StronglySorted (inOrder SortStartTime true) l.
Proof.
  intros Hs Hw. apply (StronglySorted_weaken before); [|exact Hs].
  intros a b Ha _ Hab. unfold inOrder, before in *. simpl.
  rewrite Forall_forall in Hw. specialize (Hw a Ha). lra.
Qed.

(** X16.  Under the application's initial sort setting (by start time,
    ascending) the displayed list is exactly the list a run delivered, in
    the order it was delivered, in either detection mode. *)
Theorem default_order_is_detection_order (sqrt : Q -> Q) (env : Env)
        (config : AnalysisConfig) (audioBuffer : option AudioBuffer) (fuel : nat)
        (ticks : list (Sample * Q)) :
  0 < samplingRate config ->
  sampleLoop sqrt env config fuel audioBuffer 0 = Some ticks ->
  exists finalLoops,
    loopsOf env config (detrend config (fuse config (map fst ticks))) = Ok finalLoops /\
    sortedLoops (withThumbs env finalLoops) SortStartTime true = withThumbs env finalLoops.
Proof.
  intros Hf Hs.
  destruct (run_loops_ordered sqrt env config audioBuffer fuel ticks Hf Hs)
    as (finalLoops & E & Ho & Hw).
  exists finalLoops. split; [exact E|]. unfold sortedLoops.
  apply (jsSort_sorted_id _ _ (inOrder SortStartTime true));
    [apply compareLoops_inOrder|]. now apply before_by_start.
Qed.

Lemma StronglySorted_snoc {A : Type} (R : A -> A -> Prop) (l : list A) (x : A) :
  StronglySorted R l -> Forall (fun y => R y x) l -> StronglySorted R (l ++ [x]).
Proof.
  induction 1 as [|y l Hl IH Hy]; intros Hx; simpl; [repeat constructor|].
  inversion Hx as [|? ? Hyx Hlx]; subst.
  constructor; [now apply IH|]. apply Forall_app. split; [exact Hy|now constructor].
Qed.

Lemma StronglySorted_rev {A : Type} (R : A -> A -> Prop) (l : list A) :
  StronglySorted R l -> StronglySorted (fun a b => R b a) (rev l).
Proof.
  induction 1 as [|x l Hl IH Hx]; simpl; [constructor|].
  apply StronglySorted_snoc; [exact IH|].
  apply Forall_forall. intros y Hy. rewrite <- in_rev in Hy.
  rewrite Forall_forall in Hx. now apply Hx.
Qed.

Lemma sorted_perm_unique {A : Type} (R : A -> A -> Prop) (l1 l2 : list A) :
  StronglySorted R l1 -> StronglySorted R l2 -> Permutation l1 l2 ->
  (forall a b, In a l1 -> In b l1 -> R a b -> R b a -> a = b) ->
  l1 = l2.
Proof.
  intros H1. revert l2. induction H1 as [|x t1 Ht1 IH Hx]; intros l2 H2 Hp Hanti.
  - apply Permutation_nil in Hp. now subst.
  - destruct l2 as [|y t2]; [apply Permutation_sym, Permutation_nil in Hp; discriminate|].
    inversion H2 as [|? ? Ht2 Hy]; subst.
    rewrite Forall_forall in Hx, Hy.
    assert (Exy : x = y).
    { assert (Hxin : In x (y :: t2)) by (apply (Permutation_in _ Hp); now left).
      assert (Hyin : In y (x :: t1))
        by (apply (Permutation_in _ (Permutation_sym Hp)); now left).
      destruct Hxin as [->|Hxin]; [reflexivity|].
      destruct Hyin as [->|Hyin]; [reflexivity|].
      apply Hanti; [now left|now right|now apply Hx|now apply Hy]. }
    subst y. f_equal. apply IH; [exact Ht2|now apply Permutation_cons_inv in Hp|].
    intros a b Ha Hb. apply Hanti; now right.
Qed.

Lemma toggleSort_same (st : ResultState) :
  toggleSort st (sortBy st)
  = {| loops := loops st; selectedLoopId := selectedLoopId st;
       sortBy := sortBy st; sortAsc := negb (sortAsc st) |}.
Proof.
  unfold toggleSort. destruct (sortBy st); reflexivity.
Qed.

(** X17.  Clicking the active sort field flips the direction and keeps the
    field; when no two loops tie on that field the displayed list becomes
    exactly the reverse of what it was.  Clicking it twice restores the
    settings. *)
Theorem toggle_reverses_display (st : ResultState) :
  (forall a b, In a (loops st) -> In b (loops st) ->
               sortField (sortBy st) a == sortField (sortBy st) b -> a = b) ->
  sortBy (toggleSort st (sortBy st)) = sortBy st /\
  sortAsc (toggleSort st (sortBy st)) = negb (sortAsc st) /\
  displayed (toggleSort st (sortBy st)) = rev (displayed st) /\
  toggleSort (toggleSort st (sortBy st)) (sortBy st) = st.
Proof.
  intros Hdistinct. rewrite toggleSort_same.
  split; [reflexivity|]. split; [reflexivity|]. split.
  - unfold displayed. simpl.
    set (f := sortBy st). set (asc := sortAsc st).
    pose proof (jsSort_perm _ (compareLoops f asc) (loops st)) as P1.
    pose proof (jsSort_perm _ (compareLoops f (negb asc)) (loops st)) as P2.
    apply (sorted_perm_unique (inOrder f (negb asc))).
    + apply (jsSort_sorted _ _ (inOrder f (negb asc)));
        [apply compareLoops_inOrder|apply inOrder_total|apply inOrder_trans].
    + assert (Hs : StronglySorted (inOrder f asc) (sortedLoops (loops st) f asc)).
      { apply (jsSort_sorted _ _ (inOrder f asc));
          [apply compareLoops_inOrder|apply inOrder_total|apply inOrder_trans]. }
      apply StronglySorted_rev in Hs.
      eapply StronglySorted_weaken; [|exact Hs].
      intros a b _ _ H. unfold inOrder in *. destruct asc; exact H.
    + unfold sortedLoops. rewrite <- Permutation_rev, P1, P2. reflexivity.
    + intros a b Ha Hb Hab Hba. unfold sortedLoops in Ha, Hb.
      apply (Permutation_in _ P2) in Ha. apply (Permutation_in _ P2) in Hb.
      apply Hdistinct; [exact Ha|exact Hb|].
      unfold inOrder in *. subst f. destruct (negb asc); lra.
  - destruct st as [ls sel f asc]. unfold toggleSort. simpl.
    destruct f; simpl; now rewrite negb_involutive.
Qed.

(** ** Audio energy at the edges *)

Lemma skipn_beyond {A : Type} (n : nat) (l : list A) : (length l <= n)%nat -> skipn n l = [].
Proof.
  revert n. induction l as [|x l IH]; intros n H; destruct n; simpl in *;
    try reflexivity; try lia. apply IH. lia.
Qed.

(** X18.  getAudioRMS returns 0 without a buffer, 0 for a window that
    starts at or past the end of the channel data, and 0 for a window too
    short to contain a sample; with a square root that is never negative it
    never returns a negative score. *)
Theorem audio_rms_edges (sqrt : Q -> Q) (buffer : AudioBuffer) (t w : Q) :
  0 <= t -> 0 <= sampleRate buffer ->
  getAudioRMS sqrt None t w = 0 /\
  ((Z.of_nat (length (channelData buffer)) <= Qfloor (t * sampleRate buffer))%Z ->
   getAudioRMS sqrt (Some buffer) t w = 0) /\
  ((Qfloor ((t + w) * sampleRate buffer) <= Qfloor (t * sampleRate buffer))%Z ->
   getAudioRMS sqrt (Some buffer) t w = 0) /\
  ((forall x, 0 <= sqrt x) -> 0 <= getAudioRMS sqrt (Some buffer) t w).
Proof.
  intros Ht Hr.
  assert (Hs : (0 <= Qfloor (t * sampleRate buffer))%Z).
  { apply Qfloor_nonneg. now apply Qmult_le_0_compat. }
  split; [reflexivity|]. split; [|split].
  - intros H. unfold getAudioRMS. cbv zeta.
    rewrite skipn_beyond by lia. rewrite firstn_nil. reflexivity.
  - intros H. unfold getAudioRMS. cbv zeta.
    replace (Z.to_nat (Z.min (Qfloor ((t + w) * sampleRate buffer))
                         (Z.of_nat (length (channelData buffer)))
                       - Qfloor (t * sampleRate buffer))) with 0%nat by lia.
    reflexivity.
  - intros Hsqrt. unfold getAudioRMS. cbv zeta.
    destruct (Nat.eqb _ 0); [apply Qle_refl|].
    apply Qmult_le_0_compat; [apply Hsqrt|lra].
Qed.

(** ** The audio weight at its extremes *)



(** ** Frame scores *)

Lemma quad_ind {A : Type} (P : list A -> Prop) :
  P [] -> (forall a, P [a]) -> (forall a b, P [a; b]) -> (forall a b c, P [a; b; c]) ->
  (forall a b c d rest, P rest -> P (a :: b :: c :: d :: rest)) ->
  forall l, P l.
Proof.
  intros H0 H1 H2 H3 H4.
  fix IH 1. intros [|a [|b [|c [|d rest]]]];
    [exact H0|apply H1|apply H2|apply H3|apply H4; apply IH].
Qed.

Lemma scanPixels_sums (sqrt : Q -> Q) (data : list Z) :
  forall prev acc,
    pxSum (scanPixels sqrt data prev acc) == pxSum acc + sumBy (fun y => y) (grays data) /\
    pxSumSq (scanPixels sqrt data prev acc)
    == pxSumSq acc + sumBy (fun y => y * y) (grays data).
Proof.
  induction data as [| | | |r g b a rest IH] using quad_ind; intros prev acc;
    try (simpl; unfold sumBy; simpl; split; ring).
  cbn [scanPixels grays].
  destruct (IH (option_map (skipn 4) prev)
               {| diffScore :=
                    match prev with
                    | Some (prevR :: prevG :: prevB :: _) =>
                        diffScore acc + sqrt (Qabs (gray r g b - gray prevR prevG prevB))
                    | _ => diffScore acc
                    end;
                  pxSum := pxSum acc + gray r g b;
                  pxSumSq := pxSumSq acc + gray r g b * gray r g b |}) as [E1 E2].
  cbv zeta. rewrite E1, E2. rewrite !sumBy_cons. cbn [pxSum pxSumSq]. split; ring.
Qed.

Lemma scanPixels_first (sqrt : Q -> Q) (data : list Z) :
  forall acc, diffScore (scanPixels sqrt data None acc) = diffScore acc.
Proof.
  induction data as [| | | |r g b a rest IH] using quad_ind; intros acc;
    try reflexivity.
  cbn [scanPixels option_map]. cbv zeta. rewrite IH. reflexivity.
Qed.

Lemma scanPixels_diff_nonneg (sqrt : Q -> Q) (data : list Z) :
  (forall x, 0 <= sqrt x) ->
  forall prev acc, 0 <= diffScore acc -> 0 <= diffScore (scanPixels sqrt data prev acc).
Proof.
  intros Hs.
  induction data as [| | | |r g b a rest IH] using quad_ind; intros prev acc Hacc;
    try exact Hacc.
  cbn [scanPixels]. cbv zeta. apply IH. cbn [diffScore].
  destruct prev as [[|pr [|pg [|pb prest]]]|]; try exact Hacc.
  pose proof (Hs (Qabs (gray r g b - gray pr pg pb))). lra.
Qed.

Lemma scanPixels_still (sqrt : Q -> Q) (data : list Z) :
  (forall x, x == 0 -> sqrt x == 0) ->
  forall acc, diffScore (scanPixels sqrt data (Some data) acc) == diffScore acc.
Proof.
  intros Hs.
  induction data as [| | | |r g b a rest IH] using quad_ind; intros acc;
    try reflexivity.
  cbn [scanPixels option_map skipn]. cbv zeta. rewrite IH. cbn [diffScore].
  rewrite Hs; [ring|].
  assert (E : gray r g b - gray r g b == 0) by ring.
  rewrite E. reflexivity.
Qed.

Lemma grays_length (n : nat) :
  forall data, length data = (4 * n)%nat -> length (grays data) = n.
Proof.
  induction n as [|n IH]; intros data H.
  - destruct data; [reflexivity|discriminate].
  - destruct data as [|r [|g [|b [|a rest]]]]; simpl in H; try lia.
    cbn [grays length]. f_equal. apply IH. simpl. lia.
Qed.

Lemma grays_solid (r g b a : Z) (n : nat) :
  grays (solidFrame r g b a n) = repeat (gray r g b) n.
Proof.
  unfold solidFrame. induction n as [|n IH]; [reflexivity|].
  simpl. f_equal. exact IH.
Qed.

Lemma solidFrame_length (r g b a : Z) (n : nat) :
  length (solidFrame r g b a n) = (4 * n)%nat.
Proof.
  unfold solidFrame. induction n as [|n IH]; [reflexivity|].
  simpl in *. rewrite IH. lia.
Qed.

Lemma ofNat_quad (n : nat) : ofNat (4 * n) / 4 == ofNat n.
Proof.
  unfold ofNat. rewrite Nat2Z.inj_mul. rewrite inject_Z_mult.
  change (inject_Z (Z.of_nat 4)) with 4. field.
Qed.

Lemma ofNat_pos (n : nat) : (0 < n)%nat -> 0 < ofNat n.
Proof.
  intros H. unfold ofNat. change 0 with (inject_Z 0). rewrite <- Zlt_Qlt. lia.
Qed.

Lemma sumBy_repeat (f : Q -> Q) (y : Q) (n : nat) :
  sumBy f (repeat y n) == ofNat n * f y.
Proof.
  induction n as [|n IH].
  - unfold sumBy. simpl. change (ofNat 0) with 0. ring.
  - cbn [repeat]. rewrite sumBy_cons, IH, ofNat_succ. ring.
Qed.

(** X20.  The motion score of one frame of n >= 1 pixels, after a previous
    frame of the same size (or none).  The first frame of a run, which has
    no previous frame, has motion score 0; and with a square root that is
    never negative no motion score is negative. *)
Theorem frame_scores (sqrt : Q -> Q) (prev : option (list Z)) (data : list Z) (n : nat) :
  (0 < n)%nat -> length data = (4 * n)%nat ->
  (forall p, prev = Some p -> length p = length data) ->
  fst (scoreFrame sqrt None data) == 0 /\
  ((forall x, 0 <= sqrt x) -> 0 <= fst (scoreFrame sqrt prev data)).
Proof.
  intros Hn Hlen _. unfold scoreFrame. cbv zeta. cbn [fst snd].
  assert (Ec : ofNat (length data) / 4 == ofNat (length (grays data))).
  { rewrite Hlen, (grays_length n data Hlen). apply ofNat_quad. }
  split.
  - rewrite scanPixels_first. cbn [diffScore]. unfold Qdiv. ring.
  - intros Hs. apply Qdiv_nonneg.
    + apply scanPixels_diff_nonneg; [exact Hs|]. cbn [diffScore]. lra.
    + rewrite Ec. apply ofNat_nonneg.
Qed.

Lemma captureFrames_still (sqrt : Q -> Q) (data : list Z) (k : nat) :
  (forall x, x == 0 -> sqrt x == 0) ->
  Forall (fun s => fst s == 0) (captureFrames sqrt (Some data) (repeat data k)).
Proof.
  intros Hs. induction k as [|k IH]; [constructor|].
  cbn [repeat captureFrames]. constructor; [|exact IH].
  unfold scoreFrame. cbv zeta. cbn [fst].
  rewrite scanPixels_still by exact Hs. cbn [diffScore]. unfold Qdiv. ring.
Qed.

(** X21.  Still pictures.  A frame of one colour has a variance below 10,
    so its instant is cleaned as a flat frame whatever frame came before;
    and when the same frame is captured at every seek, every motion score
    of the run is 0 (for a square root with sqrt 0 = 0). *)
Theorem still_picture_scores (sqrt : Q -> Q) (prev : option (list Z))
        (r g b a : Z) (n : nat) (data : list Z) (k : nat) :
  (0 < n)%nat ->
  (forall x, x == 0 -> sqrt x == 0) ->
  Qltb (snd (scoreFrame sqrt prev (solidFrame r g b a n))) 10 = true /\
  Forall (fun s => fst s == 0) (captureFrames sqrt None (repeat data k)).
Proof.
  intros Hn Hs.
  assert (E : snd (scoreFrame sqrt prev (solidFrame r g b a n)) == 0).
  { unfold scoreFrame. cbv zeta. cbn [snd].
    destruct (scanPixels_sums sqrt (solidFrame r g b a n) prev
                {| diffScore := 0; pxSum := 0; pxSumSq := 0 |}) as [E1 E2].
    cbn [pxSum pxSumSq] in E1, E2.
    rewrite E1, E2, solidFrame_length, ofNat_quad, grays_solid, !sumBy_repeat.
    pose proof (ofNat_pos n Hn). field. lra. }
  split.
  - apply Qltb_lt. rewrite E. reflexivity.
  - destruct k as [|k]; [constructor|].
    cbn [repeat captureFrames]. constructor.
    + unfold scoreFrame. cbv zeta. cbn [fst].
      rewrite scanPixels_first. cbn [diffScore]. unfold Qdiv. ring.
    + apply captureFrames_still. exact Hs.
Qed.

(** ** The further statements at concrete inputs *)

Lemma sampling_instants_witness :
  let config := exampleConfig false reps 40 in
  0 < samplingRate config /\
  exists ticks,
    sampleLoop unusedSqrt shortClip config 5 None 0 = Some ticks /\
    length ticks = 2%nat /\
    (forall i a b, nth_error ticks i = Some a -> nth_error ticks (S i) = Some b ->
                   time (fst b) = time (fst a) + interval config) /\
    Forall (fun tick => 0 <= time (fst tick) < videoDuration shortClip) ticks.
Proof.
  intros config.
  assert (Hf : 0 < samplingRate config) by (vm_compute; reflexivity).
  split; [exact Hf|].
  destruct (sampleLoop unusedSqrt shortClip config 5 None 0) as [ticks|] eqn:E;
    [|vm_compute in E; discriminate].
  destruct (sampling_instants unusedSqrt shortClip config None 5 ticks Hf E)
    as (_ & _ & Hstep & Hin & _).
  exists ticks. split; [reflexivity|]. split; [|split; [exact Hstep|exact Hin]].
  vm_compute in E. injection E as <-. reflexivity.
Defined.

Lemma flat_frames_give_no_loops_witness :
  let config := exampleConfig false reps 40 in
  hasVideo flatClip = true /\ hasCanvas flatClip = true /\ hasFile flatClip = true /\
  hasContext flatClip = true /\ validConfig config /\
  (forall t, snd (captureFrame flatClip t) < 10) /\
  (decodeAudio flatClip = None \/ audioWeight config <= 0) /\
  exists fuel ticks,
    startAnalysis unusedSqrt flatClip config fuel = Some (completedRun flatClip config ticks []).
Proof.
  intros config.
  assert (Hflat : forall t, snd (captureFrame flatClip t) < 10)
    by (intros t; vm_compute; reflexivity).
  assert (Hno : decodeAudio flatClip = None \/ audioWeight config <= 0)
    by (left; reflexivity).
  do 4 (split; [reflexivity|]). split; [exact (exampleConfig_valid false reps 40)|].
  split; [exact Hflat|]. split; [exact Hno|].
  destruct (flat_frames_give_no_loops unusedSqrt flatClip config
              eq_refl eq_refl eq_refl eq_refl (exampleConfig_valid false reps 40) Hflat Hno)
    as (fuel & ticks & _ & Hrun & _).
  exists fuel, ticks. exact Hrun.
Defined.

Lemma scene_cut_flags_witness :
  let config := exampleConfig true reps 10 in
  let combinedData := samplesOf cutOnStartPeak in
  Forall (fun d => isSceneCut d = false) combinedData /\
  map value (fuse config combinedData) = map value (processedData config combinedData).
Proof.
  intros config combinedData.
  assert (H : Forall (fun d => isSceneCut d = false) combinedData)
    by (repeat constructor).
  split; [exact H|].
  exact (proj1 (scene_cut_flags config combinedData H)).
Defined.

Lemma detrend_only_lowers_witness :
  let processed := signalOf [100; 40; 250; 0] in
  ignoreSteadyMotion steadyConfig = true /\ 0 <= samplingRate steadyConfig /\
  Forall (fun d => 0 <= value d) processed /\
  Forall (fun d => 0 <= value d) (detrend steadyConfig processed) /\
  Forall2 (fun d d' => value d' <= value d) processed (detrend steadyConfig processed).
Proof.
  intros processed.
  assert (Hf : 0 <= samplingRate steadyConfig) by (vm_compute; discriminate).
  assert (Hn : Forall (fun d => 0 <= value d) processed)
    by (repeat constructor; vm_compute; discriminate).
  split; [reflexivity|]. split; [exact Hf|]. split; [exact Hn|].
  destruct (detrend_only_lowers steadyConfig processed eq_refl Hf) as (H1 & H2 & _).
  split; [exact H1|exact (H2 Hn)].
Defined.

Lemma signal_ranges_witness :
  let config := exampleConfig true reps 10 in
  let combinedData := samplesOf cutOnStartPeak in
  validConfig config /\ Forall rawNonneg combinedData /\
  Forall (fun d => 0 <= value d <= 255) (fuse config combinedData).
Proof.
  intros config combinedData.
  split; [exact (exampleConfig_valid true reps 10)|].
  split; [exact cutOnStartPeak_nonneg|].
  exact (proj1 (signal_ranges config combinedData (exampleConfig_valid true reps 10)
                  cutOnStartPeak_nonneg)).
Defined.

Lemma atomic_loops_sound_witness :
  let config := exampleConfig false reps 10 in
  let data := detrend config (fuse config (samplesOf cutOnStartPeak)) in
  let peaks := [peakAt 1 2; peakAt (7 # 2) 7] in
  Forall (fun p => (index p <= length data)%nat) peaks /\
  exists atomic,
    atomicLoops config data peaks = Ok atomic /\
    (length atomic <= length peaks - 1)%nat.
Proof.
  intros config data peaks.
  assert (Hr : Forall (fun p => (index p <= length data)%nat) peaks)
    by (repeat constructor; vm_compute; lia).
  split; [exact Hr|].
  destruct (atomic_loops_sound config data peaks Hr) as (atomic & E & _ & Hl & _).
  exists atomic. split; [exact E|exact Hl].
Defined.

Lemma sets_are_maximal_runs_witness :
  let config := exampleConfig false sets 40 in
  0 <= samplingRate config /\ Forall (fun l => 0 <= endTime l) threeLoops /\
  exists units groups,
    setsStage config (fun _ => 0%Z) [] threeLoops = Ok units /\
    concat groups = threeLoops /\
    separated (joins config []) groups.
Proof.
  intros config.
  assert (Hf : 0 <= samplingRate config) by (vm_compute; discriminate).
  assert (He : Forall (fun l => 0 <= endTime l) threeLoops)
    by (repeat constructor; vm_compute; discriminate).
  split; [exact Hf|]. split; [exact He|].
  destruct (sets_are_maximal_runs config (fun _ => 0%Z) [] threeLoops Hf He)
    as (units & groups & E & Hc & _ & _ & Hs).
  exists units, groups. split; [exact E|]. split; [exact Hc|exact Hs].
Defined.

Lemma run_delivers_ordered_loops_witness :
  let config := exampleConfig false reps 10 in
  0 < samplingRate config /\
  exists ticks finalLoops,
    sampleLoop unusedSqrt burstClip config 20 None 0 = Some ticks /\
    loopsOf burstClip config (detrend config (fuse config (map fst ticks))) = Ok finalLoops /\
    length (withThumbs burstClip finalLoops) = 2%nat /\
    StronglySorted before (withThumbs burstClip finalLoops) /\
    Forall (fun u => startTime u <= endTime u) (withThumbs burstClip finalLoops).
Proof.
  intros config.
  assert (Hf : 0 < samplingRate config) by (vm_compute; reflexivity).
  split; [exact Hf|].
  destruct (sampleLoop unusedSqrt burstClip config 20 None 0) as [ticks|] eqn:E;
    [|vm_compute in E; discriminate].
  destruct (run_delivers_ordered_loops unusedSqrt burstClip config None 20 ticks Hf E)
    as (finalLoops & Hl & Hs & Hle).
  exists ticks, finalLoops. split; [reflexivity|]. split; [exact Hl|].
  split; [|split; [exact Hs|exact Hle]].
  vm_compute in E. injection E as <-. vm_compute in Hl. injection Hl as <-. reflexivity.
Defined.

Lemma default_order_is_detection_order_witness :
  let config := exampleConfig false reps 10 in
  0 < samplingRate config /\
  exists ticks finalLoops,
    sampleLoop unusedSqrt burstClip config 20 None 0 = Some ticks /\
    loopsOf burstClip config (detrend config (fuse config (map fst ticks))) = Ok finalLoops /\
    length (withThumbs burstClip finalLoops) = 2%nat /\
    sortedLoops (withThumbs burstClip finalLoops) SortStartTime true
    = withThumbs burstClip finalLoops.
Proof.
  intros config.
  assert (Hf : 0 < samplingRate config) by (vm_compute; reflexivity).
  split; [exact Hf|].
  destruct (sampleLoop unusedSqrt burstClip config 20 None 0) as [ticks|] eqn:E;
    [|vm_compute in E; discriminate].
  destruct (default_order_is_detection_order unusedSqrt burstClip config None 20 ticks Hf E)
    as (finalLoops & Hl & Hs).
  exists ticks, finalLoops. split; [reflexivity|]. split; [exact Hl|].
  split; [|exact Hs].
  vm_compute in E. injection E as <-. vm_compute in Hl. injection Hl as <-. reflexivity.
Defined.

Lemma run_trace_shape_witness :
  let config := exampleConfig false reps 10 in
  exists events loops,
    startAnalysis unusedSqrt burstClip config 20 = Some events /\
    length loops = 2%nat /\
    loopsDelivered events = [loops] /\
    errorLogged events = false /\
    exists before,
      events = before ++ [OnLoopsDetected loops;
                          AddLog success (MsgComplete (length loops));
                          SetAppState READY].
Proof.
  intros config.
  destruct (startAnalysis unusedSqrt burstClip config 20) as [events|] eqn:E;
    [|vm_compute in E; discriminate].
  pose proof (run_trace_shape unusedSqrt burstClip config 20 events E)
    as (_ & _ & _ & _ & _ & Horder & _).
  assert (Hd : exists loops, loopsDelivered events = [loops] /\ length loops = 2%nat /\
                             errorLogged events = false).
  { vm_compute in E. injection E as <-. eexists. repeat split. }
  destruct Hd as (loops & Hd & Hn & He).
  exists events, loops. split; [reflexivity|]. split; [exact Hn|].
  split; [exact Hd|]. split; [exact He|].
  apply Horder.
  assert (Hin : In loops (loopsDelivered events)) by (rewrite Hd; now left).
  unfold loopsDelivered in Hin. apply in_flat_map in Hin.
  destruct Hin as (e & He1 & He2). destruct e; try contradiction.
  destruct He2 as [<-|[]]. exact He1.
Defined.

Lemma exampleResults_distinct (a b : DetectedLoop) :
  In a (loops exampleResults) -> In b (loops exampleResults) ->
  sortField (sortBy exampleResults) a == sortField (sortBy exampleResults) b -> a = b.
Proof.
  intros Ha Hb.
  destruct Ha as [<-|[<-|[<-|[]]]]; destruct Hb as [<-|[<-|[<-|[]]]]; intros H;
    try reflexivity; vm_compute in H; discriminate.
Defined.

Lemma toggle_reverses_display_witness :
  (forall a b, In a (loops exampleResults) -> In b (loops exampleResults) ->
               sortField (sortBy exampleResults) a == sortField (sortBy exampleResults) b ->
               a = b) /\
  displayed (toggleSort exampleResults SortStartTime) = rev (displayed exampleResults).
Proof.
  split; [exact exampleResults_distinct|].
  exact (proj1 (proj2 (proj2 (toggle_reverses_display exampleResults
                                exampleResults_distinct)))).
Defined.

Lemma audio_rms_edges_witness :
  0 <= 1 /\ 0 <= sampleRate shortTrack /\
  getAudioRMS unusedSqrt (Some shortTrack) 1 (1 # 2) = 0.
Proof.
  assert (Ht : 0 <= 1) by (vm_compute; discriminate).
  assert (Hr : 0 <= sampleRate shortTrack) by (vm_compute; discriminate).
  split; [exact Ht|]. split; [exact Hr|].
  apply (proj1 (proj2 (audio_rms_edges unusedSqrt shortTrack 1 (1 # 2) Ht Hr))).
  vm_compute. discriminate.
Defined.

Lemma frame_scores_witness :
  let prev := Some (solidFrame 10 20 30 255 2) in
  (0 < 2)%nat /\ length twoPixels = (4 * 2)%nat /\
  (forall p, prev = Some p -> length p = length twoPixels) /\
  (forall x, 0 <= Qabs x) /\
  fst (scoreFrame Qabs None twoPixels) == 0 /\
  0 <= fst (scoreFrame Qabs prev twoPixels).
Proof.
  intros prev.
  assert (Hn : (0 < 2)%nat) by lia.
  assert (Hp : forall p, prev = Some p -> length p = length twoPixels)
    by (intros p E; injection E as <-; reflexivity).
  split; [exact Hn|]. split; [reflexivity|]. split; [exact Hp|].
  split; [exact Qabs_nonneg|].
  destruct (frame_scores Qabs prev twoPixels 2 Hn eq_refl Hp) as (Hz & Hv).
  split; [exact Hz|exact (Hv Qabs_nonneg)].
Defined.

Lemma still_picture_scores_witness :
  (0 < 2)%nat /\ (forall x, x == 0 -> unusedSqrt x == 0) /\
  Qltb (snd (scoreFrame unusedSqrt (Some twoPixels) (solidFrame 10 20 30 255 2))) 10 = true /\
  Forall (fun s => fst s == 0) (captureFrames unusedSqrt None (repeat twoPixels 3)).
Proof.
  assert (Hn : (0 < 2)%nat) by lia.
  assert (Hs : forall x, x == 0 -> unusedSqrt x == 0) by (intros x E; exact E).
  split; [exact Hn|]. split; [exact Hs|].
  exact (still_picture_scores unusedSqrt (Some twoPixels) 10 20 30 255 2
           twoPixels 3 Hn Hs).
Defined.

